(** * Wa-Tor: the chronon transition engine of main.go

    A shallow embedding of the simulation core of the Wa-Tor program
    (createWorld, processChronon, processFish, processShark,
    getAdjacentPositions) and the properties of one chronon, followed by
    the rest of the program (countPopulation, printWorld, initializeWorld,
    main) over the same memory.

    Go's [int] is the 64-bit two's complement integer of the platform the
    program is built for; it is a [Z] here and every addition and
    subtraction of the source is followed by [wrap].  Creatures live on a
    heap and the grids hold pointers to them, as in the source, where the
    old and the new grid share the creature objects. *)

From Stdlib Require Import ZArith Lia Ascii.
From Stdlib Require DecimalString.
From stdpp Require Import base numbers list option strings.

Local Open Scope Z_scope.

(** ** Go integers *)

Module GoInt.

Definition min_int : Z := - 2 ^ 63.
Definition max_int : Z := 2 ^ 63 - 1.

(** Reduction of a mathematical integer to the value an [int] holds. *)
Definition wrap (z : Z) : Z := (z + 2 ^ 63) mod 2 ^ 64 - 2 ^ 63.

Definition add (a b : Z) : Z := wrap (a + b).
Definition sub (a b : Z) : Z := wrap (a - b).

(** The operator [%]: the remainder of the division truncated towards
    zero; a zero divisor is a run-time panic. *)
Definition rem (a b : Z) : option Z :=
  if decide (b = 0) then None else Some (Z.rem a b).

Definition in_range (z : Z) : Prop := min_int <= z <= max_int.

End GoInt.

(** ** Data model *)

Inductive Species : Set :=
| Empty  (* iota = 0 *)
| Fish
| Shark.

#[global] Instance Species_eq_dec : EqDecision Species.
Proof. solve_decision. Defined.

Record Creature : Set := mkCreature {
  species   : Species;
  Age       : Z;
  Energy    : Z;
  LastBreed : Z
}.

(** A [*Creature]: [None] is [nil], [Some p] the address of a heap cell. *)
Abbreviation ptr := nat (only parsing).
Abbreviation Cell := (option nat) (only parsing).
Abbreviation GridT := (list (list (option nat))) (only parsing).

Record World : Set := mkWorld {
  Grid       : GridT;
  Size       : Z;
  FishBreed  : Z;
  SharkBreed : Z;
  Starve     : Z
}.

(** A [*World]. *)
Abbreviation wptr := nat (only parsing).

(** The anonymous parameter struct of [main]. *)
Record Params : Set := mkParams {
  NumShark    : Z;
  NumFish     : Z;
  pFishBreed  : Z;
  pSharkBreed : Z;
  pStarve     : Z;
  GridSize    : Z
}.

Abbreviation Pos := (Z * Z)%type (only parsing).

(** ** getAdjacentPositions *)

Definition getAdjacentPositions (x y size : Z) : option (list Pos) :=
  w ← GoInt.rem (GoInt.add (GoInt.sub x 1) size) size;
  e ← GoInt.rem (GoInt.add x 1) size;
  n ← GoInt.rem (GoInt.add (GoInt.sub y 1) size) size;
  s ← GoInt.rem (GoInt.add y 1) size;
  Some [(w, y); (e, y); (x, n); (x, s)].

(** The neighbours as section 4.2 of the specification writes them, with
    the mathematical [mod]. *)
Definition neighbors_spec (x y size : Z) : list Pos :=
  [((x - 1 + size) mod size, y); ((x + 1) mod size, y);
   (x, (y - 1 + size) mod size); (x, (y + 1) mod size)].

(** The largest grid size for which no coordinate sum leaves [int]. *)
Definition max_size : Z := 2 ^ 62.

(** ** Memory and the monad of the engine

    The program state is the heap of creatures, the heap of worlds and the
    stream of numbers that [rand.Intn] draws from.  A computation either
    returns a value and a new memory or panics ([None]): an index out of
    range, a division by zero, [make] with a negative length, [rand.Intn]
    with a non-positive bound. *)

Record Mem : Set := mkMem {
  creatures : list Creature;
  worlds    : list World;
  rng       : list Z
}.

Definition M (A : Type) : Type := Mem -> option (A * Mem).

#[global] Instance M_ret : MRet M := λ A a m, Some (a, m).
#[global] Instance M_bind : MBind M :=
  λ A B f c m, match c m with Some (a, m') => f a m' | None => None end.

Definition panic {A : Type} : M A := λ _, None.

Definition liftOpt {A : Type} (o : option A) : M A :=
  λ m, match o with Some a => Some (a, m) | None => None end.

(** [l[i]] for a slice [l] and an [int] [i]. *)
Definition index {A : Type} (l : list A) (i : Z) : option A :=
  if decide (0 <= i) then l !! Z.to_nat i else None.

(** *** Creatures on the heap *)

Definition loadCreature (p : ptr) : M Creature :=
  λ m, match creatures m !! p with Some c => Some (c, m) | None => None end.

Definition storeCreature (p : ptr) (c : Creature) : M unit :=
  λ m, if decide (p < length (creatures m))%nat
       then Some (tt, mkMem (<[p := c]> (creatures m)) (worlds m) (rng m))
       else None.

(** [&Creature{...}] *)
Definition newCreature (c : Creature) : M ptr :=
  λ m, Some (length (creatures m), mkMem (creatures m ++ [c]) (worlds m) (rng m)).

Definition setAge (v : Z) (c : Creature) : Creature :=
  mkCreature (species c) v (Energy c) (LastBreed c).
Definition setEnergy (v : Z) (c : Creature) : Creature :=
  mkCreature (species c) (Age c) v (LastBreed c).
Definition setLastBreed (v : Z) (c : Creature) : Creature :=
  mkCreature (species c) (Age c) (Energy c) v.

(** [p.f = g(p.f)] *)
Definition modifyCreature (p : ptr) (f : Creature -> Creature) : M unit :=
  c ← loadCreature p; storeCreature p (f c).

(** *** Worlds and their grids *)

Definition loadWorld (w : wptr) : M World :=
  λ m, match worlds m !! w with Some W => Some (W, m) | None => None end.

Definition storeWorld (w : wptr) (W : World) : M unit :=
  λ m, if decide (w < length (worlds m))%nat
       then Some (tt, mkMem (creatures m) (<[w := W]> (worlds m)) (rng m))
       else None.

(** [&World{...}] *)
Definition allocWorld (W : World) : M wptr :=
  λ m, Some (length (worlds m), mkMem (creatures m) (worlds m ++ [W]) (rng m)).

Definition setGrid (G : GridT) (W : World) : World :=
  mkWorld G (Size W) (FishBreed W) (SharkBreed W) (Starve W).
Definition setFishBreed (v : Z) (W : World) : World :=
  mkWorld (Grid W) (Size W) v (SharkBreed W) (Starve W).
Definition setSharkBreed (v : Z) (W : World) : World :=
  mkWorld (Grid W) (Size W) (FishBreed W) v (Starve W).
Definition setStarve (v : Z) (W : World) : World :=
  mkWorld (Grid W) (Size W) (FishBreed W) (SharkBreed W) v.

(** [w.f = v] *)
Definition modifyWorld (w : wptr) (f : World -> World) : M unit :=
  W ← loadWorld w; storeWorld w (f W).

(** [G[x][y]] *)
Definition gridGet (G : GridT) (x y : Z) : option Cell :=
  row ← index G x; index row y.

(** [G[x][y] = v] *)
Definition gridSet (G : GridT) (x y : Z) (v : Cell) : option GridT :=
  row ← index G x;
  _ ← index row y;
  Some (<[Z.to_nat x := <[Z.to_nat y := v]> row]> G).

(** [w.Grid[x][y]] *)
Definition getCell (w : wptr) (x y : Z) : M Cell :=
  W ← loadWorld w; liftOpt (gridGet (Grid W) x y).

(** [w.Grid[x][y] = v] *)
Definition setCell (w : wptr) (x y : Z) (v : Cell) : M unit :=
  W ← loadWorld w;
  G ← liftOpt (gridSet (Grid W) x y v);
  storeWorld w (setGrid G W).

(** The assignment [w.Grid[x][y] = c] of a creature, as the source has it:
    whatever the cell holds is overwritten. *)
Definition place (w : wptr) (x y : Z) (c : ptr) : M unit :=
  setCell w x y (Some c).

(** The [set] of section 4.1 of the specification: it fails when the target
    already holds an occupant. *)
Definition placeStrict (w : wptr) (x y : Z) (c : ptr) : M unit :=
  occ ← getCell w x y;
  match occ with
  | Some _ => panic
  | None => setCell w x y (Some c)
  end.

(** *** Random numbers *)

(** [rand.Intn(n)]: panics for [n <= 0]; otherwise the next number of the
    stream reduced to [0, n), so that every outcome is some stream's. *)
Definition Intn (n : Z) : M Z :=
  λ m, if decide (n <= 0) then None
       else match rng m with
            | [] => Some (0, m)
            | r :: rs => Some (r mod n, mkMem (creatures m) (worlds m) rs)
            end.

(** *** Loops *)

(** [for i := i0; i < i0 + n; i++ { body }] *)
Fixpoint forFrom (n : nat) (i : Z) (body : Z -> M unit) : M unit :=
  match n with
  | O => mret tt
  | S n' => body i;; forFrom n' (i + 1) body
  end.

(** [for i := 0; i < N; i++ { body }] *)
Definition forRange (N : Z) (body : Z -> M unit) : M unit :=
  forFrom (Z.to_nat N) 0 body.

(** [for _, a := range l { if keep(a) { out = append(out, a) } }] *)
Fixpoint filterM {A : Type} (keep : A -> M bool) (l : list A) : M (list A) :=
  match l return M (list A) with
  | [] => mret (@nil A)
  | a :: l' =>
      b ← keep a;
      out ← filterM keep l';
      mret (if (b : bool) then a :: out else out)
  end.

(** ** createWorld *)

Definition createWorld (size : Z) : M wptr :=
  if decide (size < 0) then panic
  else
    allocWorld
      (mkWorld (replicate (Z.to_nat size) (replicate (Z.to_nat size) None))
               size 0 0 0).

(** ** The transition engine

    The engine is written once over the operation that puts a creature into
    a cell of the new grid, and instantiated below with the assignment of
    the source and with the failing [set] of the specification. *)

Section Engine.

Variable put : wptr -> Z -> Z -> ptr -> M unit.

(** [oldWorld.Grid[pos] == nil && newWorld.Grid[pos] == nil] *)
Definition isEmptyCell (oldWorld newWorld : wptr) (pos : Pos) : M bool :=
  o ← getCell oldWorld pos.1 pos.2;
  match o with
  | Some _ => mret false
  | None =>
      n ← getCell newWorld pos.1 pos.2;
      mret (bool_decide (n = None))
  end.

(** [oldWorld.Grid[pos] != nil && oldWorld.Grid[pos].Species == Fish &&
    newWorld.Grid[pos] == nil] *)
Definition isFishCell (oldWorld newWorld : wptr) (pos : Pos) : M bool :=
  o ← getCell oldWorld pos.1 pos.2;
  match o with
  | None => mret false
  | Some f =>
      c ← loadCreature f;
      if decide (species c = Fish) then
        n ← getCell newWorld pos.1 pos.2;
        mret (bool_decide (n = None))
      else mret false
  end.

Definition processFish (oldWorld newWorld : wptr) (x y : Z) (fish : ptr) : M unit :=
  ow ← loadWorld oldWorld;
  adjacent ← liftOpt (getAdjacentPositions x y (Size ow));
  emptyCells ← filterM (isEmptyCell oldWorld newWorld) adjacent;
  if decide (Z.of_nat (length emptyCells) = 0) then
    put newWorld x y fish
  else
    i ← Intn (Z.of_nat (length emptyCells));
    newPos ← liftOpt (index emptyCells i);
    f ← loadCreature fish;
    ow ← loadWorld oldWorld;
    if decide (FishBreed ow <= LastBreed f) then
      child ← newCreature (mkCreature Fish 0 0 0);
      put newWorld x y child;;
      put newWorld newPos.1 newPos.2 fish;;
      modifyCreature fish (setLastBreed 0)
    else
      put newWorld newPos.1 newPos.2 fish.

Definition processShark (oldWorld newWorld : wptr) (x y : Z) (shark : ptr) : M unit :=
  modifyCreature shark (λ c, setEnergy (GoInt.sub (Energy c) 1) c);;
  s ← loadCreature shark;
  if decide (Energy s <= 0) then mret tt
  else
    ow ← loadWorld oldWorld;
    adjacent ← liftOpt (getAdjacentPositions x y (Size ow));
    fishCells ← filterM (isFishCell oldWorld newWorld) adjacent;
    if decide (0 < Z.of_nat (length fishCells)) then
      i ← Intn (Z.of_nat (length fishCells));
      newPos ← liftOpt (index fishCells i);
      ow ← loadWorld oldWorld;
      modifyCreature shark (setEnergy (Starve ow));;
      s ← loadCreature shark;
      ow ← loadWorld oldWorld;
      if decide (SharkBreed ow <= LastBreed s) then
        ow ← loadWorld oldWorld;
        child ← newCreature (mkCreature Shark 0 (Starve ow) 0);
        put newWorld x y child;;
        put newWorld newPos.1 newPos.2 shark;;
        modifyCreature shark (setLastBreed 0)
      else
        put newWorld newPos.1 newPos.2 shark
    else
      emptyCells ← filterM (isEmptyCell oldWorld newWorld) adjacent;
      if decide (Z.of_nat (length emptyCells) = 0) then
        put newWorld x y shark
      else
        i ← Intn (Z.of_nat (length emptyCells));
        newPos ← liftOpt (index emptyCells i);
        s ← loadCreature shark;
        ow ← loadWorld oldWorld;
        if decide (SharkBreed ow <= LastBreed s) then
          ow ← loadWorld oldWorld;
          child ← newCreature (mkCreature Shark 0 (Starve ow) 0);
          put newWorld x y child;;
          put newWorld newPos.1 newPos.2 shark;;
          modifyCreature shark (setLastBreed 0)
        else
          put newWorld newPos.1 newPos.2 shark.

(** The body of the two loops of [processChronon]. *)
Definition scanCell (oldWorld newWorld : wptr) (x y : Z) : M unit :=
  creature ← getCell oldWorld x y;
  match creature with
  | None => mret tt
  | Some c =>
      moved ← getCell newWorld x y;
      match moved with
      | Some _ => mret tt
      | None =>
          modifyCreature c (λ cr, setAge (GoInt.add (Age cr) 1) cr);;
          modifyCreature c (λ cr, setLastBreed (GoInt.add (LastBreed cr) 1) cr);;
          cr ← loadCreature c;
          match species cr with
          | Fish => processFish oldWorld newWorld x y c
          | Shark => processShark oldWorld newWorld x y c
          | Empty => mret tt
          end
      end
  end.

(** The two loops of [processChronon], the index [x] outermost.  The
    bound [oldWorld.Size] is read once, as [size]: nothing in the engine
    assigns the [Size] of a world. *)
Definition scan (oldWorld newWorld : wptr) (size : Z) : M unit :=
  forRange size (λ x, forRange size (λ y, scanCell oldWorld newWorld x y)).

(** [params] is not used, as in the source. *)
Definition processChrononWith (oldWorld : wptr) (params : Params) : M wptr :=
  ow ← loadWorld oldWorld;
  newWorld ← createWorld (Size ow);
  ow ← loadWorld oldWorld;
  modifyWorld newWorld (setFishBreed (FishBreed ow));;
  ow ← loadWorld oldWorld;
  modifyWorld newWorld (setSharkBreed (SharkBreed ow));;
  ow ← loadWorld oldWorld;
  modifyWorld newWorld (setStarve (Starve ow));;
  ow ← loadWorld oldWorld;
  scan oldWorld newWorld (Size ow);;
  mret newWorld.

End Engine.

(** [processChronon] of the source. *)
Definition processChronon : wptr -> Params -> M wptr :=
  processChrononWith place.

(** The same engine over the failing [set] of the specification's Grid. *)
Definition processChrononStrict : wptr -> Params -> M wptr :=
  processChrononWith placeStrict.

(** * The rest of main.go

    [countPopulation], [printWorld], [initializeWorld] and [main], over the
    same memory.  What a function writes to the standard output is the
    list of characters it returns. *)

(** ** Loops that update local variables *)

(** [for i := i0; i < i0 + n; i++ { a = body(i, a) }], where [a] stands for
    the local variables that the body assigns. *)
Fixpoint foldFrom {A : Type} (n : nat) (i : Z) (body : Z -> A -> M A) (a : A)
    : M A :=
  match n with
  | O => mret a
  | S n' => a' ← body i a; foldFrom n' (i + 1) body a'
  end.

(** [for i := 0; i < N; i++ { a = body(i, a) }] *)
Definition foldRange {A : Type} (N : Z) (body : Z -> A -> M A) (a : A) : M A :=
  foldFrom (Z.to_nat N) 0 body a.

(** ** countPopulation *)

(** The body of the two loops; [n] holds the local variables [fish] and
    [sharks].  The cell is read twice, as in the source, and the second
    read is dereferenced. *)
Definition countCell (world : wptr) (x y : Z) (n : Z * Z) : M (Z * Z) :=
  c ← getCell world x y;
  match c with
  | None => mret n
  | Some _ =>
      c ← getCell world x y;
      cr ← match c with Some p => loadCreature p | None => panic end;
      if decide (species cr = Fish) then mret (GoInt.add n.1 1, n.2)
      else mret (n.1, GoInt.add n.2 1)
  end.

(** The bound [world.Size] is read once: nothing in the loops assigns it. *)
Definition countPopulation (world : wptr) : M (Z * Z) :=
  w ← loadWorld world;
  foldRange (Size w)
    (λ x n, foldRange (Size w) (λ y n, countCell world x y n) n) (0, 0).

(** ** printWorld *)

Definition text (s : string) : list ascii := String.list_ascii_of_string s.

Definition newline : ascii := ascii_of_nat 10.

(** The body of the two loops: [out] is the text written so far. *)
Definition printCell (world : wptr) (x y : Z) (out : list ascii)
    : M (list ascii) :=
  c ← getCell world x y;
  match c with
  | None => mret (out ++ text ". ")
  | Some p =>
      cr ← loadCreature p;
      if decide (species cr = Fish) then mret (out ++ text "F ")
      else mret (out ++ text "S ")
  end.

(** The index [y] is the outer one: a line of the picture is a row
    [Grid[0][y], Grid[1][y], ...]. *)
Definition printWorld (world : wptr) : M (list ascii) :=
  w ← loadWorld world;
  out ← foldRange (Size w)
          (λ y out,
             out ← foldRange (Size w) (λ x out, printCell world x y out) out;
             mret (out ++ [newline]))
          [];
  mret (out ++ [newline]).

(** ** initializeWorld *)

(** [for { x, y := rand.Intn(world.Size), rand.Intn(world.Size)
          if world.Grid[x][y] == nil { world.Grid[x][y] = &c; break } }]
    The loop ends when a free cell is drawn, and need not end: [fuel] is
    the number of rounds it is followed for, and the result is [false]
    when the loop is still running after them. *)
Fixpoint placeAtRandom (fuel : nat) (world : wptr) (c : Creature) : M bool :=
  match fuel with
  | O => mret false
  | S fuel' =>
      w ← loadWorld world;
      x ← Intn (Size w);
      w ← loadWorld world;
      y ← Intn (Size w);
      occupant ← getCell world x y;
      match occupant with
      | None =>
          p ← newCreature c;
          setCell world x y (Some p);;
          mret true
      | Some _ => placeAtRandom fuel' world c
      end
  end.

(** [for i := 0; i < n; i++ { body }] for a body that need not return: the
    loop stops with [false] as soon as the body does. *)
Fixpoint forFuel (n : nat) (body : M bool) : M bool :=
  match n with
  | O => mret true
  | S n' => ok ← body; if (ok : bool) then forFuel n' body else mret false
  end.

Definition initializeWorld (fuel : nat) (world : wptr) (params : Params)
    : M bool :=
  ok ← forFuel (Z.to_nat (NumShark params))
         (placeAtRandom fuel world (mkCreature Shark 0 (pStarve params) 0));
  if (ok : bool) then
    ok ← forFuel (Z.to_nat (NumFish params))
           (placeAtRandom fuel world (mkCreature Fish 0 0 0));
    if (ok : bool) then
      modifyWorld world (setFishBreed (pFishBreed params));;
      modifyWorld world (setSharkBreed (pSharkBreed params));;
      modifyWorld world (setStarve (pStarve params));;
      mret true
    else mret false
  else mret false.

(** ** main *)

(** The parameter struct of [main]. *)
Definition mainParams : Params := mkParams 100 300 3 10 5 50.

(** The verb [%d]. *)
Definition decimal (z : Z) : list ascii :=
  text (DecimalString.NilZero.string_of_int (Z.to_int z)).

(** [fmt.Printf("Chronon %d | Fish=%d | Sharks=%d\n", ...)] *)
Definition populationLine (chronon fishCount sharkCount : Z) : list ascii :=
  text "Chronon " ++ decimal chronon ++ text " | Fish=" ++ decimal fishCount
  ++ text " | Sharks=" ++ decimal sharkCount ++ [newline].

(** The loop of [main], with [n] chronons left to run from number
    [chronon]; [out] is the text written so far.  [time.Sleep] leaves no
    trace in the memory. *)
Fixpoint simulate (n : nat) (chronon : Z) (world : wptr) (params : Params)
    (out : list ascii) : M (list ascii) :=
  match n with
  | O => mret out
  | S n' =>
      world ← processChronon world params;
      counts ← countPopulation world;
      picture ← printWorld world;
      let out := out ++ populationLine chronon counts.1 counts.2 ++ picture in
      if decide (counts.1 = 0 /\ counts.2 = 0) then
        mret (out ++ text "All life extinct!" ++ [newline])
      else simulate n' (GoInt.add chronon 1) world params out
  end.

(** [main]: the random stream of the memory it starts in is the one that
    [rand.Seed] selects.  The result is the text written and whether
    [initializeWorld] has returned within the fuel. *)
Definition main (fuel : nat) : M (bool * list ascii) :=
  let out := text "Wa-Tor Simulation:" ++ [newline] in
  world ← createWorld (GridSize mainParams);
  ok ← initializeWorld fuel world mainParams;
  if (ok : bool) then
    out ← simulate (Z.to_nat 10000) 0 world mainParams out;
    mret (true, out)
  else mret (false, out).

(** * Specification vocabulary *)

Definition inGrid (S : Z) (d : Pos) : Prop := 0 <= d.1 < S /\ 0 <= d.2 < S.

Definition dims (G : GridT) (S : Z) : Prop :=
  length G = Z.to_nat S /\ Forall (λ row, length row = Z.to_nat S) G.

(** The creatures a grid refers to, in scan order. *)
Definition ptrsOf (G : GridT) : list ptr := omap id (concat G).

Definition withCreatures (h : list Creature) (m : Mem) : Mem :=
  mkMem h (worlds m) (rng m).
Definition withWorlds (ws : list World) (m : Mem) : Mem :=
  mkMem (creatures m) ws (rng m).
Definition withRng (r : list Z) (m : Mem) : Mem :=
  mkMem (creatures m) (worlds m) r.

(** What an operation that puts a creature into a free cell must do; the
    assignment of the source and the failing [set] both do. *)
Definition put_ok (put : nat -> Z -> Z -> nat -> M unit) : Prop :=
  forall w x y p m W G',
    worlds m !! w = Some W ->
    gridGet (Grid W) x y = Some None ->
    gridSet (Grid W) x y (Some p) = Some G' ->
    put w x y p m = Some (tt, withWorlds (<[w := setGrid G' W]> (worlds m)) m).

(** The memory a cell of the scan ends in: the creatures [h'], the grid
    [G'] in the new world [nw] at [n], the random numbers [r']. *)
Definition afterStep (n : nat) (nw : World) (m : Mem) (h' : list Creature)
    (G' : list (list (option nat))) (r' : list Z) : Mem :=
  mkMem h' (<[n := setGrid G' nw]> (worlds m)) r'.

(** The heap after the creature [p] has been given the record [c']:
    every other cell of [h] is as it was. *)
Definition touches (p : nat) (c' : Creature) (h h1 : list Creature) : Prop :=
  (length h <= length h1)%nat /\ h1 !! p = Some c' /\
  forall r, r <> p -> (r < length h)%nat -> h1 !! r = h !! r.

(** The two candidate tests as functions of the grids and the heap. *)
Definition emptyAt (Gold Gnew : list (list (option nat))) (d : Z * Z) : bool :=
  match gridGet Gold d.1 d.2 with
  | Some None => bool_decide (gridGet Gnew d.1 d.2 = Some None)
  | _ => false
  end.

Definition fishAt (h : list Creature) (Gold Gnew : list (list (option nat)))
    (d : Z * Z) : bool :=
  match gridGet Gold d.1 d.2 with
  | Some (Some f) =>
      match h !! f with
      | Some c =>
          if decide (species c = Fish)
          then bool_decide (gridGet Gnew d.1 d.2 = Some None)
          else false
      | None => false
      end
  | _ => false
  end.

(** ** One cell of the scan, as a relation

    What [scanCell] does to the creature heap [h] and to the grid [G] under
    construction when it visits the cell [(x, y)] of the old grid [Gold]. *)

Section CellStep.

Variables (Gold : list (list (option nat))) (S FB SB ST : Z) (x y : Z).

(** [creature.Age++; creature.LastBreed++] *)
Definition aged (c : Creature) : Creature :=
  mkCreature (species c) (GoInt.add (Age c) 1) (Energy c)
             (GoInt.add (LastBreed c) 1).

Definition threshold (sp : Species) : Z :=
  match sp with Fish => FB | _ => SB end.

Definition childOf (sp : Species) : Creature :=
  mkCreature sp 0 (match sp with Shark => ST | _ => 0 end) 0.

(** The cell a creature, whose record is [c'] once it is placed, is put
    into: a neighbour that holds a fish in the old grid and is free in
    the new one, for a shark that has one; otherwise a neighbour empty in
    both grids; its own cell when it has neither. *)
Inductive Legal (h : list Creature) (G : list (list (option nat)))
    (c' : Creature) (d : Z * Z) : Prop :=
| legal_stay :
    d = (x, y) -> gridGet G x y = Some None ->
    (forall e, e ∈ neighbors_spec x y S -> emptyAt Gold G e = false) ->
    (species c' = Shark ->
     forall e, e ∈ neighbors_spec x y S -> fishAt h Gold G e = false) ->
    Legal h G c' d
| legal_empty :
    d ∈ neighbors_spec x y S ->
    gridGet Gold d.1 d.2 = Some None ->
    gridGet G d.1 d.2 = Some None ->
    (species c' = Shark ->
     forall e, e ∈ neighbors_spec x y S -> fishAt h Gold G e = false) ->
    Legal h G c' d
| legal_prey f cf :
    d ∈ neighbors_spec x y S ->
    gridGet Gold d.1 d.2 = Some (Some f) ->
    h !! f = Some cf -> species cf = Fish ->
    gridGet G d.1 d.2 = Some None ->
    species c' = Shark -> Energy c' = ST -> Legal h G c' d.

(** The record [c'] of a creature that is put into the new grid, from its
    record [c] in the old one. *)
Definition Alive (c c' : Creature) : Prop :=
  species c' = species c /\ Age c' = GoInt.add (Age c) 1 /\
  ((species c = Fish /\ Energy c' = Energy c) \/
   (species c = Shark /\ 0 < GoInt.sub (Energy c) 1 /\
    (Energy c' = GoInt.sub (Energy c) 1 \/ Energy c' = ST))).

Inductive CellStep (h : list Creature) (G : list (list (option nat))) :
    list Creature -> list (list (option nat)) -> Prop :=
| step_nil :
    gridGet Gold x y = Some None -> CellStep h G h G
| step_skip f q :
    gridGet Gold x y = Some (Some f) -> gridGet G x y = Some (Some q) ->
    CellStep h G h G
| step_drop p c c' :
    gridGet Gold x y = Some (Some p) -> gridGet G x y = Some None ->
    h !! p = Some c ->
    species c' = species c -> Age c' = GoInt.add (Age c) 1 ->
    (species c = Empty \/
     (species c = Shark /\ Energy c' = GoInt.sub (Energy c) 1 /\ Energy c' <= 0)) ->
    CellStep h G (<[p := c']> h) G
| step_put p c c' d G' :
    gridGet Gold x y = Some (Some p) -> gridGet G x y = Some None ->
    h !! p = Some c ->
    Alive c c' -> LastBreed c' = GoInt.add (LastBreed c) 1 ->
    Legal h G c' d ->
    (d <> (x, y) -> LastBreed c' < threshold (species c)) ->
    gridSet G d.1 d.2 (Some p) = Some G' ->
    CellStep h G (<[p := c']> h) G'
| step_breed p c c' d G1 G' :
    gridGet Gold x y = Some (Some p) -> gridGet G x y = Some None ->
    h !! p = Some c ->
    Alive c c' -> LastBreed c' = 0 ->
    threshold (species c) <= GoInt.add (LastBreed c) 1 ->
    Legal h G c' d -> d <> (x, y) ->
    gridSet G x y (Some (length h)) = Some G1 ->
    gridSet G1 d.1 d.2 (Some p) = Some G' ->
    CellStep h G (<[p := c']> h ++ [childOf (species c)]) G'.

End CellStep.

(** ** The invariant of the scan

    [Gold] is the grid being read, [h0] the creature heap when the chronon
    starts, [done] the set of cells already visited, [h] and [G] the heap
    and the new grid at that point. *)

Section Invariant.

Variables (Gold : list (list (option nat))) (S FB SB ST : Z)
          (h0 : list Creature).

(** How the creature [p] found in cell [d] of the new grid got there:
    it is a creature of the old grid that stayed or moved, or it is the
    child left behind by the creature that lived in [d]. *)
Inductive Placed (done : Z * Z -> Prop) (h : list Creature)
    (G : list (list (option nat))) (d : Z * Z) (p : nat) : Prop :=
| placed_old src c0 c :
    gridGet Gold src.1 src.2 = Some (Some p) -> done src ->
    h0 !! p = Some c0 -> h !! p = Some c ->
    Alive ST c0 c ->
    (d = src \/
     (d ∈ neighbors_spec src.1 src.2 S /\
      (gridGet Gold d.1 d.2 = Some None \/
       (exists f cf, gridGet Gold d.1 d.2 = Some (Some f) /\
          h0 !! f = Some cf /\ species cf = Fish /\
          species c0 = Shark /\ Energy c = ST)))) ->
    Placed done h G d p
| placed_child q cq0 cq dq :
    (length h0 <= p)%nat -> done d ->
    gridGet Gold d.1 d.2 = Some (Some q) ->
    h0 !! q = Some cq0 -> h !! q = Some cq ->
    Alive ST cq0 cq -> LastBreed cq = 0 ->
    threshold FB SB (species cq0) <= GoInt.add (LastBreed cq0) 1 ->
    h !! p = Some (childOf ST (species cq0)) ->
    gridGet G dq.1 dq.2 = Some (Some q) ->
    dq ∈ neighbors_spec d.1 d.2 S ->
    (gridGet Gold dq.1 dq.2 = Some None \/
     (species cq0 = Shark /\
      exists f cf, gridGet Gold dq.1 dq.2 = Some (Some f) /\
        h0 !! f = Some cf /\ species cf = Fish)) ->
    Placed done h G d p.

Record Inv (done : Z * Z -> Prop) (h : list Creature)
    (G : list (list (option nat))) : Prop := mkInv {
  inv_len : (length h0 <= length h)%nat;
  inv_species : forall p c0, h0 !! p = Some c0 ->
    exists c, h !! p = Some c /\ species c = species c0;
  inv_todo : forall d p, ~ done d ->
    gridGet Gold d.1 d.2 = Some (Some p) -> h !! p = h0 !! p;
  inv_frame : forall p, (p < length h0)%nat -> p ∉ ptrsOf Gold ->
    h !! p = h0 !! p;
  inv_dims : dims G S;
  inv_nodup : NoDup (ptrsOf G);
  inv_placed : forall d p, gridGet G d.1 d.2 = Some (Some p) ->
    Placed done h G d p;
  inv_sharks : forall src p c0, done src ->
    gridGet Gold src.1 src.2 = Some (Some p) -> h0 !! p = Some c0 ->
    species c0 = Shark ->
    exists c, h !! p = Some c /\
      (Energy c = GoInt.sub (Energy c0) 1 \/
       (0 < GoInt.sub (Energy c0) 1 /\ Energy c = ST))
}.

End Invariant.

(** ** The state of a chronon *)

(** The cells of a grid of size [S] that the two loops have left behind
    when they reach column [x], row [y]. *)
Definition before (S x y : Z) (d : Z * Z) : Prop :=
  inGrid S d /\ (d.1 < x \/ (d.1 = x /\ d.2 < y)).

(** The memory in the middle of [processChronon oldWorld]: [o] is the old
    world, [n] the new one, [ws0] the worlds when the scan starts and [h0]
    the creatures then. *)
Record ScanInv (o n : nat) (ow : World) (h0 : list Creature)
    (ws0 : list World) (done : Z * Z -> Prop) (m : Mem) : Prop := mkScanInv {
  scan_old : worlds m !! o = Some ow;
  scan_frame : forall w, w <> n -> worlds m !! w = ws0 !! w;
  scan_len : length (worlds m) = length ws0;
  scan_new : exists nw,
    worlds m !! n = Some nw /\
    Size nw = Size ow /\ FishBreed nw = FishBreed ow /\
    SharkBreed nw = SharkBreed ow /\ Starve nw = Starve ow /\
    Inv (Grid ow) (Size ow) (FishBreed ow) (SharkBreed ow) (Starve ow) h0
        done (creatures m) (Grid nw)
}.

(** The world [createWorld] and the three assignments that follow it in
    [processChronon] make for the old world [ow]. *)
Definition freshWorld (ow : World) : World :=
  mkWorld (replicate (Z.to_nat (Size ow)) (replicate (Z.to_nat (Size ow)) None))
          (Size ow) (FishBreed ow) (SharkBreed ow) (Starve ow).

(** The memory when the scan starts. *)
Definition scanStart (m : Mem) (ow : World) : Mem :=
  mkMem (creatures m) (worlds m ++ [freshWorld ow]) (rng m).

(** A world the engine can be run on: a square grid of the size the world
    records, no larger than [max_size], whose cells refer to creatures that
    exist, no creature twice. *)
Record WellFormed (m : Mem) (o : nat) (ow : World) : Prop := mkWellFormed {
  wf_world : worlds m !! o = Some ow;
  wf_size : 0 <= Size ow <= max_size;
  wf_dims : dims (Grid ow) (Size ow);
  wf_nodup : NoDup (ptrsOf (Grid ow));
  wf_valid : forall q, q ∈ ptrsOf (Grid ow) -> (q < length (creatures m))%nat
}.

(** The part of the scan that precedes the cell [(x, y)], and the part that
    follows it. *)
Definition scanUpTo (put : nat -> Z -> Z -> nat -> M unit)
    (oldWorld newWorld : nat) (size x y : Z) : M unit :=
  forRange x (λ x', forRange size (λ y', scanCell put oldWorld newWorld x' y'));;
  forRange y (λ y', scanCell put oldWorld newWorld x y').

Definition scanAfter (put : nat -> Z -> Z -> nat -> M unit)
    (oldWorld newWorld : nat) (size x y : Z) : M unit :=
  forFrom (Z.to_nat (size - y - 1)) (y + 1)
          (λ y', scanCell put oldWorld newWorld x y');;
  forFrom (Z.to_nat (size - x - 1)) (x + 1)
          (λ x', forRange size (λ y', scanCell put oldWorld newWorld x' y')).

(** ** Census *)

Definition speciesAt (h : list Creature) (p : nat) : option Species :=
  species <$> h !! p.

(** The number of creatures of species [sp] that the grid [G] refers to. *)
Definition countSpecies (h : list Creature) (G : list (list (option nat)))
    (sp : Species) : nat :=
  length (filter (λ p, speciesAt h p = Some sp) (ptrsOf G)).

(** The cells of a grid of size [S], in scan order. *)
Definition allCells (S : Z) : list (Z * Z) :=
  x ← seqZ 0 S; (λ y, (x, y)) <$> seqZ 0 S.

(** A cell of the old grid that a creature of species [sp] can move to:
    an empty one, or for a shark one that holds a fish. *)
Definition canGo (h0 : list Creature) (Gold : list (list (option nat)))
    (sp : Species) (d : Z * Z) : bool :=
  match gridGet Gold d.1 d.2 with
  | Some None => true
  | Some (Some f) =>
      match sp, h0 !! f with
      | Shark, Some cf => bool_decide (species cf = Fish)
      | _, _ => false
      end
  | None => false
  end.

(** The cell [d] of the old grid holds a creature of species [sp] whose
    breed timer, read by [timer], has reached the threshold of the species
    and that has a neighbouring cell to move to. *)
Definition breeder (timer : Creature -> Z) (S FB SB : Z) (h0 : list Creature)
    (Gold : list (list (option nat))) (sp : Species) (d : Z * Z) : bool :=
  match gridGet Gold d.1 d.2 with
  | Some (Some q) =>
      match h0 !! q with
      | Some c =>
          bool_decide (species c = sp) &&
          bool_decide (threshold FB SB sp <= timer c) &&
          existsb (canGo h0 Gold sp) (neighbors_spec d.1 d.2 S)
      | None => false
      end
  | _ => false
  end.

Definition breeders (timer : Creature -> Z) (S FB SB : Z) (h0 : list Creature)
    (Gold : list (list (option nat))) (sp : Species) : list (Z * Z) :=
  List.filter (breeder timer S FB SB h0 Gold sp) (allCells S).

(** The timer as the engine compares it with the threshold: after the
    increment of the chronon. *)
Definition timerAfter (c : Creature) : Z := GoInt.add (LastBreed c) 1.

(** What one chronon leaves behind: the memory [m'] and the new world
    [nw], from the memory [m] and the old world [ow] at [o]. *)
Record ChrononResult (m : Mem) (o : nat) (ow : World) (m' : Mem)
    (nw : World) : Prop := mkChrononResult {
  cr_new : worlds m' !! length (worlds m) = Some nw;
  cr_old : worlds m' !! o = Some ow;
  cr_frame : forall w, (w < length (worlds m))%nat ->
    worlds m' !! w = worlds m !! w;
  cr_size : Size nw = Size ow;
  cr_fish : FishBreed nw = FishBreed ow;
  cr_shark : SharkBreed nw = SharkBreed ow;
  cr_starve : Starve nw = Starve ow;
  cr_inv : Inv (Grid ow) (Size ow) (FishBreed ow) (SharkBreed ow) (Starve ow)
               (creatures m) (inGrid (Size ow)) (creatures m') (Grid nw)
}.

(** ** Sample worlds *)

(** A world to try the theorems on: 2x2, a shark at (0,0) and a fish at
    (1,0). *)
Definition sampleWorld : World :=
  mkWorld [[Some 0%nat; None]; [Some 1%nat; None]] 2 3 10 5.

Definition sampleMem : Mem :=
  mkMem [mkCreature Shark 0 5 0; mkCreature Fish 0 0 0] [sampleWorld] [].

(** A fish alone in the middle of a 3x3 grid, its breed timer and the
    threshold at 0. *)
Definition loneFishWorld (sb st : Z) : World :=
  mkWorld [[None; None; None]; [None; Some 0%nat; None]; [None; None; None]]
          3 0 sb st.

Definition loneFishMem (age energy sb st : Z) (rs : list Z) : Mem :=
  mkMem [mkCreature Fish age energy 0] [loneFishWorld sb st] rs.

(** The same grid with a fish whose timer is one short of the threshold. *)
Definition timerWorld : World :=
  mkWorld [[None; None; None]; [None; Some 0%nat; None]; [None; None; None]]
          3 3 10 5.

Definition timerMem : Mem := mkMem [mkCreature Fish 0 0 2] [timerWorld] [].

(** A shark at (0,0) and a fish at (1,0) on a 2x2 grid, the starvation
    threshold 5. *)
Definition mealWorld (fb sb : Z) : World :=
  mkWorld [[Some 0%nat; None]; [Some 1%nat; None]] 2 fb sb 5.

Definition mealMem (shark fish : Creature) (fb sb : Z) (rs : list Z) : Mem :=
  mkMem [shark; fish] [mealWorld fb sb] rs.

(** The input on which the code departs from C5: a 3x3 world with a fish
    at (0,0) and a shark of energy 3 at (1,0), the threshold of starvation
    5, [rand.Intn] returning 0. *)
Definition escapeWorld : World :=
  mkWorld [[Some 0%nat; None; None]; [Some 1%nat; None; None]; [None; None; None]]
          3 3 10 5.

Definition escapeMem : Mem :=
  mkMem [mkCreature Fish 0 0 0; mkCreature Shark 0 3 0] [escapeWorld] [].

(** * Vocabulary for the rest of the program *)

(** The creature that the cell [d] of a grid refers to. *)
Definition cellAt (G : GridT) (d : Pos) : option ptr :=
  mjoin (gridGet G d.1 d.2).

(** The species of the creature in the cell [d]. *)
Definition cellSpecies (h : list Creature) (G : GridT) (d : Pos)
    : option Species :=
  p ← cellAt G d; speciesAt h p.

#[global] Instance inGrid_dec S d : Decision (inGrid S d).
Proof. unfold inGrid. apply _. Defined.

#[global] Instance before_dec S x y d : Decision (before S x y d).
Proof. unfold before. apply _. Defined.

(** The local variables [fish] and [sharks] of [countPopulation] when the
    cells [D] of the grid [G], of size [S], have been visited: a creature
    that is no fish is counted as a shark. *)
Definition countersAt (h : list Creature) (G : GridT) (S : Z)
    (D : Pos -> Prop) `{forall d, Decision (D d)} : Z * Z :=
  (GoInt.wrap (Z.of_nat (length
     (filter (λ d, cellSpecies h G d = Some Fish /\ D d) (allCells S)))),
   GoInt.wrap (Z.of_nat (length
     (filter (λ d, (cellSpecies h G d = Some Shark \/
                    cellSpecies h G d = Some Empty) /\ D d) (allCells S))))).

(** ** The picture of a world *)

(** The character [printWorld] writes for the cell [d]. *)
Definition mark (h : list Creature) (G : GridT) (d : Pos) : ascii :=
  match cellSpecies h G d with
  | None => "."%char
  | Some Fish => "F"%char
  | Some _ => "S"%char
  end.

Definition space : ascii := " "%char.

(** The line [y] of the picture, and the picture. *)
Definition pictureRow (h : list Creature) (G : GridT) (S y : Z) : list ascii :=
  (seqZ 0 S ≫= (λ x, [mark h G (x, y); space])) ++ [newline].

Definition picture (h : list Creature) (G : GridT) (S : Z) : list ascii :=
  (seqZ 0 S ≫= pictureRow h G S) ++ [newline].

(** The number of occurrences of a character in a text. *)
Definition occurrences (c : ascii) (out : list ascii) : nat :=
  length (filter (λ a, a = c) out).

(** The cells of a grid of size [S] in the order of the picture. *)
Definition pictureCells (S : Z) : list Pos :=
  y ← seqZ 0 S; (λ x, (x, y)) <$> seqZ 0 S.

(** ** Populating a world *)

(** The memory [m'] and the world [W'] after [n] creatures with the record
    [c] have been put into free cells of the world [W], at [w] in the
    memory [m]. *)
Record Populated (w : nat) (c : Creature) (n : nat) (m : Mem) (W : World)
    (m' : Mem) (W' : World) : Prop := mkPopulated {
  pop_creatures : creatures m' = creatures m ++ replicate n c;
  pop_worlds : worlds m' = <[w := W']> (worlds m);
  pop_size : Size W' = Size W;
  pop_fish : FishBreed W' = FishBreed W;
  pop_shark : SharkBreed W' = SharkBreed W;
  pop_starve : Starve W' = Starve W;
  pop_dims : dims (Grid W') (Size W);
  pop_ptrs : ptrsOf (Grid W') ≡ₚ ptrsOf (Grid W) ++ seq (length (creatures m)) n;
  pop_keep : forall x y p,
    gridGet (Grid W) x y = Some (Some p) -> gridGet (Grid W') x y = Some (Some p);
  pop_new : forall x y p,
    gridGet (Grid W') x y = Some (Some p) ->
    gridGet (Grid W) x y = Some (Some p) \/
    (gridGet (Grid W) x y = Some None /\
     (length (creatures m) <= p < length (creatures m) + n)%nat)
}.

(** The records of the creatures that [initializeWorld] makes. *)
Definition newShark (params : Params) : Creature :=
  mkCreature Shark 0 (pStarve params) 0.

Definition newFish : Creature := mkCreature Fish 0 0 0.

(** A world to populate: an empty 2x2 grid, and a random stream that
    names the cells (0,0) and (1,1). *)
Definition emptyWorld : World := mkWorld [[None; None]; [None; None]] 2 0 0 0.

Definition emptyMem : Mem := mkMem [] [emptyWorld] [0; 0; 1; 1].

(** The random numbers that name the cells [cells], two for each. *)
Definition draws (cells : list Pos) : list Z := d ← cells; [d.1; d.2].

(** The world that [createWorld size] allocates. *)
Definition blankWorld (size : Z) : World :=
  mkWorld (replicate (Z.to_nat size) (replicate (Z.to_nat size) None)) size 0 0 0.

(** ** The history of a scan *)

(** The heap [h] and the new grid [G] that the scan of the old grid [Gold]
    has made when it has visited the cells [done], one [CellStep] for each
    of them, from the heap [h0] and the grid [G0]. *)
Inductive Reach (Gold : GridT) (S FB SB ST : Z) (h0 : list Creature)
    (G0 : GridT) : (Pos -> Prop) -> list Creature -> GridT -> Prop :=
| reach_start (done : Pos -> Prop) :
    (forall d, ~ done d) -> Reach Gold S FB SB ST h0 G0 done h0 G0
| reach_step (done done' : Pos -> Prop) h G x y h' G' :
    Reach Gold S FB SB ST h0 G0 done h G ->
    ~ done (x, y) -> inGrid S (x, y) ->
    CellStep Gold S FB SB ST x y h G h' G' ->
    (forall d, done' d <-> done d \/ d = (x, y)) ->
    Reach Gold S FB SB ST h0 G0 done' h' G'.

(** What has become of the creature [p], with the record [c0], that the
    cell [src] of the old grid holds, when the scan has visited the cell:
    it is in the new grid; or it is a shark that has starved; or its
    species is none of the two; or it is a fish whose cell a shark of the
    old grid has taken, and its record is as it was. *)
Definition Fate (Gold : GridT) (h0 h : list Creature) (G : GridT)
    (src : Pos) (p : nat) (c0 : Creature) : Prop :=
  p ∈ ptrsOf G \/
  (species c0 = Shark /\ GoInt.sub (Energy c0) 1 <= 0) \/
  species c0 = Empty \/
  (species c0 = Fish /\ h !! p = Some c0 /\
   exists q cq, gridGet G src.1 src.2 = Some (Some q) /\ q <> p /\
                q ∈ ptrsOf Gold /\ h0 !! q = Some cq /\ species cq = Shark).

(** The breed timer of a creature of the old grid found in the cell [d] of
    the new grid: it has been incremented, and then the creature has not
    moved or the timer is below the threshold of its species; or it has
    been reset, the timer had reached the threshold and the creature has
    left a new creature in the cell it has moved from. *)
Definition Timer (Gold : GridT) (FB SB : Z) (h0 h : list Creature) (G : GridT)
    (d : Pos) (p : nat) : Prop :=
  exists c0 c,
    h0 !! p = Some c0 /\ h !! p = Some c /\
    ((LastBreed c = GoInt.add (LastBreed c0) 1 /\
      (gridGet Gold d.1 d.2 = Some (Some p) \/
       LastBreed c < threshold FB SB (species c0))) \/
     (LastBreed c = 0 /\
      threshold FB SB (species c0) <= GoInt.add (LastBreed c0) 1 /\
      exists src k, gridGet Gold src.1 src.2 = Some (Some p) /\ d <> src /\
                    gridGet G src.1 src.2 = Some (Some k) /\
                    (length h0 <= k)%nat)).

(** * Proofs *)

(** ** Go integers *)

Lemma wrap_small z : GoInt.in_range z -> GoInt.wrap z = z.
Proof.
  unfold GoInt.in_range, GoInt.min_int, GoInt.max_int, GoInt.wrap. intros Hz.
  rewrite Z.mod_small; lia.
Qed.

Lemma wrap_in_range z : GoInt.in_range (GoInt.wrap z).
Proof.
  unfold GoInt.in_range, GoInt.min_int, GoInt.max_int, GoInt.wrap.
  pose proof (Z.mod_pos_bound (z + 2 ^ 63) (2 ^ 64)). lia.
Qed.

Ltac int_range := unfold GoInt.in_range, GoInt.min_int, GoInt.max_int, max_size in *; lia.

(** ** The adjacency resolver *)

Lemma west_coord x size :
  1 <= size <= max_size -> 0 <= x < size ->
  GoInt.rem (GoInt.add (GoInt.sub x 1) size) size = Some ((x - 1 + size) mod size).
Proof.
  intros Hs Hx. unfold GoInt.rem, GoInt.add, GoInt.sub.
  rewrite decide_False by lia.
  rewrite (wrap_small (x - 1)) by int_range.
  rewrite wrap_small by int_range.
  rewrite Z.rem_mod_nonneg by lia. reflexivity.
Qed.

Lemma east_coord x size :
  1 <= size <= max_size -> 0 <= x < size ->
  GoInt.rem (GoInt.add x 1) size = Some ((x + 1) mod size).
Proof.
  intros Hs Hx. unfold GoInt.rem, GoInt.add.
  rewrite decide_False by lia.
  rewrite wrap_small by int_range.
  rewrite Z.rem_mod_nonneg by lia. reflexivity.
Qed.

Lemma getAdjacentPositions_spec x y size :
  1 <= size <= max_size -> 0 <= x < size -> 0 <= y < size ->
  getAdjacentPositions x y size = Some (neighbors_spec x y size).
Proof.
  intros Hs Hx Hy. unfold getAdjacentPositions, neighbors_spec.
  rewrite !west_coord, !east_coord by assumption. reflexivity.
Qed.

Lemma neighbors_inGrid x y size d :
  1 <= size -> 0 <= x < size -> 0 <= y < size ->
  d ∈ neighbors_spec x y size -> inGrid size d.
Proof.
  intros Hs Hx Hy Hd. unfold neighbors_spec in Hd.
  pose proof (Z.mod_pos_bound (x - 1 + size) size).
  pose proof (Z.mod_pos_bound (x + 1) size).
  pose proof (Z.mod_pos_bound (y - 1 + size) size).
  pose proof (Z.mod_pos_bound (y + 1) size).
  unfold inGrid.
  repeat (apply elem_of_cons in Hd as [-> | Hd]); simpl; try lia.
  inversion Hd.
Qed.

(** ** Slices and grids *)

Lemma index_Some {A : Type} (l : list A) (i : Z) (a : A) :
  index l i = Some a <-> 0 <= i /\ l !! Z.to_nat i = Some a.
Proof.
  unfold index. destruct (decide (0 <= i)); split; intros H;
    try tauto; try discriminate; lia.
Qed.

Lemma index_lt {A : Type} (l : list A) (i : Z) :
  0 <= i < Z.of_nat (length l) -> is_Some (index l i).
Proof.
  intros Hi. unfold index. rewrite decide_True by lia.
  apply lookup_lt_is_Some. lia.
Qed.

Lemma gridGet_Some G x y v :
  gridGet G x y = Some v <->
  exists row, 0 <= x /\ 0 <= y /\ G !! Z.to_nat x = Some row /\ row !! Z.to_nat y = Some v.
Proof.
  unfold gridGet. split.
  - intros H. destruct (index G x) as [row|] eqn:Hr; simpl in H; [|discriminate].
    apply index_Some in Hr as [? ?]. apply index_Some in H as [? ?]. eauto 6.
  - intros (row & Hx & Hy & Hr & Hv).
    assert (index G x = Some row) as -> by (apply index_Some; auto).
    simpl. apply index_Some; auto.
Qed.

Lemma gridGet_inGrid G S x y v :
  dims G S -> gridGet G x y = Some v -> inGrid S (x, y).
Proof.
  intros [Hl Hrows] (row & Hx & Hy & Hr & Hv)%gridGet_Some.
  pose proof (lookup_lt_Some _ _ _ Hr) as Hlt.
  pose proof (lookup_lt_Some _ _ _ Hv) as Hlt'.
  rewrite Forall_lookup in Hrows. specialize (Hrows _ _ Hr). simpl in Hrows.
  unfold inGrid; simpl. lia.
Qed.

Lemma gridGet_is_Some G S x y :
  dims G S -> inGrid S (x, y) -> is_Some (gridGet G x y).
Proof.
  intros [Hl Hrows] [Hx Hy]. simpl in *.
  destruct (lookup_lt_is_Some_2 G (Z.to_nat x)) as [row Hr]; [lia|].
  rewrite Forall_lookup in Hrows. pose proof (Hrows _ _ Hr) as Hlen. simpl in Hlen.
  destruct (lookup_lt_is_Some_2 row (Z.to_nat y)) as [v Hv]; [lia|].
  exists v. apply gridGet_Some. exists row. repeat split; auto; lia.
Qed.

Lemma gridSet_Some G x y v G' :
  gridSet G x y v = Some G' <->
  exists row old, 0 <= x /\ 0 <= y /\ G !! Z.to_nat x = Some row /\
    row !! Z.to_nat y = Some old /\
    G' = <[Z.to_nat x := <[Z.to_nat y := v]> row]> G.
Proof.
  unfold gridSet. split.
  - intros H. destruct (index G x) as [row|] eqn:Hr; simpl in H; [|discriminate].
    destruct (index row y) as [old|] eqn:Ho; simpl in H; [|discriminate].
    apply index_Some in Hr as [? ?]. apply index_Some in Ho as [? ?].
    inversion H; subst. eauto 10.
  - intros (row & old & Hx & Hy & Hr & Ho & ->).
    assert (index G x = Some row) as -> by (apply index_Some; auto). simpl.
    assert (index row y = Some old) as -> by (apply index_Some; auto).
    reflexivity.
Qed.

Lemma gridSet_is_Some G x y v :
  is_Some (gridGet G x y) -> is_Some (gridSet G x y v).
Proof.
  intros [old (row & ? & ? & ? & ?)%gridGet_Some].
  eexists. apply gridSet_Some. eauto 10.
Qed.

Lemma dims_gridSet G S x y v G' :
  dims G S -> gridSet G x y v = Some G' -> dims G' S.
Proof.
  intros [Hl Hrows] (row & old & Hx & Hy & Hr & Ho & ->)%gridSet_Some.
  split.
  - rewrite length_insert. exact Hl.
  - apply Forall_insert; [exact Hrows|]. cbv beta.
    rewrite length_insert. rewrite Forall_lookup in Hrows. exact (Hrows _ _ Hr).
Qed.

Lemma gridGet_gridSet_eq G x y v G' :
  gridSet G x y v = Some G' -> gridGet G' x y = Some v.
Proof.
  intros (row & old & Hx & Hy & Hr & Ho & ->)%gridSet_Some.
  apply gridGet_Some. exists (<[Z.to_nat y := v]> row). repeat split; auto.
  - apply list_lookup_insert_eq. eapply lookup_lt_Some; eauto.
  - apply list_lookup_insert_eq. eapply lookup_lt_Some; eauto.
Qed.

Lemma gridGet_gridSet_ne G x y v G' x' y' :
  gridSet G x y v = Some G' -> (x', y') <> (x, y) ->
  gridGet G' x' y' = gridGet G x' y'.
Proof.
  intros (row & old & Hx & Hy & Hr & Ho & ->)%gridSet_Some Hne.
  unfold gridGet, index.
  destruct (decide (0 <= x')) as [Hx'|]; [|reflexivity].
  destruct (decide (Z.to_nat x' = Z.to_nat x)) as [Heq|Hneq].
  - assert (x' = x) as -> by lia. rewrite Hr.
    rewrite list_lookup_insert_eq by (eapply lookup_lt_Some; eauto). simpl.
    destruct (decide (0 <= y')) as [Hy'|]; [|reflexivity].
    apply list_lookup_insert_ne. intros Heq'. apply Hne. f_equal. lia.
  - rewrite list_lookup_insert_ne by auto. reflexivity.
Qed.

Lemma ptrsOf_row_update (row : list (option nat)) j v v' :
  row !! j = Some v ->
  omap id (<[j := v']> row) ++ option_list v ≡ₚ omap id row ++ option_list v'.
Proof.
  intros Hj.
  rewrite <- (take_drop_middle row j v Hj) at 2.
  rewrite insert_take_drop by (eapply lookup_lt_Some; eauto).
  rewrite !omap_app.
  set (A := omap id (take j row)). set (B := omap id (drop (S j) row)).
  assert (forall c : option nat, omap id (c :: drop (S j) row) = option_list c ++ B) as Hc
    by (intros [q|]; reflexivity).
  rewrite !Hc. clear Hc.
  rewrite <- !app_assoc. apply Permutation_app_head.
  rewrite (Permutation_app_comm (option_list v') (B ++ option_list v)).
  rewrite (Permutation_app_comm (option_list v) (B ++ option_list v')).
  rewrite <- !app_assoc. apply Permutation_app_head.
  apply Permutation_app_comm.
Qed.

Lemma ptrsOf_gridSet G x y v v' G' :
  gridGet G x y = Some v -> gridSet G x y v' = Some G' ->
  ptrsOf G' ++ option_list v ≡ₚ ptrsOf G ++ option_list v'.
Proof.
  intros (row & Hx & Hy & Hr & Hv)%gridGet_Some
         (row' & old & _ & _ & Hr' & Ho & ->)%gridSet_Some.
  rewrite Hr in Hr'. inversion Hr'; subst row'. clear Hr' Ho.
  unfold ptrsOf.
  rewrite <- (take_drop_middle G _ row Hr) at 2.
  rewrite insert_take_drop by (eapply lookup_lt_Some; eauto).
  rewrite !concat_app, !concat_cons, !omap_app.
  pose proof (ptrsOf_row_update row (Z.to_nat y) v v' Hv) as Hrow.
  set (A := omap id (concat (take (Z.to_nat x) G))) in *.
  set (B := omap id (concat (drop (S (Z.to_nat x)) G))) in *.
  rewrite <- !app_assoc. apply Permutation_app_head.
  rewrite (Permutation_app_comm B (option_list v)).
  rewrite (Permutation_app_comm B (option_list v')).
  rewrite !app_assoc. apply Permutation_app_tail. exact Hrow.
Qed.

Lemma ptrsOf_place G x y p G' :
  gridGet G x y = Some None -> gridSet G x y (Some p) = Some G' ->
  ptrsOf G' ≡ₚ p :: ptrsOf G.
Proof.
  intros Hg Hs. pose proof (ptrsOf_gridSet _ _ _ _ _ _ Hg Hs) as H.
  simpl in H. rewrite app_nil_r in H. rewrite H.
  symmetry. apply Permutation_cons_append.
Qed.

Lemma elem_of_ptrsOf G p :
  p ∈ ptrsOf G <-> exists x y, gridGet G x y = Some (Some p).
Proof.
  unfold ptrsOf. rewrite list_elem_of_omap. split.
  - intros (c & Hc & Hid). simpl in Hid. subst c.
    apply list_elem_of_In, in_concat in Hc as (row & Hrow & Hp).
    apply list_elem_of_In in Hrow, Hp.
    apply list_elem_of_lookup in Hrow as [i Hi].
    apply list_elem_of_lookup in Hp as [j Hj].
    exists (Z.of_nat i), (Z.of_nat j). apply gridGet_Some.
    exists row. rewrite !Nat2Z.id. repeat split; auto; lia.
  - intros (x & y & (row & Hx & Hy & Hr & Hv)%gridGet_Some).
    exists (Some p). split; [|reflexivity].
    apply list_elem_of_In, in_concat. exists row.
    split; apply list_elem_of_In; eapply list_elem_of_lookup_2; eauto.
Qed.

Lemma gridSet_restore G x y v :
  gridGet G x y = Some v ->
  exists G0, gridSet G x y None = Some G0 /\ gridSet G0 x y v = Some G.
Proof.
  intros Hg. pose proof Hg as (row & Hx & Hy & Hr & Hv)%gridGet_Some.
  exists (<[Z.to_nat x := <[Z.to_nat y := None]> row]> G). split.
  - apply gridSet_Some. eauto 10.
  - apply gridSet_Some. exists (<[Z.to_nat y := None]> row), None.
    repeat split; auto.
    + apply list_lookup_insert_eq. eapply lookup_lt_Some; eauto.
    + apply list_lookup_insert_eq. eapply lookup_lt_Some; eauto.
    + rewrite list_insert_insert_eq. rewrite list_insert_insert_eq.
      rewrite (list_insert_id row) by exact Hv.
      symmetry. apply list_insert_id. exact Hr.
Qed.

Lemma NoDup_ptrsOf_inj G x y x' y' p :
  NoDup (ptrsOf G) ->
  gridGet G x y = Some (Some p) -> gridGet G x' y' = Some (Some p) ->
  (x', y') = (x, y).
Proof.
  intros Hnd Hg Hg'.
  destruct (decide ((x', y') = (x, y))) as [|Hne]; [assumption|exfalso].
  destruct (gridSet_restore _ _ _ _ Hg) as (G0 & H0 & H1).
  assert (gridGet G0 x y = Some None) as Hn by (eapply gridGet_gridSet_eq; eauto).
  pose proof (ptrsOf_place _ _ _ _ _ Hn H1) as Hperm.
  rewrite Hperm in Hnd. apply NoDup_cons_1_1 in Hnd as Hnotin.
  apply Hnotin. apply elem_of_ptrsOf. exists x', y'.
  rewrite (gridGet_gridSet_ne _ _ _ _ _ _ _ H0 Hne). exact Hg'.
Qed.

(** ** Running the monad *)

Lemma run_bind {A B : Type} (c : M A) (f : A -> M B) m a m' :
  c m = Some (a, m') -> (c ≫= f) m = f a m'.
Proof. intros H. unfold mbind, M_bind. rewrite H. reflexivity. Qed.

Lemma run_ret {A : Type} (a : A) m : (mret a : M A) m = Some (a, m).
Proof. reflexivity. Qed.

Lemma run_liftOpt {A : Type} (o : option A) a m :
  o = Some a -> liftOpt o m = Some (a, m).
Proof. intros ->. reflexivity. Qed.

Lemma run_loadWorld w W m : worlds m !! w = Some W -> loadWorld w m = Some (W, m).
Proof. intros H. unfold loadWorld. rewrite H. reflexivity. Qed.

Lemma run_loadCreature p c m :
  creatures m !! p = Some c -> loadCreature p m = Some (c, m).
Proof. intros H. unfold loadCreature. rewrite H. reflexivity. Qed.

Lemma run_modifyCreature p f c m :
  creatures m !! p = Some c ->
  modifyCreature p f m = Some (tt, withCreatures (<[p := f c]> (creatures m)) m).
Proof.
  intros H. unfold modifyCreature.
  rewrite (run_bind _ _ _ _ _ (run_loadCreature _ _ _ H)).
  unfold storeCreature. rewrite decide_True by (eapply lookup_lt_Some; eauto).
  reflexivity.
Qed.

Lemma run_getCell w W x y v m :
  worlds m !! w = Some W -> gridGet (Grid W) x y = Some v ->
  getCell w x y m = Some (v, m).
Proof.
  intros HW Hg. unfold getCell.
  rewrite (run_bind _ _ _ _ _ (run_loadWorld _ _ _ HW)).
  apply run_liftOpt. exact Hg.
Qed.

Lemma run_setCell w W x y v G' m :
  worlds m !! w = Some W -> gridSet (Grid W) x y v = Some G' ->
  setCell w x y v m = Some (tt, withWorlds (<[w := setGrid G' W]> (worlds m)) m).
Proof.
  intros HW Hs. unfold setCell.
  rewrite (run_bind _ _ _ _ _ (run_loadWorld _ _ _ HW)).
  rewrite (run_bind _ _ _ _ _ (run_liftOpt _ _ _ Hs)).
  unfold storeWorld. rewrite decide_True by (eapply lookup_lt_Some; eauto).
  reflexivity.
Qed.

Lemma run_Intn n m :
  0 < n -> exists i r, 0 <= i < n /\ Intn n m = Some (i, withRng r m).
Proof.
  intros Hn. unfold Intn. rewrite decide_False by lia.
  destruct m as [h ws [|r rs]]; simpl.
  - exists 0, []. split; [lia|reflexivity].
  - exists (r mod n), rs. split; [apply Z.mod_pos_bound; lia|reflexivity].
Qed.

Lemma run_filterM {A : Type} (keep : A -> M bool) (f : A -> bool) l m :
  (forall a, a ∈ l -> keep a m = Some (f a, m)) ->
  filterM keep l m = Some (List.filter f l, m).
Proof.
  induction l as [|a l IH]; intros H; simpl.
  - reflexivity.
  - rewrite (run_bind _ _ _ _ _ (H a ltac:(left))).
    rewrite (run_bind _ _ _ _ _ (IH (λ b Hb, H b ltac:(right; exact Hb)))).
    reflexivity.
Qed.

Lemma place_ok : put_ok place.
Proof. intros w x y p m W G' HW _ Hs. unfold place. eapply run_setCell; eauto. Qed.

Lemma placeStrict_ok : put_ok placeStrict.
Proof.
  intros w x y p m W G' HW Hg Hs. unfold placeStrict.
  rewrite (run_bind _ _ _ _ _ (run_getCell _ _ _ _ _ _ HW Hg)).
  eapply run_setCell; eauto.
Qed.

Lemma run_isEmptyCell o n ow nw S m d :
  worlds m !! o = Some ow -> worlds m !! n = Some nw ->
  dims (Grid ow) S -> dims (Grid nw) S -> inGrid S d ->
  isEmptyCell o n d m = Some (emptyAt (Grid ow) (Grid nw) d, m).
Proof.
  intros Ho Hn Hdo Hdn Hd. destruct d as [a b].
  destruct (gridGet_is_Some _ _ _ _ Hdo Hd) as [vo Hvo].
  destruct (gridGet_is_Some _ _ _ _ Hdn Hd) as [vn Hvn].
  unfold isEmptyCell, emptyAt. simpl.
  rewrite (run_bind _ _ _ _ _ (run_getCell _ _ _ _ _ _ Ho Hvo)). rewrite Hvo.
  destruct vo as [f|]; [reflexivity|].
  rewrite (run_bind _ _ _ _ _ (run_getCell _ _ _ _ _ _ Hn Hvn)). rewrite Hvn.
  rewrite run_ret. do 2 f_equal.
  destruct vn; [rewrite !bool_decide_eq_false_2|rewrite !bool_decide_eq_true_2];
    congruence.
Qed.

Lemma run_isFishCell o n ow nw S m d :
  worlds m !! o = Some ow -> worlds m !! n = Some nw ->
  dims (Grid ow) S -> dims (Grid nw) S -> inGrid S d ->
  (forall p, p ∈ ptrsOf (Grid ow) -> is_Some (creatures m !! p)) ->
  isFishCell o n d m = Some (fishAt (creatures m) (Grid ow) (Grid nw) d, m).
Proof.
  intros Ho Hn Hdo Hdn Hd Hvalid. destruct d as [a b].
  destruct (gridGet_is_Some _ _ _ _ Hdo Hd) as [vo Hvo].
  destruct (gridGet_is_Some _ _ _ _ Hdn Hd) as [vn Hvn].
  unfold isFishCell, fishAt. simpl.
  rewrite (run_bind _ _ _ _ _ (run_getCell _ _ _ _ _ _ Ho Hvo)). rewrite Hvo.
  destruct vo as [f|]; [|reflexivity].
  destruct (Hvalid f) as [c Hc]; [apply elem_of_ptrsOf; eauto|].
  rewrite (run_bind _ _ _ _ _ (run_loadCreature _ _ _ Hc)). rewrite Hc.
  destruct (decide (species c = Fish)); [|reflexivity].
  rewrite (run_bind _ _ _ _ _ (run_getCell _ _ _ _ _ _ Hn Hvn)). rewrite Hvn.
  rewrite run_ret. do 2 f_equal.
  destruct vn; [rewrite !bool_decide_eq_false_2|rewrite !bool_decide_eq_true_2];
    congruence.
Qed.

Lemma run_modifyWorld w f W m :
  worlds m !! w = Some W ->
  modifyWorld w f m = Some (tt, withWorlds (<[w := f W]> (worlds m)) m).
Proof.
  intros H. unfold modifyWorld.
  rewrite (run_bind _ _ _ _ _ (run_loadWorld _ _ _ H)).
  unfold storeWorld. rewrite decide_True by (eapply lookup_lt_Some; eauto).
  reflexivity.
Qed.

(** ** One cell of the scan *)

Lemma setGrid_setGrid G G' W : setGrid G' (setGrid G W) = setGrid G' W.
Proof. reflexivity. Qed.

Lemma setGrid_id W : setGrid (Grid W) W = W.
Proof. destruct W; reflexivity. Qed.

Lemma Grid_setGrid G W : Grid (setGrid G W) = G.
Proof. reflexivity. Qed.

Lemma emptyAt_true Gold G d :
  emptyAt Gold G d = true <->
  gridGet Gold d.1 d.2 = Some None /\ gridGet G d.1 d.2 = Some None.
Proof.
  unfold emptyAt. destruct (gridGet Gold d.1 d.2) as [[f|]|].
  - split; [discriminate|intros [? _]; discriminate].
  - rewrite bool_decide_eq_true. tauto.
  - split; [discriminate|intros [? _]; discriminate].
Qed.

Lemma fishAt_true h Gold G d :
  fishAt h Gold G d = true <->
  exists f cf, gridGet Gold d.1 d.2 = Some (Some f) /\ h !! f = Some cf /\
    species cf = Fish /\ gridGet G d.1 d.2 = Some None.
Proof.
  unfold fishAt. split.
  - destruct (gridGet Gold d.1 d.2) as [[f|]|]; try discriminate.
    destruct (h !! f) as [cf|] eqn:Hf; try discriminate.
    destruct (decide (species cf = Fish)); try discriminate.
    rewrite bool_decide_eq_true. eauto 10.
  - intros (f & cf & -> & -> & Hsp & HG).
    rewrite decide_True by assumption. rewrite bool_decide_eq_true. exact HG.
Qed.

Lemma index_choice {A : Type} (l : list A) (i : Z) :
  0 <= i < Z.of_nat (length l) -> exists a, index l i = Some a /\ a ∈ l.
Proof.
  intros Hi. destruct (index_lt l i Hi) as [a Ha]. exists a. split; [exact Ha|].
  apply index_Some in Ha as [_ Ha]. eapply list_elem_of_lookup_2; eauto.
Qed.

Lemma filter_elem {A : Type} (f : A -> bool) (l : list A) (a : A) :
  a ∈ List.filter f l -> a ∈ l /\ f a = true.
Proof. rewrite !list_elem_of_In. apply filter_In. Qed.

Lemma filter_none {A : Type} (f : A -> bool) (l : list A) :
  Z.of_nat (length (List.filter f l)) <= 0 -> forall a, a ∈ l -> f a = false.
Proof.
  intros Hlen a Ha. destruct (f a) eqn:Hfa; [exfalso|reflexivity].
  assert (a ∈ List.filter f l) as Hin
    by (apply list_elem_of_In, filter_In; split; [apply list_elem_of_In|]; assumption).
  destruct (List.filter f l); [inversion Hin|simpl in Hlen; lia].
Qed.

Lemma fishAt_update h p c c' Gold G e :
  h !! p = Some c -> species c' = species c ->
  fishAt (<[p := c']> h) Gold G e = fishAt h Gold G e.
Proof.
  intros Hc Hsp. unfold fishAt.
  destruct (gridGet Gold e.1 e.2) as [[f|]|]; try reflexivity.
  destruct (decide (f = p)) as [->|Hne].
  - rewrite list_lookup_insert_eq by (eapply lookup_lt_Some; eauto).
    rewrite Hc, Hsp. reflexivity.
  - rewrite list_lookup_insert_ne by congruence. reflexivity.
Qed.

Ltac step H := rewrite (run_bind _ _ _ _ _ H); cbv beta.

Section RunCell.

Variables (o n : nat) (ow nw : World) (S : Z) (x y : Z) (p : nat).
Hypotheses (Hon : o <> n)
           (Hdo : dims (Grid ow) S) (Hdn : dims (Grid nw) S)
           (HS : Size ow = S) (HSr : 1 <= S <= max_size)
           (Hxy : inGrid S (x, y))
           (Hp : gridGet (Grid ow) x y = Some (Some p))
           (Hfree : gridGet (Grid nw) x y = Some None).

Local Abbreviation Gold := (Grid ow).
Local Abbreviation G := (Grid nw).
Local Abbreviation STEP :=
  (CellStep (Grid ow) S (FishBreed ow) (SharkBreed ow) (Starve ow) x y).
Local Abbreviation after := (afterStep n nw).

Lemma adjacent_run m :
  liftOpt (getAdjacentPositions x y (Size ow)) m = Some (neighbors_spec x y S, m).
Proof.
  apply run_liftOpt. rewrite HS. destruct Hxy.
  apply getAdjacentPositions_spec; assumption.
Qed.

Lemma neighbor_in d : d ∈ neighbors_spec x y S -> inGrid S d.
Proof.
  destruct Hxy as [Hx Hy]. simpl in Hx, Hy.
  apply neighbors_inGrid; lia.
Qed.

Lemma self_not_neighbor_empty d :
  gridGet Gold d.1 d.2 = Some None -> d <> (x, y).
Proof. intros Hd ->. simpl in Hd. congruence. Qed.

Lemma gridSet_exists (G0 : list (list (option nat))) d v :
  dims G0 S -> inGrid S d -> exists G', gridSet G0 d.1 d.2 v = Some G'.
Proof.
  intros Hd Hin. destruct d as [a b].
  apply gridSet_is_Some. eapply gridGet_is_Some; eauto.
Qed.

Lemma lookup_new_world m G1 :
  worlds m !! n = Some nw ->
  <[n := setGrid G1 nw]> (worlds m) !! n = Some (setGrid G1 nw).
Proof. intros H. apply list_lookup_insert_eq. eapply lookup_lt_Some; eauto. Qed.

(** [put] of a creature into a free cell of the new grid. *)
Lemma put_run put m d q G' :
  put_ok put -> worlds m !! n = Some nw ->
  gridGet G d.1 d.2 = Some None -> gridSet G d.1 d.2 (Some q) = Some G' ->
  put n d.1 d.2 q m = Some (tt, after m (creatures m) G' (rng m)).
Proof. intros Hput Hn Hg Hs. exact (Hput _ _ _ _ _ _ _ Hn Hg Hs). Qed.

(** The breeding sequence: child into the vacated cell, parent into the
    chosen one, the parent's timer reset. *)
Lemma breed_run put m h c' d ch G1 G' :
  put_ok put -> worlds m !! n = Some nw ->
  creatures m = <[p := c']> h -> (p < length h)%nat ->
  d <> (x, y) -> gridGet G d.1 d.2 = Some None ->
  gridSet G x y (Some (length h)) = Some G1 ->
  gridSet G1 d.1 d.2 (Some p) = Some G' ->
  (newCreature ch ≫= λ child,
     put n x y child;; put n d.1 d.2 p;; modifyCreature p (setLastBreed 0)) m
  = Some (tt, after m (<[p := setLastBreed 0 c']> h ++ [ch]) G' (rng m)).
Proof.
  intros Hput Hn Hh Hlt Hne Hd HG1 HG'.
  assert (newCreature ch m =
          Some (length h, withCreatures (creatures m ++ [ch]) m)) as Hnew.
  { unfold newCreature, withCreatures. rewrite Hh, length_insert. reflexivity. }
  step Hnew.
  set (m1 := withCreatures (creatures m ++ [ch]) m).
  assert (put n x y (length h) m1 =
          Some (tt, withWorlds (<[n := setGrid G1 nw]> (worlds m1)) m1)) as Hput1.
  { apply Hput; [exact Hn|exact Hfree|exact HG1]. }
  step Hput1.
  set (m2 := withWorlds (<[n := setGrid G1 nw]> (worlds m1)) m1).
  assert (worlds m2 !! n = Some (setGrid G1 nw)) as Hn2
    by (apply lookup_new_world; exact Hn).
  assert (gridGet G1 d.1 d.2 = Some None) as Hd1.
  { destruct d as [a b]. simpl in *.
    rewrite (gridGet_gridSet_ne _ _ _ _ _ _ _ HG1 Hne). exact Hd. }
  assert (put n d.1 d.2 p m2 =
          Some (tt, withWorlds (<[n := setGrid G' (setGrid G1 nw)]> (worlds m2)) m2))
    as Hput2.
  { apply Hput; [exact Hn2|exact Hd1|exact HG']. }
  step Hput2.
  set (m3 := withWorlds (<[n := setGrid G' (setGrid G1 nw)]> (worlds m2)) m2).
  assert (creatures m3 !! p = Some c') as Hc3.
  { simpl. rewrite Hh. rewrite lookup_app_l by (rewrite length_insert; exact Hlt).
    apply list_lookup_insert_eq. exact Hlt. }
  rewrite (run_modifyCreature _ _ _ _ Hc3).
  unfold afterStep, withCreatures, m3, m2, m1, withWorlds, withCreatures. simpl.
  rewrite Hh. rewrite list_insert_insert_eq.
  rewrite insert_app_l by (rewrite length_insert; exact Hlt).
  rewrite list_insert_insert_eq. reflexivity.
Qed.

(** *** processFish *)

Lemma processFish_step m h c :
  worlds m !! o = Some ow -> worlds m !! n = Some nw ->
  h !! p = Some c -> species c = Fish ->
  creatures m = <[p := aged c]> h ->
  exists h' G' r',
    STEP h G h' G' /\
    forall put, put_ok put ->
      processFish put o n x y p m = Some (tt, after m h' G' r').
Proof.
  intros Ho Hn Hc Hsp Hh.
  assert (p < length h)%nat as Hlt by (eapply lookup_lt_Some; eauto).
  assert (creatures m !! p = Some (aged c)) as Hc1
    by (rewrite Hh; apply list_lookup_insert_eq; exact Hlt).
  assert (Alive (Starve ow) c (aged c)) as Halive
    by (split; [reflexivity|split; [reflexivity|left; split; [exact Hsp|reflexivity]]]).
  set (cands := List.filter (emptyAt Gold G) (neighbors_spec x y S)).
  assert (filterM (isEmptyCell o n) (neighbors_spec x y S) m = Some (cands, m)) as Hfilter.
  { apply run_filterM. intros d Hd. eapply run_isEmptyCell; eauto.
    apply neighbor_in; exact Hd. }
  assert (forall c', species c' = species c -> species c' = Shark ->
            forall e, e ∈ neighbors_spec x y S -> fishAt h Gold G e = false)
    as Hnothark by (intros c' ? ?; congruence).
  destruct (decide (Z.of_nat (length cands) = 0)) as [Hnone|Hsome].
  - (* no free neighbour: the fish stays *)
    destruct (gridSet_exists G (x, y) (Some p) Hdn Hxy) as [G' HG'].
    exists (<[p := aged c]> h), G', (rng m). split.
    + apply step_put with (c := c) (d := (x, y));
        [exact Hp|exact Hfree|exact Hc|exact Halive|reflexivity| |congruence|exact HG'].
      apply legal_stay; [reflexivity|exact Hfree| |apply Hnothark; reflexivity].
      apply filter_none. fold cands. lia.
    + intros put Hput. unfold processFish.
      step (run_loadWorld _ _ _ Ho). step (adjacent_run m). step Hfilter.
      rewrite decide_True by exact Hnone.
      simpl in HG'. rewrite (Hput _ _ _ _ _ _ _ Hn Hfree HG').
      unfold afterStep, withWorlds. rewrite Hh. reflexivity.
  - destruct (run_Intn (Z.of_nat (length cands)) m) as (i & r & Hi & Hrand); [lia|].
    destruct (index_choice cands i Hi) as (d & Hidx & Hd).
    apply filter_elem in Hd as [Hadj [HdO HdN]%emptyAt_true].
    assert (inGrid S d) as Hin by (apply neighbor_in; exact Hadj).
    assert (d <> (x, y)) as Hne by (apply self_not_neighbor_empty; exact HdO).
    set (mr := withRng r m).
    destruct (decide (FishBreed ow <= LastBreed (aged c))) as [Hbreed|Hnobreed].
    + (* the fish breeds *)
      destruct (gridSet_exists G (x, y) (Some (length h)) Hdn Hxy) as [G1 HG1].
      destruct (gridSet_exists G1 d (Some p) (dims_gridSet _ _ _ _ _ _ Hdn HG1) Hin)
        as [G' HG'].
      simpl in HG1.
      exists (<[p := setLastBreed 0 (aged c)]> h ++ [childOf (Starve ow) (species c)]), G', r.
      split.
      * apply step_breed with (c := c) (d := d) (G1 := G1);
          [exact Hp|exact Hfree|exact Hc| |reflexivity| | |exact Hne|exact HG1|exact HG'].
        -- split; [reflexivity|split; [reflexivity|left; split; [exact Hsp|reflexivity]]].
        -- rewrite Hsp. exact Hbreed.
        -- apply legal_empty; [exact Hadj|exact HdO|exact HdN|apply Hnothark; reflexivity].
      * intros put Hput. unfold processFish.
        step (run_loadWorld _ _ _ Ho). step (adjacent_run m). step Hfilter.
        rewrite decide_False by exact Hsome.
        step Hrand. step (run_liftOpt _ _ mr Hidx).
        step (run_loadCreature p _ mr Hc1). step (run_loadWorld o _ mr Ho).
        rewrite decide_True by exact Hbreed.
        rewrite (breed_run put mr h (aged c) d _ G1 G' Hput Hn Hh Hlt Hne HdN HG1 HG').
        rewrite Hsp. reflexivity.
    + (* the fish moves *)
      destruct (gridSet_exists G d (Some p) Hdn Hin) as [G' HG'].
      exists (<[p := aged c]> h), G', r. split.
      * apply step_put with (c := c) (d := d);
          [exact Hp|exact Hfree|exact Hc|exact Halive|reflexivity| | |exact HG'].
        -- apply legal_empty; [exact Hadj|exact HdO|exact HdN|apply Hnothark; reflexivity].
        -- intros _. rewrite Hsp. apply Z.nle_gt. exact Hnobreed.
      * intros put Hput. unfold processFish.
        step (run_loadWorld _ _ _ Ho). step (adjacent_run m). step Hfilter.
        rewrite decide_False by exact Hsome.
        step Hrand. step (run_liftOpt _ _ mr Hidx).
        step (run_loadCreature p _ mr Hc1). step (run_loadWorld o _ mr Ho).
        rewrite decide_False by exact Hnobreed.
        rewrite (put_run put mr d p G' Hput Hn HdN HG'). simpl. rewrite Hh. reflexivity.
Qed.

(** *** processShark *)

Lemma afterStep_same m h' r' :
  worlds m !! n = Some nw -> after m h' G r' = mkMem h' (worlds m) r'.
Proof.
  intros Hn. unfold afterStep. rewrite setGrid_id.
  rewrite list_insert_id by exact Hn. reflexivity.
Qed.

Lemma processShark_step m h c :
  worlds m !! o = Some ow -> worlds m !! n = Some nw ->
  h !! p = Some c -> species c = Shark ->
  creatures m = <[p := aged c]> h ->
  (forall q, q ∈ ptrsOf Gold -> is_Some (h !! q)) ->
  exists h' G' r',
    STEP h G h' G' /\
    forall put, put_ok put ->
      processShark put o n x y p m = Some (tt, after m h' G' r').
Proof.
  intros Ho Hn Hc Hsp Hh Hvalid.
  assert (p < length h)%nat as Hlt by (eapply lookup_lt_Some; eauto).
  assert (creatures m !! p = Some (aged c)) as Hc1
    by (rewrite Hh; apply list_lookup_insert_eq; exact Hlt).
  set (c2 := setEnergy (GoInt.sub (Energy c) 1) (aged c)).
  set (m1 := withCreatures (<[p := c2]> (creatures m)) m).
  assert (modifyCreature p (λ c0, setEnergy (GoInt.sub (Energy c0) 1) c0) m
          = Some (tt, m1)) as Hdec
    by exact (run_modifyCreature p (λ c0, setEnergy (GoInt.sub (Energy c0) 1) c0)
                (aged c) m Hc1).
  assert (creatures m1 = <[p := c2]> h) as Hh1
    by (simpl; rewrite Hh; apply list_insert_insert_eq).
  assert (creatures m1 !! p = Some c2) as Hc2
    by (rewrite Hh1; apply list_lookup_insert_eq; exact Hlt).
  assert (worlds m1 !! o = Some ow) as Ho1 by exact Ho.
  assert (worlds m1 !! n = Some nw) as Hn1 by exact Hn.
  destruct (decide (Energy c2 <= 0)) as [Hdead|Hlive].
  { (* the shark starves *)
    exists (<[p := c2]> h), G, (rng m). split.
    - apply step_drop with (c := c);
        [exact Hp|exact Hfree|exact Hc|reflexivity|reflexivity|].
      right. split; [exact Hsp|split; [reflexivity|exact Hdead]].
    - intros put Hput. unfold processShark.
      step Hdec. step (run_loadCreature p _ m1 Hc2).
      rewrite decide_True by exact Hdead.
      rewrite afterStep_same by exact Hn. rewrite <- Hh1. reflexivity. }
  assert (0 < GoInt.sub (Energy c) 1) as Hpos by (simpl in Hlive; lia).
  assert (forall q, q ∈ ptrsOf Gold -> is_Some (creatures m1 !! q)) as Hvalid1.
  { intros q Hq. rewrite Hh1. destruct (decide (q = p)) as [->|Hqp].
    - rewrite list_lookup_insert_eq by exact Hlt. eauto.
    - rewrite list_lookup_insert_ne by congruence. apply Hvalid; exact Hq. }
  set (fcands := List.filter (fishAt (creatures m1) Gold G) (neighbors_spec x y S)).
  assert (filterM (isFishCell o n) (neighbors_spec x y S) m1 = Some (fcands, m1))
    as Hffilter.
  { apply run_filterM. intros d Hd. eapply run_isFishCell; eauto.
    apply neighbor_in; exact Hd. }
  set (ecands := List.filter (emptyAt Gold G) (neighbors_spec x y S)).
  assert (filterM (isEmptyCell o n) (neighbors_spec x y S) m1 = Some (ecands, m1))
    as Hefilter.
  { apply run_filterM. intros d Hd. eapply run_isEmptyCell; eauto.
    apply neighbor_in; exact Hd. }
  destruct (decide (0 < Z.of_nat (length fcands))) as [Hprey|Hnoprey].
  - (* the shark eats *)
    destruct (run_Intn (Z.of_nat (length fcands)) m1) as (i & r & Hi & Hrand); [lia|].
    destruct (index_choice fcands i Hi) as (d & Hidx & Hd).
    apply filter_elem in Hd as [Hadj (f & cf & HdO & Hf & Hfsp & HdN)%fishAt_true].
    assert (inGrid S d) as Hin by (apply neighbor_in; exact Hadj).
    assert (f <> p) as Hfp.
    { intros ->. rewrite Hc2 in Hf. inversion Hf; subst cf.
      simpl in Hfsp. congruence. }
    assert (h !! f = Some cf) as Hf0.
    { rewrite Hh1 in Hf. rewrite list_lookup_insert_ne in Hf by congruence. exact Hf. }
    assert (d <> (x, y)) as Hne.
    { intros ->. simpl in HdO. congruence. }
    set (mr := withRng r m1).
    set (c3 := setEnergy (Starve ow) c2).
    set (m2 := withCreatures (<[p := c3]> (creatures mr)) mr).
    assert (modifyCreature p (setEnergy (Starve ow)) mr = Some (tt, m2)) as Hfeed
      by (apply run_modifyCreature; exact Hc2).
    assert (creatures m2 = <[p := c3]> h) as Hh2
      by (simpl; rewrite Hh; rewrite !list_insert_insert_eq; reflexivity).
    assert (creatures m2 !! p = Some c3) as Hc3
      by (rewrite Hh2; apply list_lookup_insert_eq; exact Hlt).
    assert (Alive (Starve ow) c c3) as Halive
      by (split; [reflexivity|split; [reflexivity|
            right; split; [exact Hsp|split; [exact Hpos|right; reflexivity]]]]).
    assert (forall c', species c' = Shark -> Energy c' = Starve ow ->
              Legal Gold S (Starve ow) x y h G c' d) as Hlegal
      by (intros c' ? ?; eapply legal_prey; eauto).
    destruct (decide (SharkBreed ow <= LastBreed c3)) as [Hbreed|Hnobreed].
    + destruct (gridSet_exists G (x, y) (Some (length h)) Hdn Hxy) as [G1 HG1].
      destruct (gridSet_exists G1 d (Some p) (dims_gridSet _ _ _ _ _ _ Hdn HG1) Hin)
        as [G' HG'].
      simpl in HG1.
      exists (<[p := setLastBreed 0 c3]> h ++ [childOf (Starve ow) (species c)]), G', r.
      split.
      * apply step_breed with (c := c) (d := d) (G1 := G1);
          [exact Hp|exact Hfree|exact Hc| |reflexivity| | |exact Hne|exact HG1|exact HG'].
        -- destruct Halive as (? & ? & ?). split; [assumption|split; assumption].
        -- rewrite Hsp. exact Hbreed.
        -- apply Hlegal; [exact Hsp|reflexivity].
      * intros put Hput. unfold processShark.
        step Hdec. step (run_loadCreature p _ m1 Hc2).
        rewrite decide_False by exact Hlive.
        step (run_loadWorld o _ m1 Ho1). step (adjacent_run m1). step Hffilter.
        rewrite decide_True by exact Hprey.
        step Hrand. step (run_liftOpt _ _ mr Hidx).
        step (run_loadWorld o _ mr Ho1). step Hfeed.
        step (run_loadCreature p _ m2 Hc3). step (run_loadWorld o _ m2 Ho1).
        rewrite decide_True by exact Hbreed.
        step (run_loadWorld o _ m2 Ho1).
        rewrite (breed_run put m2 h c3 d _ G1 G' Hput Hn Hh2 Hlt Hne HdN HG1 HG').
        rewrite Hsp. reflexivity.
    + destruct (gridSet_exists G d (Some p) Hdn Hin) as [G' HG'].
      exists (<[p := c3]> h), G', r. split.
      * apply step_put with (c := c) (d := d);
          [exact Hp|exact Hfree|exact Hc|exact Halive|reflexivity| | |exact HG'].
        -- apply Hlegal; [exact Hsp|reflexivity].
        -- intros _. rewrite Hsp. apply Z.nle_gt. exact Hnobreed.
      * intros put Hput. unfold processShark.
        step Hdec. step (run_loadCreature p _ m1 Hc2).
        rewrite decide_False by exact Hlive.
        step (run_loadWorld o _ m1 Ho1). step (adjacent_run m1). step Hffilter.
        rewrite decide_True by exact Hprey.
        step Hrand. step (run_liftOpt _ _ mr Hidx).
        step (run_loadWorld o _ mr Ho1). step Hfeed.
        step (run_loadCreature p _ m2 Hc3). step (run_loadWorld o _ m2 Ho1).
        rewrite decide_False by exact Hnobreed.
        rewrite (put_run put m2 d p G' Hput Hn HdN HG'). rewrite Hh2. reflexivity.
  - assert (Alive (Starve ow) c c2) as Halive
      by (split; [reflexivity|split; [reflexivity|
            right; split; [exact Hsp|split; [exact Hpos|left; reflexivity]]]]).
    assert (forall e, e ∈ neighbors_spec x y S -> fishAt h Gold G e = false)
      as Hnofish.
    { intros e He. rewrite <- (fishAt_update h p c c2 Gold G e Hc eq_refl).
      rewrite <- Hh1. revert e He. apply filter_none. fold fcands. lia. }
    destruct (decide (Z.of_nat (length ecands) = 0)) as [Hnone|Hsome].
    + (* nowhere to go: the shark stays *)
      destruct (gridSet_exists G (x, y) (Some p) Hdn Hxy) as [G' HG'].
      exists (<[p := c2]> h), G', (rng m). split.
      * apply step_put with (c := c) (d := (x, y));
          [exact Hp|exact Hfree|exact Hc|exact Halive|reflexivity| |congruence|exact HG'].
        apply legal_stay; [reflexivity|exact Hfree| |intros _; exact Hnofish].
        apply filter_none. fold ecands. lia.
      * intros put Hput. unfold processShark.
        step Hdec. step (run_loadCreature p _ m1 Hc2).
        rewrite decide_False by exact Hlive.
        step (run_loadWorld o _ m1 Ho1). step (adjacent_run m1). step Hffilter.
        rewrite decide_False by exact Hnoprey.
        step Hefilter. rewrite decide_True by exact Hnone.
        simpl in HG'. rewrite (Hput _ _ _ _ _ _ _ Hn1 Hfree HG').
        unfold afterStep, withWorlds. rewrite Hh1. reflexivity.
    + destruct (run_Intn (Z.of_nat (length ecands)) m1) as (i & r & Hi & Hrand); [lia|].
      destruct (index_choice ecands i Hi) as (d & Hidx & Hd).
      apply filter_elem in Hd as [Hadj [HdO HdN]%emptyAt_true].
      assert (inGrid S d) as Hin by (apply neighbor_in; exact Hadj).
      assert (d <> (x, y)) as Hne by (apply self_not_neighbor_empty; exact HdO).
      set (mr := withRng r m1).
      destruct (decide (SharkBreed ow <= LastBreed c2)) as [Hbreed|Hnobreed].
      * destruct (gridSet_exists G (x, y) (Some (length h)) Hdn Hxy) as [G1 HG1].
        destruct (gridSet_exists G1 d (Some p) (dims_gridSet _ _ _ _ _ _ Hdn HG1) Hin)
          as [G' HG'].
        simpl in HG1.
        exists (<[p := setLastBreed 0 c2]> h ++ [childOf (Starve ow) (species c)]), G', r.
        split.
        -- apply step_breed with (c := c) (d := d) (G1 := G1);
             [exact Hp|exact Hfree|exact Hc| |reflexivity| | |exact Hne|exact HG1|exact HG'].
           ++ destruct Halive as (? & ? & ?). split; [assumption|split; assumption].
           ++ rewrite Hsp. exact Hbreed.
           ++ apply legal_empty; [exact Hadj|exact HdO|exact HdN|intros _; exact Hnofish].
        -- intros put Hput. unfold processShark.
           step Hdec. step (run_loadCreature p _ m1 Hc2).
           rewrite decide_False by exact Hlive.
           step (run_loadWorld o _ m1 Ho1). step (adjacent_run m1). step Hffilter.
           rewrite decide_False by exact Hnoprey.
           step Hefilter. rewrite decide_False by exact Hsome.
           step Hrand. step (run_liftOpt _ _ mr Hidx).
           step (run_loadCreature p _ mr Hc2). step (run_loadWorld o _ mr Ho1).
           rewrite decide_True by exact Hbreed.
           step (run_loadWorld o _ mr Ho1).
           rewrite (breed_run put mr h c2 d _ G1 G' Hput Hn Hh1 Hlt Hne HdN HG1 HG').
           rewrite Hsp. reflexivity.
      * destruct (gridSet_exists G d (Some p) Hdn Hin) as [G' HG'].
        exists (<[p := c2]> h), G', r. split.
        -- apply step_put with (c := c) (d := d);
             [exact Hp|exact Hfree|exact Hc|exact Halive|reflexivity| | |exact HG'].
           ++ apply legal_empty; [exact Hadj|exact HdO|exact HdN|intros _; exact Hnofish].
           ++ intros _. rewrite Hsp. apply Z.nle_gt. exact Hnobreed.
        -- intros put Hput. unfold processShark.
           step Hdec. step (run_loadCreature p _ m1 Hc2).
           rewrite decide_False by exact Hlive.
           step (run_loadWorld o _ m1 Ho1). step (adjacent_run m1). step Hffilter.
           rewrite decide_False by exact Hnoprey.
           step Hefilter. rewrite decide_False by exact Hsome.
           step Hrand. step (run_liftOpt _ _ mr Hidx).
           step (run_loadCreature p _ mr Hc2). step (run_loadWorld o _ mr Ho1).
           rewrite decide_False by exact Hnobreed.
           rewrite (put_run put mr d p G' Hput Hn HdN HG').
           change (creatures mr) with (creatures m1). rewrite Hh1. reflexivity.
Qed.

End RunCell.

(** *** scanCell *)

Lemma scanCell_step o n ow nw S x y m :
  o <> n -> dims (Grid ow) S -> dims (Grid nw) S -> Size ow = S ->
  1 <= S <= max_size -> inGrid S (x, y) ->
  worlds m !! o = Some ow -> worlds m !! n = Some nw ->
  (forall q, q ∈ ptrsOf (Grid ow) -> is_Some (creatures m !! q)) ->
  exists h' G' r',
    CellStep (Grid ow) S (FishBreed ow) (SharkBreed ow) (Starve ow) x y
             (creatures m) (Grid nw) h' G' /\
    forall put, put_ok put ->
      scanCell put o n x y m = Some (tt, afterStep n nw m h' G' r').
Proof.
  intros Hon Hdo Hdn HS HSr Hxy Ho Hn Hvalid.
  assert (afterStep n nw m (creatures m) (Grid nw) (rng m) = m) as Hsame
    by (rewrite afterStep_same by exact Hn; destruct m; reflexivity).
  destruct (gridGet_is_Some _ _ _ _ Hdo Hxy) as [[p|] Hp].
  2: { exists (creatures m), (Grid nw), (rng m). split.
       - apply step_nil; exact Hp.
       - intros put _. unfold scanCell.
         step (run_getCell _ _ _ _ _ _ Ho Hp). rewrite Hsame. reflexivity. }
  destruct (gridGet_is_Some _ _ _ _ Hdn Hxy) as [[q|] Hq].
  { exists (creatures m), (Grid nw), (rng m). split.
    - eapply step_skip; eauto.
    - intros put _. unfold scanCell.
      step (run_getCell _ _ _ _ _ _ Ho Hp). step (run_getCell _ _ _ _ _ _ Hn Hq).
      rewrite Hsame. reflexivity. }
  destruct (Hvalid p) as [c Hc]; [apply elem_of_ptrsOf; eauto|].
  assert (p < length (creatures m))%nat as Hlt by (eapply lookup_lt_Some; eauto).
  set (c1 := setAge (GoInt.add (Age c) 1) c).
  set (m1 := withCreatures (<[p := c1]> (creatures m)) m).
  assert (modifyCreature p (λ cr, setAge (GoInt.add (Age cr) 1) cr) m = Some (tt, m1))
    as Hage
    by exact (run_modifyCreature p (λ cr, setAge (GoInt.add (Age cr) 1) cr) c m Hc).
  assert (creatures m1 !! p = Some c1) as Hc1
    by (simpl; apply list_lookup_insert_eq; exact Hlt).
  set (m2 := withCreatures (<[p := aged c]> (creatures m1)) m1).
  assert (modifyCreature p (λ cr, setLastBreed (GoInt.add (LastBreed cr) 1) cr) m1
          = Some (tt, m2)) as Htimer
    by exact (run_modifyCreature p
                (λ cr, setLastBreed (GoInt.add (LastBreed cr) 1) cr) c1 m1 Hc1).
  assert (creatures m2 = <[p := aged c]> (creatures m)) as Hh2
    by (simpl; apply list_insert_insert_eq).
  assert (creatures m2 !! p = Some (aged c)) as Hc2
    by (rewrite Hh2; apply list_lookup_insert_eq; exact Hlt).
  assert (worlds m2 !! o = Some ow) as Ho2 by exact Ho.
  assert (worlds m2 !! n = Some nw) as Hn2 by exact Hn.
  destruct (species c) eqn:Hsp.
  - (* a creature of no species is aged and dropped *)
    exists (<[p := aged c]> (creatures m)), (Grid nw), (rng m). split.
    + apply step_drop with (c := c);
        [exact Hp|exact Hq|exact Hc|reflexivity|reflexivity|left; exact Hsp].
    + intros put _. unfold scanCell.
      step (run_getCell _ _ _ _ _ _ Ho Hp). step (run_getCell _ _ _ _ _ _ Hn Hq).
      step Hage. step Htimer. step (run_loadCreature p _ m2 Hc2).
      change (species (aged c)) with (species c). rewrite Hsp.
      rewrite afterStep_same by exact Hn. rewrite <- Hh2. reflexivity.
  - destruct (processFish_step o n ow nw S x y p Hon Hdo Hdn HS HSr Hxy Hp Hq
                m2 (creatures m) c Ho2 Hn2 Hc Hsp Hh2) as (h' & G' & r' & Hstep & Hrun).
    exists h', G', r'. split; [exact Hstep|].
    intros put Hput. unfold scanCell.
    step (run_getCell _ _ _ _ _ _ Ho Hp). step (run_getCell _ _ _ _ _ _ Hn Hq).
    step Hage. step Htimer. step (run_loadCreature p _ m2 Hc2).
    change (species (aged c)) with (species c). rewrite Hsp.
    rewrite (Hrun put Hput). reflexivity.
  - destruct (processShark_step o n ow nw S x y p Hon Hdo Hdn HS HSr Hxy Hp Hq
                m2 (creatures m) c Ho2 Hn2 Hc Hsp Hh2 Hvalid)
      as (h' & G' & r' & Hstep & Hrun).
    exists h', G', r'. split; [exact Hstep|].
    intros put Hput. unfold scanCell.
    step (run_getCell _ _ _ _ _ _ Ho Hp). step (run_getCell _ _ _ _ _ _ Hn Hq).
    step Hage. step Htimer. step (run_loadCreature p _ m2 Hc2).
    change (species (aged c)) with (species c). rewrite Hsp.
    rewrite (Hrun put Hput). reflexivity.
Qed.

(** ** The scan invariant is kept by every cell *)

Section Preservation.

Variables (Gold : list (list (option nat))) (S FB SB ST : Z)
          (h0 : list Creature).
Hypotheses (Hdo : dims Gold S)
           (Hnd : NoDup (ptrsOf Gold))
           (Hvalid0 : forall q, q ∈ ptrsOf Gold -> (q < length h0)%nat).

Local Abbreviation INV := (Inv Gold S FB SB ST h0).
Local Abbreviation PLACED := (Placed Gold S FB SB ST h0).

Lemma old_ptr d p : gridGet Gold d.1 d.2 = Some (Some p) -> (p < length h0)%nat.
Proof. intros H. apply Hvalid0, elem_of_ptrsOf. eauto. Qed.

Lemma old_inj d d' p :
  gridGet Gold d.1 d.2 = Some (Some p) -> gridGet Gold d'.1 d'.2 = Some (Some p) ->
  d' = d.
Proof.
  intros H H'. destruct d as [a b], d' as [a' b']. simpl in *.
  eapply NoDup_ptrsOf_inj; eauto.
Qed.

Lemma Placed_mono (done done' : Z * Z -> Prop) h h' G G' d q :
  (forall e, done e -> done' e) ->
  (forall e r, done e -> gridGet Gold e.1 e.2 = Some (Some r) -> h' !! r = h !! r) ->
  (forall r, (length h0 <= r < length h)%nat -> h' !! r = h !! r) ->
  (forall e r, gridGet G e.1 e.2 = Some (Some r) -> gridGet G' e.1 e.2 = Some (Some r)) ->
  PLACED done h G d q -> PLACED done' h' G' d q.
Proof.
  intros Hdone Hh Hkids HG [src c0 c Hsrc Hd Hc0 Hc Hal Hloc
                           |r cq0 cq dq Hlen Hd Hq Hcq0 Hcq Hal Hlb Hthr Hch Hdq Hadj Hdest].
  - eapply placed_old; eauto. rewrite (Hh src q Hd Hsrc). exact Hc.
  - eapply placed_child; eauto.
    + rewrite (Hh d r Hd Hq). exact Hcq.
    + rewrite Hkids; [exact Hch|]. split; [exact Hlen|].
      eapply lookup_lt_Some; eauto.
Qed.

Lemma Inv_placed_lt done h G q :
  INV done h G -> q ∈ ptrsOf G -> (q < length h)%nat.
Proof.
  intros HI (a & b & Hq)%elem_of_ptrsOf.
  destruct (inv_placed _ _ _ _ _ _ _ _ _ HI (a, b) q Hq);
    eapply lookup_lt_Some; eauto.
Qed.

(** A creature of the old grid whose cell has not been visited is not in
    the new grid yet. *)
Lemma Inv_todo_absent done h G d p :
  INV done h G -> ~ done d -> gridGet Gold d.1 d.2 = Some (Some p) ->
  p ∉ ptrsOf G.
Proof.
  intros HI Hnd' Hp (a & b & Hq)%elem_of_ptrsOf.
  destruct (inv_placed _ _ _ _ _ _ _ _ _ HI (a, b) p Hq)
    as [src c0 c Hsrc Hd _ _ _ _|r cq0 cq dq Hlen _ _ _ _ _ _ _ _ _ _ _].
  - rewrite (old_inj _ _ _ Hp Hsrc) in Hd. contradiction.
  - pose proof (old_ptr _ _ Hp). lia.
Qed.

(** The cell under the scan is occupied in the new grid only by a shark
    that came to eat the fish living there. *)
Lemma Inv_skip done h G d f q :
  INV done h G -> ~ done d ->
  gridGet Gold d.1 d.2 = Some (Some f) -> gridGet G d.1 d.2 = Some (Some q) ->
  exists src c0 c cf,
    done src /\ gridGet Gold src.1 src.2 = Some (Some q) /\
    d ∈ neighbors_spec src.1 src.2 S /\
    h0 !! q = Some c0 /\ h !! q = Some c /\ species c0 = Shark /\
    species c = Shark /\ Energy c = ST /\
    h0 !! f = Some cf /\ species cf = Fish.
Proof.
  intros HI Hnd' Hf Hq.
  destruct (inv_placed _ _ _ _ _ _ _ _ _ HI d q Hq)
    as [src c0 c Hsrc Hd Hc0 Hc Hal Hloc|r cq0 cq dq Hlen Hd _ _ _ _ _ _ _ _ _ _].
  - destruct Hloc as [->|[Hadj [Hnone|(f' & cf & Hf' & Hcf & Hfish & Hshark & Hen)]]].
    + contradiction.
    + congruence.
    + rewrite Hf in Hf'. inversion Hf'; subst f'.
      exists src, c0, c, cf. repeat split; auto.
      destruct Hal as (Hsp & _). congruence.
  - contradiction.
Qed.

Local Abbreviation visit := (fun (done : Z * Z -> Prop) (k d : Z * Z) => done d \/ d = k).

(** Nothing happens at an empty cell or at a cell that is skipped. *)
Lemma Inv_idle done h G k :
  INV done h G -> ~ done k ->
  (gridGet Gold k.1 k.2 = Some None \/
   exists f q, gridGet Gold k.1 k.2 = Some (Some f) /\
               gridGet G k.1 k.2 = Some (Some q)) ->
  INV (visit done k) h G.
Proof.
  intros HI Hk Hcase.
  pose proof HI as [Hlen Hspec Htodo Hframe Hdims Hnodup Hplaced Hsharks].
  constructor; auto.
  - intros d p Hd. apply Htodo. tauto.
  - intros d p Hq. eapply Placed_mono; [| | | |apply Hplaced; exact Hq]; auto.
  - intros src p c0 [Hd| ->] Hp Hc0 Hshark; [eauto|exfalso].
    destruct Hcase as [Hnone|(f & q & Hf & Hq)]; [congruence|].
    rewrite Hp in Hf. inversion Hf; subst f.
    destruct (Inv_skip _ _ _ _ _ _ HI Hk Hp Hq)
      as (src & c0' & c & cf & _ & _ & _ & _ & _ & _ & _ & _ & Hcf & Hfish).
    congruence.
Qed.

Lemma touches_insert p c c' h :
  h !! p = Some c -> touches p c' h (<[p := c']> h).
Proof.
  intros Hc. split; [rewrite length_insert; lia|split].
  - apply list_lookup_insert_eq. eapply lookup_lt_Some; eauto.
  - intros r Hr _. apply list_lookup_insert_ne. congruence.
Qed.

Lemma touches_insert_app p c c' ch h :
  h !! p = Some c -> touches p c' h (<[p := c']> h ++ [ch]).
Proof.
  intros Hc. pose proof (lookup_lt_Some _ _ _ Hc) as Hlt.
  split; [rewrite length_app, length_insert; lia|split].
  - rewrite lookup_app_l by (rewrite length_insert; exact Hlt).
    apply list_lookup_insert_eq. exact Hlt.
  - intros r Hr Hlt'. rewrite lookup_app_l by (rewrite length_insert; exact Hlt').
    apply list_lookup_insert_ne. congruence.
Qed.

Section Update.

Variables (done : Z * Z -> Prop) (h : list Creature)
          (G : list (list (option nat))) (k : Z * Z) (p : nat)
          (c c' : Creature) (h1 : list Creature).
Hypotheses (HI : INV done h G) (Hk : ~ done k)
           (Hp : gridGet Gold k.1 k.2 = Some (Some p))
           (Hc : h !! p = Some c)
           (Ht : touches p c' h h1).

Lemma update_done e r :
  done e -> gridGet Gold e.1 e.2 = Some (Some r) -> h1 !! r = h !! r.
Proof.
  intros He Hr. destruct Ht as (_ & _ & Hrest). apply Hrest.
  - intros ->. rewrite (old_inj _ _ _ Hr Hp) in Hk. contradiction.
  - destruct (lookup_lt_is_Some_2 h0 r) as [c0 Hc0]; [eapply old_ptr; eauto|].
    destruct (inv_species _ _ _ _ _ _ _ _ _ HI r c0 Hc0) as (cr & Hcr & _).
    eapply lookup_lt_Some; eauto.
Qed.

Lemma update_kids r : (length h0 <= r < length h)%nat -> h1 !! r = h !! r.
Proof.
  intros Hr. destruct Ht as (_ & _ & Hrest). apply Hrest; [|lia].
  pose proof (old_ptr _ _ Hp). lia.
Qed.

Lemma update_c0 : h0 !! p = Some c.
Proof. rewrite <- (inv_todo _ _ _ _ _ _ _ _ _ HI k p Hk Hp). exact Hc. Qed.

(** Whatever was placed before stays placed. *)
Lemma Placed_keep G1 d q :
  (forall e r, gridGet G e.1 e.2 = Some (Some r) ->
               gridGet G1 e.1 e.2 = Some (Some r)) ->
  gridGet G d.1 d.2 = Some (Some q) ->
  PLACED (visit done k) h1 G1 d q.
Proof.
  intros HG Hq.
  eapply Placed_mono;
    [| | | |eapply (inv_placed _ _ _ _ _ _ _ _ _ HI); exact Hq].
  - intros e He. left. exact He.
  - apply update_done.
  - apply update_kids.
  - exact HG.
Qed.

(** The fields of the invariant that speak of the heap only. *)
Lemma Inv_update G1 :
  species c' = species c ->
  (species c = Shark ->
   Energy c' = GoInt.sub (Energy c) 1 \/
   (0 < GoInt.sub (Energy c) 1 /\ Energy c' = ST)) ->
  dims G1 S -> NoDup (ptrsOf G1) ->
  (forall d q, gridGet G1 d.1 d.2 = Some (Some q) ->
               PLACED (visit done k) h1 G1 d q) ->
  INV (visit done k) h1 G1.
Proof.
  intros Hsp Hen Hdims Hnodup Hplaced.
  pose proof HI as [Hlen Hspec Htodo Hframe _ _ _ Hsharks].
  pose proof Ht as (Hlen1 & Hp1 & Hrest).
  pose proof update_c0 as Hc0.
  constructor; auto.
  - lia.
  - intros r c0 Hr. destruct (decide (r = p)) as [->|Hne].
    + exists c'. split; [exact Hp1|]. congruence.
    + destruct (Hspec r c0 Hr) as (cr & Hcr & Hs). exists cr.
      split; [|exact Hs]. rewrite Hrest; [exact Hcr|exact Hne|].
      eapply lookup_lt_Some; eauto.
  - intros d r Hd Hr.
    assert (~ done d) as Hd' by tauto.
    rewrite <- (Htodo d r Hd' Hr). apply Hrest.
    + intros ->. apply Hd. right. eapply old_inj; eauto.
    + pose proof (old_ptr _ _ Hr). lia.
  - intros r Hr Hnot. rewrite <- (Hframe r Hr Hnot). apply Hrest; [|lia].
    intros ->. apply Hnot, elem_of_ptrsOf. eauto.
  - intros src r c0 [Hd| ->] Hr Hc0' Hshark.
    + destruct (Hsharks src r c0 Hd Hr Hc0' Hshark) as (cr & Hcr & Hen').
      exists cr. split; [|exact Hen'].
      rewrite (update_done _ _ Hd Hr). exact Hcr.
    + rewrite Hp in Hr. inversion Hr; subst r.
      rewrite Hc0 in Hc0'. inversion Hc0'; subst c0.
      exists c'. split; [exact Hp1|]. apply Hen. exact Hshark.
Qed.

End Update.

(** Where a legal destination lies, in the terms of [Placed]. *)
Lemma Legal_loc done h G x y c c' d :
  INV done h G -> Legal Gold S ST x y h G c' d -> species c' = species c ->
  gridGet G d.1 d.2 = Some None /\
  (d = (x, y) \/
   (d ∈ neighbors_spec x y S /\
    (gridGet Gold d.1 d.2 = Some None \/
     (exists f cf, gridGet Gold d.1 d.2 = Some (Some f) /\
        h0 !! f = Some cf /\ species cf = Fish /\
        species c = Shark /\ Energy c' = ST)))).
Proof.
  intros HI [-> Hfree _ _|Hadj Hnone Hfree _|f cf Hadj Hf Hcf Hfish Hfree Hshark Hen] Hsp.
  - split; [exact Hfree|left; reflexivity].
  - split; [exact Hfree|right; split; [exact Hadj|left; exact Hnone]].
  - split; [exact Hfree|right; split; [exact Hadj|right]].
    destruct (lookup_lt_is_Some_2 h0 f) as [cf0 Hcf0]; [eapply old_ptr; eauto|].
    destruct (inv_species _ _ _ _ _ _ _ _ _ HI f cf0 Hcf0) as (cr & Hcr & Hs).
    exists f, cf0. repeat split; auto; congruence.
Qed.

Lemma gridSet_keeps (G G' : list (list (option nat))) d v :
  gridGet G d.1 d.2 = Some None -> gridSet G d.1 d.2 v = Some G' ->
  forall e r, gridGet G e.1 e.2 = Some (Some r) -> gridGet G' e.1 e.2 = Some (Some r).
Proof.
  intros Hfree Hset e r Hr. destruct d as [a b], e as [a' b']. simpl in *.
  rewrite (gridGet_gridSet_ne _ _ _ _ _ _ _ Hset); [exact Hr|].
  intros Heq. inversion Heq; subst. congruence.
Qed.

Lemma gridSet_cases (G G' : list (list (option nat))) d v e w :
  gridSet G d.1 d.2 v = Some G' -> gridGet G' e.1 e.2 = Some w ->
  (e = d /\ w = v) \/ (e <> d /\ gridGet G e.1 e.2 = Some w).
Proof.
  intros Hset Hw. destruct (decide (e = d)) as [->|Hne].
  - left. split; [reflexivity|].
    rewrite (gridGet_gridSet_eq _ _ _ _ _ Hset) in Hw. congruence.
  - right. split; [exact Hne|]. destruct d as [a b], e as [a' b']. simpl in *.
    rewrite (gridGet_gridSet_ne _ _ _ _ _ _ _ Hset) in Hw by exact Hne. exact Hw.
Qed.

Lemma Alive_energy c c' :
  Alive ST c c' -> species c = Shark ->
  Energy c' = GoInt.sub (Energy c) 1 \/
  (0 < GoInt.sub (Energy c) 1 /\ Energy c' = ST).
Proof.
  intros (_ & _ & [[Hf _]|(_ & Hpos & [He|He])]) Hs; [congruence|left|right]; auto.
Qed.

(** Every cell of the scan keeps the invariant. *)
Lemma Inv_step done h G x y h' G' :
  INV done h G -> ~ done (x, y) ->
  CellStep Gold S FB SB ST x y h G h' G' ->
  INV (visit done (x, y)) h' G'.
Proof.
  intros HI Hk Hstep.
  pose proof HI as [Hlen Hspec Htodo Hframe Hdims Hnodup Hplaced Hsharks].
  destruct Hstep as [Hnone|f q Hf Hq|p c c' Hp Hfree Hc Hsp Hage Hwhy
                    |p c c' d G' Hp Hfree Hc Hal Hlb Hlegal _ Hset
                    |p c c' d G1 G' Hp Hfree Hc Hal Hlb Hthr Hlegal Hne Hset1 Hset].
  - apply Inv_idle; [exact HI|exact Hk|left; exact Hnone].
  - apply Inv_idle; [exact HI|exact Hk|right; eauto].
  - (* the creature is dropped *)
    pose proof (touches_insert p c c' h Hc) as Ht.
    eapply Inv_update with (p := p) (c := c) (c' := c'); eauto.
    + intros Hshark. destruct Hwhy as [He|(_ & He & _)]; [congruence|left; exact He].
    + intros e r Hr. eapply Placed_keep with (p := p); eauto.
  - (* the creature is put into [d] *)
    pose proof (touches_insert p c c' h Hc) as Ht.
    destruct Hal as (Hsp & Hal'). pose proof (conj Hsp Hal') as Hal.
    destruct (Legal_loc _ _ _ _ _ c _ _ HI Hlegal Hsp) as [Hdfree Hloc].
    assert (p ∉ ptrsOf G) as Hfresh
      by exact (Inv_todo_absent done h G (x, y) p HI Hk Hp).
    eapply Inv_update with (p := p) (c := c) (c' := c'); eauto.
    + apply Alive_energy. exact Hal.
    + eapply dims_gridSet; eauto.
    + rewrite (ptrsOf_place _ _ _ _ _ Hdfree Hset). apply NoDup_cons_2; assumption.
    + intros e r Hr.
      destruct (gridSet_cases _ _ _ _ _ _ Hset Hr) as [[-> Heq]|[Hned Hr']].
      * inversion Heq; subst r.
        apply placed_old with (src := (x, y)) (c0 := c) (c := c');
          [exact Hp|right; reflexivity| | |exact Hal|exact Hloc].
        -- eapply update_c0 with (k := (x, y)); eauto.
        -- destruct Ht as (_ & Hp1 & _). exact Hp1.
      * eapply Placed_keep with (p := p); eauto.
        eapply gridSet_keeps; eauto.
  - (* the creature breeds *)
    pose proof (touches_insert_app p c c' (childOf ST (species c)) h Hc) as Ht.
    destruct Hal as (Hsp & Hal'). pose proof (conj Hsp Hal') as Hal.
    destruct (Legal_loc _ _ _ _ _ c _ _ HI Hlegal Hsp) as [Hdfree Hloc].
    destruct Hloc as [Heq|[Hadj Hdest]]; [contradiction|].
    assert (p ∉ ptrsOf G) as Hfresh
      by exact (Inv_todo_absent done h G (x, y) p HI Hk Hp).
    assert (p < length h)%nat as Hplt by (eapply lookup_lt_Some; eauto).
    assert (length h ∉ ptrsOf G) as Hkid.
    { intros Hin. pose proof (Inv_placed_lt done h G _ HI Hin). lia. }
    assert (gridGet G1 d.1 d.2 = Some None) as Hdfree1.
    { destruct d as [a b]. simpl in *.
      rewrite (gridGet_gridSet_ne _ _ _ _ _ _ _ Hset1 Hne). exact Hdfree. }
    assert (forall e r, gridGet G e.1 e.2 = Some (Some r) ->
                        gridGet G' e.1 e.2 = Some (Some r)) as Hkeep.
    { intros e r Hr. eapply gridSet_keeps; [exact Hdfree1|exact Hset|].
      eapply (gridSet_keeps G G1 (x, y)); eauto. }
    assert (gridGet G' d.1 d.2 = Some (Some p)) as Hpd
      by (eapply gridGet_gridSet_eq; eauto).
    eapply Inv_update with (p := p) (c := c) (c' := c'); eauto.
    + apply Alive_energy. exact Hal.
    + eapply dims_gridSet; [|exact Hset]. eapply dims_gridSet; eauto.
    + rewrite (ptrsOf_place _ _ _ _ _ Hdfree1 Hset).
      rewrite (ptrsOf_place _ _ _ _ _ Hfree Hset1).
      apply NoDup_cons_2; [|apply NoDup_cons_2; assumption].
      rewrite not_elem_of_cons. split; [lia|exact Hfresh].
    + intros e r Hr.
      destruct (gridSet_cases _ _ _ _ _ _ Hset Hr) as [[-> Heq]|[Hned Hr1]].
      * inversion Heq; subst r.
        apply placed_old with (src := (x, y)) (c0 := c) (c := c');
          [exact Hp|right; reflexivity| | |exact Hal|right; split; [exact Hadj|exact Hdest]].
        -- eapply update_c0 with (k := (x, y)); eauto.
        -- destruct Ht as (_ & Hp1 & _). exact Hp1.
      * destruct (gridSet_cases G G1 (x, y) _ _ _ Hset1 Hr1) as [[-> Heq]|[Hnek Hr0]].
        -- inversion Heq; subst r.
           apply placed_child with (q := p) (cq0 := c) (cq := c') (dq := d);
             [exact Hlen|right; reflexivity|exact Hp| | |exact Hal|exact Hlb
             |exact Hthr| |exact Hpd|exact Hadj| ].
           ++ eapply update_c0 with (k := (x, y)); eauto.
           ++ destruct Ht as (_ & Hp1 & _). exact Hp1.
           ++ rewrite lookup_app_r by (rewrite length_insert; lia).
              rewrite length_insert, Nat.sub_diag. reflexivity.
           ++ destruct Hdest as [Hn|(f & cf & Hf & Hcf & Hfish & Hshark & _)];
                [left; exact Hn|right; split; [exact Hshark|eauto]].
        -- eapply Placed_keep with (p := p); eauto.
Qed.

End Preservation.

(** ** The loops *)

(** The loop rule, for a family of bodies that all end in the same memory
    (the engine over each way to put a creature into a free cell). *)
Lemma forFrom_family {I : Type} (ok : I -> Prop) (body : I -> Z -> M unit)
    (P : Z -> Mem -> Prop) (n : nat) :
  forall i m,
    P i m ->
    (forall j m1, i <= j < i + Z.of_nat n -> P j m1 ->
       exists m', P (j + 1) m' /\ forall a, ok a -> body a j m1 = Some (tt, m')) ->
    exists m', P (i + Z.of_nat n) m' /\
      forall a, ok a -> forFrom n i (body a) m = Some (tt, m').
Proof.
  induction n as [|n IH]; intros i m HP Hbody.
  - exists m. split; [replace (i + Z.of_nat 0) with i by lia; exact HP|].
    intros a _. reflexivity.
  - destruct (Hbody i m ltac:(lia) HP) as (m1 & HP1 & Hrun1).
    destruct (IH (i + 1) m1 HP1) as (m' & HP' & Hrun).
    { intros j m2 Hj. apply Hbody. lia. }
    exists m'. split.
    + replace (i + Z.of_nat (Datatypes.S n)) with (i + 1 + Z.of_nat n) by lia. exact HP'.
    + intros a Ha. simpl. rewrite (run_bind _ _ _ _ _ (Hrun1 a Ha)).
      apply Hrun. exact Ha.
Qed.

Lemma forRange_family {I : Type} (ok : I -> Prop) (body : I -> Z -> M unit)
    (P : Z -> Mem -> Prop) (N : Z) m :
  0 <= N -> P 0 m ->
  (forall j m1, 0 <= j < N -> P j m1 ->
     exists m', P (j + 1) m' /\ forall a, ok a -> body a j m1 = Some (tt, m')) ->
  exists m', P N m' /\ forall a, ok a -> forRange N (body a) m = Some (tt, m').
Proof.
  intros HN HP Hbody. unfold forRange.
  destruct (forFrom_family ok body P (Z.to_nat N) 0 m HP) as (m' & HP' & Hrun).
  - intros j m1 Hj. apply Hbody. lia.
  - exists m'. split; [|exact Hrun].
    replace N with (0 + Z.of_nat (Z.to_nat N)) by lia. exact HP'.
Qed.

(** ** The invariant along the scan *)

Lemma Inv_ext Gold S FB SB ST h0 (done done' : Z * Z -> Prop) h G :
  (forall d, done d <-> done' d) ->
  Inv Gold S FB SB ST h0 done h G -> Inv Gold S FB SB ST h0 done' h G.
Proof.
  intros Heq [Hlen Hspec Htodo Hframe Hdims Hnodup Hplaced Hsharks].
  constructor; auto.
  - intros d p Hd. apply Htodo. rewrite Heq. exact Hd.
  - intros d p Hp.
    destruct (Hplaced d p Hp)
      as [src c0 c Hsrc Hd Hc0 Hc Hal Hloc
         |r cq0 cq dq Hl Hd Hq Hcq0 Hcq Hal Hlb Hthr Hch Hdq Hadj Hdest].
    + eapply placed_old; eauto. apply Heq; exact Hd.
    + eapply placed_child; eauto. apply Heq; exact Hd.
  - intros src p c0 Hd. apply Hsharks. apply Heq; exact Hd.
Qed.

Lemma ScanInv_ext o n ow h0 ws0 (done done' : Z * Z -> Prop) m :
  (forall d, done d <-> done' d) ->
  ScanInv o n ow h0 ws0 done m -> ScanInv o n ow h0 ws0 done' m.
Proof.
  intros Heq [Hold Hframe Hlen (nw & Hn & ? & ? & ? & ? & HI)].
  constructor; auto. exists nw. do 5 (split; [assumption|]).
  eapply Inv_ext; eauto.
Qed.

Lemma before_next S x y d :
  0 <= x < S -> 0 <= y < S ->
  (before S x y d \/ d = (x, y)) <-> before S x (y + 1) d.
Proof.
  intros Hx Hy. unfold before, inGrid. destruct d as [a b]. simpl. split.
  - intros [H| Heq]; [lia|]. inversion Heq; subst. lia.
  - intros [Hb [Ha|[Ha Hb']]]; [left; lia|].
    destruct (decide (b = y)) as [->|]; [right; congruence|left; lia].
Qed.

Lemma before_row S x d : before S x S d <-> before S (x + 1) 0 d.
Proof. unfold before, inGrid. lia. Qed.

Lemma before_all S d : before S S 0 d <-> inGrid S d.
Proof. unfold before, inGrid. lia. Qed.

Lemma before_none S d : ~ before S 0 0 d.
Proof. unfold before, inGrid. lia. Qed.

Section Scan.

Variables (o n : nat) (ow : World) (h0 : list Creature) (ws0 : list World).
Hypotheses (Hon : o <> n)
           (Hsize : 0 <= Size ow <= max_size)
           (Hdo : dims (Grid ow) (Size ow))
           (Hnd : NoDup (ptrsOf (Grid ow)))
           (Hvalid0 : forall q, q ∈ ptrsOf (Grid ow) -> (q < length h0)%nat).

Local Abbreviation SCAN := (ScanInv o n ow h0 ws0).

Lemma scanCell_inv done x y m :
  SCAN done m -> inGrid (Size ow) (x, y) -> ~ done (x, y) ->
  exists m', SCAN (fun d => done d \/ d = (x, y)) m' /\
    forall put, put_ok put -> scanCell put o n x y m = Some (tt, m').
Proof.
  intros [Hold Hframe Hlen (nw & Hn & HnS & HnF & HnB & HnV & HI)] Hxy Hk.
  assert (1 <= Size ow <= max_size) as HSr
    by (destruct Hxy as [Hx _]; simpl in Hx; lia).
  assert (forall q, q ∈ ptrsOf (Grid ow) -> is_Some (creatures m !! q)) as Hvalid.
  { intros q Hq.
    destruct (lookup_lt_is_Some_2 h0 q (Hvalid0 q Hq)) as [c0 Hc0].
    destruct (inv_species _ _ _ _ _ _ _ _ _ HI q c0 Hc0) as (c & Hc & _). eauto. }
  destruct (scanCell_step o n ow nw (Size ow) x y m Hon Hdo
              (inv_dims _ _ _ _ _ _ _ _ _ HI) eq_refl HSr Hxy Hold Hn Hvalid)
    as (h' & G' & r' & Hstep & Hrun).
  exists (afterStep n nw m h' G' r'). split; [|exact Hrun].
  pose proof (lookup_lt_Some _ _ _ Hn) as Hnlt.
  constructor.
  - simpl. rewrite list_lookup_insert_ne by congruence. exact Hold.
  - intros w Hw. simpl. rewrite list_lookup_insert_ne by congruence.
    apply Hframe; exact Hw.
  - simpl. rewrite length_insert. exact Hlen.
  - exists (setGrid G' nw). simpl.
    rewrite list_lookup_insert_eq by exact Hnlt.
    do 5 (split; [auto|]).
    eapply Inv_step; eauto.
Qed.

(** The inner loop, up to row [y] of column [x]. *)
Lemma column_inv x y m :
  0 <= x < Size ow -> 0 <= y <= Size ow ->
  SCAN (before (Size ow) x 0) m ->
  exists m', SCAN (before (Size ow) x y) m' /\
    forall put, put_ok put ->
      forRange y (fun y' => scanCell put o n x y') m = Some (tt, m').
Proof.
  intros Hx Hy Hrow.
  apply (forRange_family put_ok (fun put y' => scanCell put o n x y')
           (fun y' m => SCAN (before (Size ow) x y') m) y m);
    [lia|exact Hrow|].
  intros y' m2 Hy' Hcell.
  destruct (scanCell_inv _ x y' m2 Hcell) as (m' & Hnext & Hrun).
  - split; simpl; lia.
  - unfold before. simpl. lia.
  - exists m'. split; [|exact Hrun].
    eapply ScanInv_ext; [|exact Hnext]. intros d. apply before_next; lia.
Qed.

(** The outer loop, up to column [x]. *)
Lemma columns_inv x m :
  0 <= x <= Size ow ->
  SCAN (before (Size ow) 0 0) m ->
  exists m', SCAN (before (Size ow) x 0) m' /\
    forall put, put_ok put ->
      forRange x (fun x' => forRange (Size ow) (fun y => scanCell put o n x' y)) m
      = Some (tt, m').
Proof.
  intros Hx H0.
  apply (forRange_family put_ok
           (fun put x' => forRange (Size ow) (fun y => scanCell put o n x' y))
           (fun x' m => SCAN (before (Size ow) x' 0) m) x m);
    [lia|exact H0|].
  intros x' m1 Hx' Hrow.
  destruct (column_inv x' (Size ow) m1 ltac:(lia) ltac:(lia) Hrow)
    as (m' & Hend & Hrun).
  exists m'. split; [|exact Hrun].
  eapply ScanInv_ext; [|exact Hend]. intros d. apply before_row.
Qed.

Lemma scan_inv m :
  SCAN (before (Size ow) 0 0) m ->
  exists m', SCAN (before (Size ow) (Size ow) 0) m' /\
    forall put, put_ok put -> scan put o n (Size ow) m = Some (tt, m').
Proof. intros H0. apply columns_inv; [lia|exact H0]. Qed.

(** The memory when the scan reaches the cell [(x, y)]. *)
Lemma scanUpTo_inv x y m :
  0 <= x < Size ow -> 0 <= y <= Size ow ->
  SCAN (before (Size ow) 0 0) m ->
  exists m', SCAN (before (Size ow) x y) m' /\
    forall put, put_ok put ->
      scanUpTo put o n (Size ow) x y m = Some (tt, m').
Proof.
  intros Hx Hy H0.
  destruct (columns_inv x m ltac:(lia) H0) as (m1 & Hrow & Hrun1).
  destruct (column_inv x y m1 Hx Hy Hrow) as (m' & Hcell & Hrun2).
  exists m'. split; [exact Hcell|].
  intros put Hput. unfold scanUpTo.
  rewrite (run_bind _ _ _ _ _ (Hrun1 put Hput)). apply Hrun2. exact Hput.
Qed.

End Scan.

(** ** processChronon *)

Lemma gridGet_replicate S x y v :
  gridGet (replicate (Z.to_nat S) (replicate (Z.to_nat S) None)) x y = Some v ->
  v = None.
Proof.
  intros (row & _ & _ & Hr & Hv)%gridGet_Some.
  apply lookup_replicate in Hr as [-> _].
  apply lookup_replicate in Hv as [-> _]. reflexivity.
Qed.

Lemma dims_replicate S :
  dims (replicate (Z.to_nat S) (replicate (Z.to_nat S) (@None nat))) S.
Proof.
  split; [apply length_replicate|].
  apply Forall_replicate. apply length_replicate.
Qed.

Lemma ptrsOf_replicate S :
  ptrsOf (replicate (Z.to_nat S) (replicate (Z.to_nat S) None)) = [].
Proof.
  apply elem_of_nil_inv. intros p (x & y & Hp)%elem_of_ptrsOf.
  apply gridGet_replicate in Hp. discriminate.
Qed.

Lemma Inv_start ow h0 :
  Inv (Grid ow) (Size ow) (FishBreed ow) (SharkBreed ow) (Starve ow) h0
      (before (Size ow) 0 0) h0 (Grid (freshWorld ow)).
Proof.
  constructor; simpl.
  - lia.
  - eauto.
  - reflexivity.
  - reflexivity.
  - apply dims_replicate.
  - rewrite ptrsOf_replicate. constructor.
  - intros d p Hp. apply gridGet_replicate in Hp. discriminate.
  - intros src p c0 Hd. destruct (before_none _ _ Hd).
Qed.

Lemma lookup_snoc_new {A : Type} (l : list A) (a : A) :
  (l ++ [a]) !! length l = Some a.
Proof. rewrite lookup_app_r by lia. rewrite Nat.sub_diag. reflexivity. Qed.

Lemma insert_snoc_new {A : Type} (l : list A) (a b : A) :
  <[length l := b]> (l ++ [a]) = l ++ [b].
Proof. rewrite insert_app_r_alt by lia. rewrite Nat.sub_diag. reflexivity. Qed.

Lemma chronon_start m o ow params :
  WellFormed m o ow ->
  forall put,
    processChrononWith put o params m =
    (scan put o (length (worlds m)) (Size ow);; mret (length (worlds m)))
      (scanStart m ow).
Proof.
  intros [Hw Hsize _ _ _] put. unfold processChrononWith.
  pose proof (lookup_lt_Some _ _ _ Hw) as Hlt.
  step (run_loadWorld _ _ _ Hw).
  unfold createWorld. rewrite decide_False by lia.
  set (W0 := mkWorld _ (Size ow) 0 0 0).
  assert (allocWorld W0 m = Some (length (worlds m), withWorlds (worlds m ++ [W0]) m))
    as Halloc by reflexivity.
  step Halloc.
  set (n := length (worlds m)).
  assert (forall W m1, worlds m1 = worlds m ++ [W] ->
            worlds m1 !! o = Some ow /\ worlds m1 !! n = Some W) as Hlook.
  { intros W m1 ->. split; [rewrite lookup_app_l by exact Hlt; exact Hw|].
    apply lookup_snoc_new. }
  assert (forall W m1 f, worlds m1 = worlds m ++ [W] ->
            modifyWorld n f m1 =
            Some (tt, withWorlds (worlds m ++ [f W]) m1)) as Hmod.
  { intros W m1 f Hm1.
    rewrite (run_modifyWorld n f W m1 (proj2 (Hlook W m1 Hm1))).
    rewrite Hm1. unfold n. rewrite insert_snoc_new. reflexivity. }
  set (m1 := withWorlds (worlds m ++ [W0]) m).
  step (run_loadWorld o ow m1 (proj1 (Hlook W0 m1 eq_refl))).
  step (Hmod W0 m1 (setFishBreed (FishBreed ow)) eq_refl).
  set (m2 := withWorlds _ m1).
  step (run_loadWorld o ow m2 (proj1 (Hlook _ m2 eq_refl))).
  step (Hmod _ m2 (setSharkBreed (SharkBreed ow)) eq_refl).
  set (m3 := withWorlds _ m2).
  step (run_loadWorld o ow m3 (proj1 (Hlook _ m3 eq_refl))).
  step (Hmod _ m3 (setStarve (Starve ow)) eq_refl).
  set (m4 := withWorlds _ m3).
  step (run_loadWorld o ow m4 (proj1 (Hlook _ m4 eq_refl))).
  reflexivity.
Qed.

Lemma ScanInv_start m o ow :
  WellFormed m o ow ->
  ScanInv o (length (worlds m)) ow (creatures m) (worlds (scanStart m ow))
          (before (Size ow) 0 0) (scanStart m ow).
Proof.
  intros [Hw Hsize Hdims Hnd Hvalid].
  pose proof (lookup_lt_Some _ _ _ Hw) as Hlt.
  constructor; simpl.
  - rewrite lookup_app_l by exact Hlt. exact Hw.
  - reflexivity.
  - reflexivity.
  - exists (freshWorld ow). rewrite lookup_app_r by lia. rewrite Nat.sub_diag.
    do 5 (split; [reflexivity|]). apply Inv_start.
Qed.

(** One chronon on a well-formed world: the engine returns, with either way
    of putting creatures into cells and in the same memory, and that memory
    satisfies the scan invariant with every cell visited. *)
Theorem chronon_inv m o ow params :
  WellFormed m o ow ->
  exists m',
    ScanInv o (length (worlds m)) ow (creatures m) (worlds (scanStart m ow))
            (inGrid (Size ow)) m' /\
    forall put, put_ok put ->
      processChrononWith put o params m = Some (length (worlds m), m').
Proof.
  intros Hwf. pose proof Hwf as [Hw Hsize Hdims Hnd Hvalid].
  pose proof (lookup_lt_Some _ _ _ Hw) as Hlt.
  destruct (scan_inv o (length (worlds m)) ow (creatures m)
              (worlds (scanStart m ow)) ltac:(lia) Hsize Hdims Hnd Hvalid
              (scanStart m ow) (ScanInv_start m o ow Hwf)) as (m' & Hend & Hrun).
  exists m'. split.
  - eapply ScanInv_ext; [|exact Hend]. intros d. apply before_all.
  - intros put Hput. rewrite (chronon_start m o ow params Hwf).
    rewrite (run_bind _ _ _ _ _ (Hrun put Hput)). reflexivity.
Qed.

(** ** Cutting the scan at a cell *)

Lemma bind_assoc_run {A B C : Type} (a : M A) (f : A -> M B) (g : B -> M C) m :
  ((a ≫= f) ≫= g) m = (a ≫= λ x, f x ≫= g) m.
Proof. unfold mbind, M_bind. destruct (a m) as [[x m1]|]; reflexivity. Qed.

Lemma bind_ext_run {A B : Type} (a a' : M A) (f f' : A -> M B) m :
  a m = a' m -> (forall x m1, f x m1 = f' x m1) -> (a ≫= f) m = (a' ≫= f') m.
Proof.
  intros Ha Hf. unfold mbind, M_bind. rewrite Ha.
  destruct (a' m) as [[x m1]|]; [apply Hf|reflexivity].
Qed.

Lemma forFrom_app n1 n2 i body m :
  forFrom (n1 + n2) i body m =
  (forFrom n1 i body;; forFrom n2 (i + Z.of_nat n1) body) m.
Proof.
  revert i m. induction n1 as [|n1 IH]; intros i m.
  - replace (i + Z.of_nat 0) with i by lia. reflexivity.
  - simpl. rewrite bind_assoc_run. apply bind_ext_run; [reflexivity|].
    intros _ m1. rewrite IH.
    replace (i + 1 + Z.of_nat n1) with (i + Z.of_nat (Datatypes.S n1)) by lia.
    reflexivity.
Qed.

(** A loop is the iterations before [k], the iteration [k] and those after. *)
Lemma forRange_split N k body m :
  0 <= k < N ->
  forRange N body m =
  (forRange k body;; body k;; forFrom (Z.to_nat (N - k - 1)) (k + 1) body) m.
Proof.
  intros Hk. unfold forRange.
  replace (Z.to_nat N) with (Z.to_nat k + Datatypes.S (Z.to_nat (N - k - 1)))%nat by lia.
  rewrite forFrom_app. apply bind_ext_run; [reflexivity|].
  intros _ m1. simpl. replace (0 + Z.of_nat (Z.to_nat k)) with k by lia.
  reflexivity.
Qed.

Lemma scan_split put o n size x y m :
  0 <= x < size -> 0 <= y < size ->
  scan put o n size m =
  (scanUpTo put o n size x y;; scanCell put o n x y;; scanAfter put o n size x y) m.
Proof.
  intros Hx Hy. unfold scan, scanUpTo, scanAfter.
  set (row := fun x' => forRange size (fun y' => scanCell put o n x' y')).
  set (rest := forFrom (Z.to_nat (size - x - 1)) (x + 1) row).
  rewrite (forRange_split size x row m Hx). fold rest.
  rewrite (bind_assoc_run (forRange x row)).
  apply bind_ext_run; [reflexivity|].
  intros _ m1. unfold row at 1.
  transitivity
    (((forRange y (fun y' => scanCell put o n x y');;
       scanCell put o n x y;;
       forFrom (Z.to_nat (size - y - 1)) (y + 1) (fun y' => scanCell put o n x y'));;
      rest) m1).
  - apply bind_ext_run; [|reflexivity].
    apply (forRange_split size y (fun y' => scanCell put o n x y') m1 Hy).
  - rewrite bind_assoc_run. apply bind_ext_run; [reflexivity|].
    intros _ m2. rewrite bind_assoc_run. reflexivity.
Qed.

(** ** Counting *)

Lemma elem_of_allCells S d : d ∈ allCells S <-> inGrid S d.
Proof.
  unfold allCells, inGrid. rewrite list_elem_of_bind. split.
  - intros (x & Hd & Hx). apply list_elem_of_fmap in Hd as (y & -> & Hy).
    apply elem_of_seqZ in Hx, Hy. simpl. lia.
  - intros [Hx Hy]. exists d.1. split.
    + apply list_elem_of_fmap. exists d.2. split; [destruct d; reflexivity|].
      apply elem_of_seqZ. lia.
    + apply elem_of_seqZ. lia.
Qed.

(** A list without repetition whose elements are each related to an
    element of a second list, no two to the same one, is no longer than
    the second list. *)
Lemma length_le_injection {A B : Type} (R : A -> B -> Prop) (l : list A) :
  NoDup l ->
  (forall x x' y, x ∈ l -> x' ∈ l -> R x y -> R x' y -> x = x') ->
  forall k : list B,
    (forall x, x ∈ l -> exists y, y ∈ k /\ R x y) -> (length l <= length k)%nat.
Proof.
  induction 1 as [|x l Hx Hnd IH]; intros Hinj k Hrel; simpl; [lia|].
  destruct (Hrel x) as (y & Hy & Hxy); [left|].
  apply list_elem_of_split in Hy as (k1 & k2 & ->).
  rewrite length_app. simpl.
  assert (length l <= length (k1 ++ k2))%nat as Hle.
  { apply IH.
    - intros a a' b Ha Ha'. apply Hinj; right; assumption.
    - intros a Ha. destruct (Hrel a) as (b & Hb & Hab); [right; exact Ha|].
      exists b. split; [|exact Hab].
      rewrite elem_of_app in Hb. rewrite elem_of_cons in Hb. rewrite elem_of_app.
      destruct Hb as [Hb|[->|Hb]]; [left; exact Hb| |right; exact Hb].
      exfalso. apply Hx.
      rewrite (Hinj x a y); [exact Ha|left|right; exact Ha|exact Hxy|exact Hab]. }
  rewrite length_app in Hle. lia.
Qed.

Lemma length_filter_split {A : Type} (P Q : A -> Prop)
    `{forall x, Decision (P x)} `{forall x, Decision (Q x)} (l : list A) :
  length (filter P l) =
  (length (filter (λ x, P x /\ Q x) l) + length (filter (λ x, P x /\ ~ Q x) l))%nat.
Proof.
  induction l as [|a l IH]; [reflexivity|].
  rewrite !filter_cons.
  destruct (decide (P a)) as [HP|HP], (decide (Q a)) as [HQ|HQ].
  - rewrite decide_True by tauto. rewrite decide_False by tauto. simpl. lia.
  - rewrite decide_False by tauto. rewrite decide_True by tauto. simpl. lia.
  - rewrite !decide_False by tauto. exact IH.
  - rewrite !decide_False by tauto. exact IH.
Qed.

(** ** One chronon *)

(** [processChronon] returns on every well-formed world, the engine over
    the failing [set] returns the same, and the result satisfies the scan
    invariant with every cell visited. *)
Lemma chronon_result m o ow params :
  WellFormed m o ow ->
  exists m' nw,
    processChronon o params m = Some (length (worlds m), m') /\
    processChrononStrict o params m = Some (length (worlds m), m') /\
    ChrononResult m o ow m' nw.
Proof.
  intros Hwf. pose proof (wf_world _ _ _ Hwf) as Hw.
  pose proof (lookup_lt_Some _ _ _ Hw) as Hlt.
  destruct (chronon_inv m o ow params Hwf) as (m' & Hscan & Hrun).
  destruct Hscan as [Hold Hframe Hlen (nw & Hn & HS & HF & HB & HV & HI)].
  exists m', nw. split; [|split].
  - apply Hrun, place_ok.
  - apply Hrun, placeStrict_ok.
  - constructor; auto.
    intros w Hw'. rewrite Hframe by lia. simpl. apply lookup_app_l. exact Hw'.
Qed.

(** The world a chronon produces is well-formed again. *)
Lemma chronon_WellFormed m o ow m' nw :
  WellFormed m o ow -> ChrononResult m o ow m' nw ->
  WellFormed m' (length (worlds m)) nw.
Proof.
  intros Hwf [Hnew Hold Hframe HS HF HB HV HI].
  constructor.
  - exact Hnew.
  - rewrite HS. exact (wf_size _ _ _ Hwf).
  - rewrite HS. exact (inv_dims _ _ _ _ _ _ _ _ _ HI).
  - exact (inv_nodup _ _ _ _ _ _ _ _ _ HI).
  - intros q Hq.
    eapply Inv_placed_lt; [exact HI|exact Hq].
Qed.

(** * Properties of one chronon *)

(** ** Adjacency (C7, C10) *)

Lemma west_value x size :
  1 <= size -> 0 <= x < size ->
  (x - 1 + size) mod size = if decide (x = 0) then size - 1 else x - 1.
Proof.
  intros Hs Hx. destruct (decide (x = 0)) as [->|Hne].
  - replace (0 - 1 + size) with (size - 1) by lia. apply Z.mod_small. lia.
  - replace (x - 1 + size) with (x - 1 + 1 * size) by lia.
    rewrite Z_mod_plus_full. apply Z.mod_small. lia.
Qed.

Lemma east_value x size :
  1 <= size -> 0 <= x < size ->
  (x + 1) mod size = if decide (x = size - 1) then 0 else x + 1.
Proof.
  intros Hs Hx. destruct (decide (x = size - 1)) as [->|Hne].
  - replace (size - 1 + 1) with size by lia. apply Z_mod_same_full.
  - apply Z.mod_small. lia.
Qed.

Lemma wrap_wrap_add a b : GoInt.wrap (GoInt.wrap a + b) = GoInt.wrap (a + b).
Proof.
  unfold GoInt.wrap. f_equal.
  replace ((a + 2 ^ 63) mod 2 ^ 64 - 2 ^ 63 + b + 2 ^ 63)
    with ((a + 2 ^ 63) mod 2 ^ 64 + b) by lia.
  rewrite Zplus_mod_idemp_l. f_equal. lia.
Qed.

Lemma rem_is_Some a size : size <> 0 -> exists v, GoInt.rem a size = Some v.
Proof. intros Hs. unfold GoInt.rem. rewrite decide_False by exact Hs. eauto. Qed.

(** C7, as stated, fails: on a grid of size 1 the neighbours of (0,0) are
    four times (0,0) and (1,0) is not among them; and for a size above
    2^62 the sum [x - 1 + size] leaves [int], so that the west neighbour of
    an in-range cell is a negative number. *)
Lemma C7_counterexample :
  (getAdjacentPositions 0 0 1 = Some [(0, 0); (0, 0); (0, 0); (0, 0)] /\
   (1, 0) ∉ [(0, 0); (0, 0); (0, 0); (0, 0)]) /\
  (1 <= 2 ^ 63 - 1 /\ 0 <= 2 ^ 63 - 2 < 2 ^ 63 - 1 /\
   getAdjacentPositions (2 ^ 63 - 2) 0 (2 ^ 63 - 1) =
     Some [(-4, 0); (0, 0); (2 ^ 63 - 2, 2 ^ 63 - 2); (2 ^ 63 - 2, 1)] /\
   neighbors_spec (2 ^ 63 - 2) 0 (2 ^ 63 - 1) =
     [(2 ^ 63 - 3, 0); (0, 0); (2 ^ 63 - 2, 2 ^ 63 - 2); (2 ^ 63 - 2, 1)]).
Proof.
  split; [split|].
  - vm_compute. reflexivity.
  - intros H. repeat (apply elem_of_cons in H as [H|H]; [discriminate H|]).
    inversion H.
  - repeat split; try (vm_compute; congruence); vm_compute; reflexivity.
Qed.

(** C7, amended: for [0 <= x, y < size] and [1 <= size <= 2^62] the
    resolver returns (it does not panic) exactly west, east, north, south
    with the mathematical [mod], all four inside the grid; and for
    [N >= 2] the neighbours of (0,0) are (N-1,0), (1,0), (0,N-1), (0,1). *)
Theorem C7_adjacent_positions (x y size : Z) :
  1 <= size <= max_size -> 0 <= x < size -> 0 <= y < size ->
  getAdjacentPositions x y size =
    Some [((x - 1 + size) mod size, y); ((x + 1) mod size, y);
          (x, (y - 1 + size) mod size); (x, (y + 1) mod size)] /\
  (forall d, d ∈ neighbors_spec x y size -> inGrid size d) /\
  (2 <= size ->
   getAdjacentPositions 0 0 size =
     Some [(size - 1, 0); (1, 0); (0, size - 1); (0, 1)]).
Proof.
  intros Hs Hx Hy. split; [|split].
  - apply getAdjacentPositions_spec; assumption.
  - intros d Hd. apply (neighbors_inGrid x y size d); [lia|assumption..].
  - intros H2. rewrite getAdjacentPositions_spec by lia.
    unfold neighbors_spec.
    rewrite (west_value 0 size), (east_value 0 size) by lia.
    rewrite decide_True by reflexivity. rewrite decide_False by lia.
    reflexivity.
Qed.

Lemma C7_adjacent_positions_witness :
  1 <= 3 <= max_size /\ 0 <= 0 < 3 /\
  getAdjacentPositions 0 0 3 = Some [(2, 0); (1, 0); (0, 2); (0, 1)].
Proof.
  assert (1 <= 3 <= max_size) as Hs by (unfold max_size; lia).
  split; [exact Hs|]. split; [lia|].
  exact (proj1 (C7_adjacent_positions 0 0 3 Hs ltac:(lia) ltac:(lia))).
Defined.

(** C10, as stated, fails: for size 0 the resolver panics and returns
    nothing; for size 1 the entries equal (x, y) only for the cell (0,0) of
    the grid; and for the size (2^64 + 2) / 3, above 2^62, the west and the
    east neighbour of the last column coincide. *)
Lemma C10_counterexample :
  getAdjacentPositions 0 0 0 = None /\
  getAdjacentPositions 5 0 1 = Some [(0, 0); (0, 0); (5, 0); (5, 0)] /\
  (3 <= 6148914691236517206 /\
   0 <= 6148914691236517205 < 6148914691236517206 /\
   getAdjacentPositions 6148914691236517205 0 6148914691236517206 =
     Some [(0, 0); (0, 0);
           (6148914691236517205, 6148914691236517205);
           (6148914691236517205, 1)]).
Proof.
  split; [|split]; [vm_compute; reflexivity..|].
  split; [lia|]. split; [lia|]. vm_compute. reflexivity.
Qed.

(** C10, amended: for every size but 0 the resolver returns exactly four
    positions; for size 1 and the cell (0,0) all four are (0,0); for size 2
    west and east coincide and north and south coincide; for
    [3 <= size <= 2^62] and a cell of the grid the four positions are
    pairwise distinct and differ from the cell. *)
Theorem C10_adjacent_duplicates (x y size : Z) :
  (size <> 0 ->
   exists w e n s, getAdjacentPositions x y size = Some [w; e; n; s]) /\
  getAdjacentPositions 0 0 1 = Some [(0, 0); (0, 0); (0, 0); (0, 0)] /\
  (exists w n, getAdjacentPositions x y 2 = Some [w; w; n; n]) /\
  (3 <= size <= max_size -> 0 <= x < size -> 0 <= y < size ->
   exists l, getAdjacentPositions x y size = Some l /\
     length l = 4%nat /\ NoDup l /\ (x, y) ∉ l).
Proof.
  split; [|split; [|split]].
  - intros Hs. unfold getAdjacentPositions.
    destruct (rem_is_Some (GoInt.add (GoInt.sub x 1) size) size Hs) as [w ->].
    destruct (rem_is_Some (GoInt.add x 1) size Hs) as [e ->].
    destruct (rem_is_Some (GoInt.add (GoInt.sub y 1) size) size Hs) as [n ->].
    destruct (rem_is_Some (GoInt.add y 1) size Hs) as [s ->].
    simpl. eauto.
  - vm_compute. reflexivity.
  - unfold getAdjacentPositions, GoInt.add, GoInt.sub.
    rewrite !wrap_wrap_add.
    replace (x - 1 + 2) with (x + 1) by lia.
    replace (y - 1 + 2) with (y + 1) by lia.
    unfold GoInt.rem. rewrite !decide_False by lia. simpl. eauto.
  - intros Hs Hx Hy. exists (neighbors_spec x y size).
    split; [apply getAdjacentPositions_spec; lia|].
    split; [reflexivity|].
    unfold neighbors_spec.
    rewrite (west_value x size), (east_value x size),
            (west_value y size), (east_value y size) by lia.
    split.
    + repeat (apply NoDup_cons_2; [rewrite ?not_elem_of_cons|]);
        try apply NoDup_nil_2;
        repeat split; try apply not_elem_of_nil;
        intros Heq; inversion Heq; repeat case_decide; lia.
    + rewrite !not_elem_of_cons.
      repeat split; try apply not_elem_of_nil;
        intros Heq; inversion Heq; repeat case_decide; lia.
Qed.

Lemma C10_adjacent_duplicates_witness :
  3 <= 3 <= max_size /\ 0 <= 1 < 3 /\
  exists l, getAdjacentPositions 1 1 3 = Some l /\
    length l = 4%nat /\ NoDup l /\ (1, 1) ∉ l.
Proof.
  assert (3 <= 3 <= max_size) as Hs by (unfold max_size; lia).
  split; [exact Hs|]. split; [lia|].
  exact (proj2 (proj2 (proj2 (C10_adjacent_duplicates 1 1 3))) Hs
           ltac:(lia) ltac:(lia)).
Defined.

(** ** The old grid and the new one (C1, C2) *)

(** C1, as stated, fails: the creatures are shared between the two grids
    and [processChronon] updates them in place.  A 1x1 world with one fish
    of age 0: after the chronon the old grid still refers to creature 0,
    whose age and breed timer are now 1. *)
Lemma C1_counterexample :
  exists m',
    processChronon 0%nat (mkParams 0 0 3 10 5 1)
      (mkMem [mkCreature Fish 0 0 0] [mkWorld [[Some 0%nat]] 1 3 10 5] [])
    = Some (1%nat, m') /\
    (Grid <$> worlds m' !! 0%nat) = Some [[Some 0%nat]] /\
    creatures m' !! 0%nat = Some (mkCreature Fish 1 0 1).
Proof. eexists. split; [vm_compute; reflexivity|]. split; reflexivity. Qed.

(** C1, amended: on every well-formed world [processChronon] returns a
    world it has just allocated and writes the grid of that world only:
    the old world, with every cell of its grid, and every other world are
    what they were; every creature keeps its species and the creatures the
    old grid does not refer to are unchanged.  (The creatures the old grid
    refers to are updated in place.) *)
Theorem C1_old_grid_frame m o ow params :
  WellFormed m o ow ->
  exists m',
    processChronon o params m = Some (length (worlds m), m') /\
    o <> length (worlds m) /\
    worlds m' !! o = Some ow /\
    (forall w, (w < length (worlds m))%nat -> worlds m' !! w = worlds m !! w) /\
    (forall p c0, creatures m !! p = Some c0 ->
       exists c, creatures m' !! p = Some c /\ species c = species c0) /\
    (forall p, (p < length (creatures m))%nat -> p ∉ ptrsOf (Grid ow) ->
       creatures m' !! p = creatures m !! p).
Proof.
  intros Hwf.
  destruct (chronon_result m o ow params Hwf) as (m' & nw & Hrun & _ & Hres).
  destruct Hres as [Hnew Hold Hframe _ _ _ _ HI].
  exists m'. split; [exact Hrun|]. split; [|split; [exact Hold|split; [exact Hframe|split]]].
  - pose proof (lookup_lt_Some _ _ _ (wf_world _ _ _ Hwf)). lia.
  - exact (inv_species _ _ _ _ _ _ _ _ _ HI).
  - exact (inv_frame _ _ _ _ _ _ _ _ _ HI).
Qed.

Lemma sample_WellFormed : WellFormed sampleMem 0%nat sampleWorld.
Proof.
  constructor.
  - reflexivity.
  - unfold max_size. simpl. lia.
  - split; [reflexivity|]. repeat constructor.
  - apply NoDup_cons_2; [|apply NoDup_cons_2; [|apply NoDup_nil_2]].
    + intros H. apply elem_of_cons in H as [H|H]; [discriminate|inversion H].
    + intros H. inversion H.
  - intros q Hq. simpl.
    repeat (apply elem_of_cons in Hq as [->|Hq]; [lia|]). inversion Hq.
Defined.

Lemma C1_old_grid_frame_witness :
  WellFormed sampleMem 0%nat sampleWorld /\
  exists m',
    processChronon 0%nat (mkParams 0 0 3 10 5 2) sampleMem = Some (1%nat, m') /\
    worlds m' !! 0%nat = Some sampleWorld.
Proof.
  split; [exact sample_WellFormed|].
  destruct (C1_old_grid_frame sampleMem 0%nat sampleWorld (mkParams 0 0 3 10 5 2)
              sample_WellFormed) as (m' & Hrun & _ & Hold & _).
  exists m'. split; [exact Hrun|exact Hold].
Defined.

(** C2: on every well-formed world the engine over the failing [set] of
    the Grid contract returns, and returns what [processChronon] returns:
    no placement meets an occupied cell.  In the new grid no creature is
    in two cells (a cell holds one reference at most). *)
Theorem C2_single_occupancy m o ow params :
  WellFormed m o ow ->
  exists m' nw,
    processChronon o params m = Some (length (worlds m), m') /\
    processChrononStrict o params m = Some (length (worlds m), m') /\
    worlds m' !! length (worlds m) = Some nw /\
    NoDup (ptrsOf (Grid nw)) /\
    (forall p x y x' y',
       gridGet (Grid nw) x y = Some (Some p) ->
       gridGet (Grid nw) x' y' = Some (Some p) -> (x', y') = (x, y)).
Proof.
  intros Hwf.
  destruct (chronon_result m o ow params Hwf) as (m' & nw & Hrun & Hstrict & Hres).
  pose proof (inv_nodup _ _ _ _ _ _ _ _ _ (cr_inv _ _ _ _ _ Hres)) as Hnd.
  exists m', nw. split; [exact Hrun|]. split; [exact Hstrict|].
  split; [exact (cr_new _ _ _ _ _ Hres)|]. split; [exact Hnd|].
  intros p x y x' y'. apply NoDup_ptrsOf_inj. exact Hnd.
Qed.

Lemma C2_single_occupancy_witness :
  WellFormed sampleMem 0%nat sampleWorld /\
  exists m',
    processChronon 0%nat (mkParams 0 0 3 10 5 2) sampleMem = Some (1%nat, m') /\
    processChrononStrict 0%nat (mkParams 0 0 3 10 5 2) sampleMem = Some (1%nat, m').
Proof.
  split; [exact sample_WellFormed|].
  destruct (C2_single_occupancy sampleMem 0%nat sampleWorld (mkParams 0 0 3 10 5 2)
              sample_WellFormed) as (m' & nw & Hrun & Hstrict & _).
  exists m'. split; [exact Hrun|exact Hstrict].
Defined.

(** ** Sharks (C4, C9) *)

(** C9: when the starvation threshold is at least 1, every shark of the new
    grid has at least 1 of energy, whatever the energies in the old grid. *)
Theorem C9_sharks_have_energy m o ow params :
  WellFormed m o ow -> 1 <= Starve ow ->
  exists m' nw,
    processChronon o params m = Some (length (worlds m), m') /\
    worlds m' !! length (worlds m) = Some nw /\
    forall p c, p ∈ ptrsOf (Grid nw) -> creatures m' !! p = Some c ->
      species c = Shark -> 1 <= Energy c.
Proof.
  intros Hwf Hst.
  destruct (chronon_result m o ow params Hwf) as (m' & nw & Hrun & _ & Hres).
  exists m', nw. split; [exact Hrun|]. split; [exact (cr_new _ _ _ _ _ Hres)|].
  intros p c (x & y & Hp)%elem_of_ptrsOf Hc Hshark.
  destruct (inv_placed _ _ _ _ _ _ _ _ _ (cr_inv _ _ _ _ _ Hres) (x, y) p Hp)
    as [src c0 c1 _ _ _ Hc1 Hal _|q cq0 cq dq _ _ _ _ _ _ _ _ Hch _ _ _].
  - rewrite Hc in Hc1. inversion Hc1; subst c1.
    destruct Hal as (Hsp & _ & [[Hf _]|(_ & Hpos & [He|He])]); [congruence|lia|lia].
  - rewrite Hc in Hch. inversion Hch; subst c. simpl in *.
    rewrite Hshark. exact Hst.
Qed.

Lemma C9_sharks_have_energy_witness :
  WellFormed sampleMem 0%nat sampleWorld /\ 1 <= Starve sampleWorld /\
  exists m' nw,
    processChronon 0%nat (mkParams 0 0 3 10 5 2) sampleMem = Some (1%nat, m') /\
    worlds m' !! 1%nat = Some nw /\
    forall p c, p ∈ ptrsOf (Grid nw) -> creatures m' !! p = Some c ->
      species c = Shark -> 1 <= Energy c.
Proof.
  split; [exact sample_WellFormed|].
  assert (1 <= Starve sampleWorld) as Hst by (simpl; lia).
  split; [exact Hst|].
  exact (C9_sharks_have_energy sampleMem 0%nat sampleWorld (mkParams 0 0 3 10 5 2)
           sample_WellFormed Hst).
Defined.

(** A shark of the old grid ends the chronon with its energy decremented,
    or reset to the threshold by a meal; the one whose decremented energy
    is not positive is in no cell of the new grid. *)
Lemma sharks_after_chronon m o ow m' nw :
  WellFormed m o ow -> ChrononResult m o ow m' nw ->
  forall x y p c0,
    gridGet (Grid ow) x y = Some (Some p) -> creatures m !! p = Some c0 ->
    species c0 = Shark ->
    exists c, creatures m' !! p = Some c /\
      (Energy c = GoInt.sub (Energy c0) 1 \/
       (0 < GoInt.sub (Energy c0) 1 /\ Energy c = Starve ow)) /\
      (GoInt.sub (Energy c0) 1 <= 0 ->
       Energy c = GoInt.sub (Energy c0) 1 /\ p ∉ ptrsOf (Grid nw)).
Proof.
  intros Hwf Hres x y p c0 Hp Hc0 Hshark.
  pose proof (cr_inv _ _ _ _ _ Hres) as HI.
  pose proof (gridGet_inGrid _ _ _ _ _ (wf_dims _ _ _ Hwf) Hp) as Hin.
  destruct (inv_sharks _ _ _ _ _ _ _ _ _ HI (x, y) p c0 Hin Hp Hc0 Hshark)
    as (c & Hc & Hen).
  exists c. split; [exact Hc|]. split; [exact Hen|].
  intros Hdead. split; [destruct Hen as [He|[Hpos _]]; [exact He|lia]|].
  intros (a & b & Hq)%elem_of_ptrsOf.
  destruct (inv_placed _ _ _ _ _ _ _ _ _ HI (a, b) p Hq)
    as [src c0' c1 Hsrc _ Hc0' _ Hal _|q cq0 cq dq Hlen _ _ _ _ _ _ _ _ _ _ _].
  - rewrite Hc0 in Hc0'. inversion Hc0'; subst c0'.
    destruct Hal as (_ & _ & [[Hf _]|(_ & Hpos & _)]); [congruence|lia].
  - pose proof (lookup_lt_Some _ _ _ Hc0). lia.
Qed.

(** C4: every shark of the old grid has its energy decremented by 1 (and,
    when it then eats, reset to the threshold); when the decremented
    energy is not positive the shark is in no cell of the new grid.  On a
    1x1 grid holding one shark of energy 1 the new grid is empty, whatever
    the thresholds, the parameters and the random numbers. *)
Theorem C4_starvation m o ow params :
  WellFormed m o ow ->
  (exists m' nw,
     processChronon o params m = Some (length (worlds m), m') /\
     worlds m' !! length (worlds m) = Some nw /\
     forall x y p c0,
       gridGet (Grid ow) x y = Some (Some p) -> creatures m !! p = Some c0 ->
       species c0 = Shark ->
       exists c, creatures m' !! p = Some c /\
         (Energy c = GoInt.sub (Energy c0) 1 \/
          (0 < GoInt.sub (Energy c0) 1 /\ Energy c = Starve ow)) /\
         (GoInt.sub (Energy c0) 1 <= 0 ->
          Energy c = GoInt.sub (Energy c0) 1 /\ p ∉ ptrsOf (Grid nw))) /\
  (forall age timer fb sb st ps rs,
     processChronon 0%nat ps
       (mkMem [mkCreature Shark age 1 timer] [mkWorld [[Some 0%nat]] 1 fb sb st] rs)
     = Some (1%nat,
             mkMem [mkCreature Shark (GoInt.add age 1) 0 (GoInt.add timer 1)]
                   [mkWorld [[Some 0%nat]] 1 fb sb st; mkWorld [[None]] 1 fb sb st]
                   rs)).
Proof.
  intros Hwf. split.
  - destruct (chronon_result m o ow params Hwf) as (m' & nw & Hrun & _ & Hres).
    exists m', nw. split; [exact Hrun|]. split; [exact (cr_new _ _ _ _ _ Hres)|].
    apply (sharks_after_chronon m o ow m' nw Hwf Hres).
  - intros age timer fb sb st ps rs. reflexivity.
Qed.

Lemma C4_starvation_witness :
  WellFormed sampleMem 0%nat sampleWorld /\
  exists m' nw,
    processChronon 0%nat (mkParams 0 0 3 10 5 2) sampleMem = Some (1%nat, m') /\
    worlds m' !! 1%nat = Some nw.
Proof.
  split; [exact sample_WellFormed|].
  destruct (proj1 (C4_starvation sampleMem 0%nat sampleWorld (mkParams 0 0 3 10 5 2)
                     sample_WellFormed)) as (m' & nw & Hrun & Hnew & _).
  exists m', nw. split; [exact Hrun|exact Hnew].
Defined.

(** ** Reproduction (C6) *)

(** A creature the chronon has created sits in the cell its parent lived
    in; the parent sits in a neighbouring cell of the new grid, and both
    have their breed timer at 0. *)
Lemma children_after_chronon m o ow m' nw :
  ChrononResult m o ow m' nw ->
  forall x y p,
    gridGet (Grid nw) x y = Some (Some p) -> (length (creatures m) <= p)%nat ->
    exists q dq cp cq,
      gridGet (Grid ow) x y = Some (Some q) /\
      dq ∈ neighbors_spec x y (Size ow) /\
      gridGet (Grid nw) dq.1 dq.2 = Some (Some q) /\
      creatures m' !! p = Some cp /\ creatures m' !! q = Some cq /\
      LastBreed cp = 0 /\ LastBreed cq = 0 /\
      Age cp = 0 /\ species cp = species cq.
Proof.
  intros Hres x y p Hp Hnew.
  destruct (inv_placed _ _ _ _ _ _ _ _ _ (cr_inv _ _ _ _ _ Hres) (x, y) p Hp)
    as [src c0 c1 _ _ Hc0 _ _ _
       |q cq0 cq dq _ _ Hq Hcq0 Hcq Hal Hlb _ Hch Hdq Hadj _].
  - pose proof (lookup_lt_Some _ _ _ Hc0). lia.
  - exists q, dq, (childOf (Starve ow) (species cq0)), cq.
    destruct Hal as (Hsp & _).
    repeat split; auto.
Qed.

(** *** The scenario of C6: a fish alone on a 3x3 grid *)

Lemma loneFish_WellFormed age energy sb st rs :
  WellFormed (loneFishMem age energy sb st rs) 0%nat (loneFishWorld sb st).
Proof.
  constructor.
  - reflexivity.
  - unfold max_size. simpl. lia.
  - split; [reflexivity|]. repeat constructor.
  - apply NoDup_cons_2; [|apply NoDup_nil_2]. intros H. inversion H.
  - intros q Hq. simpl.
    repeat (apply elem_of_cons in Hq as [->|Hq]; [lia|]). inversion Hq.
Qed.

Lemma loneFish_breeds age energy sb st ps rs :
  exists d G' rs',
    d ∈ neighbors_spec 1 1 3 /\
    gridSet [[None; None; None]; [None; Some 1%nat; None]; [None; None; None]]
            d.1 d.2 (Some 0%nat) = Some G' /\
    processChronon 0%nat ps (loneFishMem age energy sb st rs)
    = Some (1%nat,
            mkMem [mkCreature Fish (GoInt.add age 1) energy 0; mkCreature Fish 0 0 0]
                  [loneFishWorld sb st; mkWorld G' 3 0 sb st] rs').
Proof.
  set (m := loneFishMem age energy sb st rs).
  set (ow := loneFishWorld sb st).
  pose proof (loneFish_WellFormed age energy sb st rs) as Hwf. fold m ow in Hwf.
  set (m1 := scanStart m ow).
  assert (scanUpTo place 0%nat 1%nat 3 1 1 m1 = Some (tt, m1)) as Hprefix by reflexivity.
  destruct (scanCell_step 0%nat 1%nat ow (freshWorld ow) 3 1 1 m1)
    as (h' & G' & r' & Hstep & Hrun).
  { lia. }
  { exact (wf_dims _ _ _ Hwf). }
  { apply dims_replicate. }
  { reflexivity. }
  { unfold max_size. lia. }
  { split; simpl; lia. }
  { reflexivity. }
  { reflexivity. }
  { intros q Hq. pose proof (wf_valid _ _ _ Hwf q Hq) as Hlt.
    apply lookup_lt_is_Some_2. exact Hlt. }
  specialize (Hrun place place_ok).
  assert (forall mend,
            scanAfter place 0%nat 1%nat 3 1 1 (afterStep 1%nat (freshWorld ow) m1 h' G' r')
            = Some (tt, mend) ->
            processChronon 0%nat ps m = Some (1%nat, mend)) as Hfinish.
  { intros mend Hsuffix. unfold processChronon.
    rewrite (chronon_start m 0%nat ow ps Hwf place).
    change (length (worlds m)) with 1%nat. change (Size ow) with 3. fold m1.
    assert (scan place 0%nat 1%nat 3 m1 = Some (tt, mend)) as Hscan.
    { rewrite (scan_split place 0%nat 1%nat 3 1 1 m1) by lia.
      rewrite (run_bind _ _ _ _ _ Hprefix). rewrite (run_bind _ _ _ _ _ Hrun).
      exact Hsuffix. }
    rewrite (run_bind _ _ _ _ _ Hscan). reflexivity. }
  clear Hrun Hprefix.
  assert (forall e, e ∈ neighbors_spec 1 1 3 ->
            e = (0, 1) \/ e = (2, 1) \/ e = (1, 0) \/ e = (1, 2)) as Hneigh.
  { intros e He. vm_compute in He.
    repeat (apply elem_of_cons in He as [->|He]; [tauto|]). inversion He. }
  destruct Hstep as [Hnone|f q Hf Hq|p c c' Hp Hfree Hc Hsp Hage Hwhy
                    |p c c' d G'' Hp Hfree Hc Hal Hlb Hlegal Hmust Hset
                    |p c c' d G1 G'' Hp Hfree Hc Hal Hlb Hthr Hlegal Hne Hset1 Hset].
  - vm_compute in Hnone. discriminate.
  - vm_compute in Hq. discriminate.
  - vm_compute in Hp. inversion Hp; subst p.
    simpl in Hc. inversion Hc; subst c. simpl in Hwhy.
    destruct Hwhy as [?|[? _]]; discriminate.
  - exfalso. vm_compute in Hp. inversion Hp; subst p.
    simpl in Hc. inversion Hc; subst c.
    destruct Hlegal as [-> _ Hnofree _|Hadj HdO HdN _|f cf _ _ _ _ _ Hshark _].
    + specialize (Hnofree (0, 1) ltac:(vm_compute; left)).
      vm_compute in Hnofree. discriminate.
    + assert (d <> (1, 1)) as Hd by (intros ->; vm_compute in HdO; discriminate).
      specialize (Hmust Hd). rewrite Hlb in Hmust. vm_compute in Hmust. discriminate.
    + destruct Hal as (Hsp & _). simpl in Hsp. congruence.
  - vm_compute in Hp. inversion Hp; subst p.
    simpl in Hc. inversion Hc; subst c.
    destruct Hal as (Hsp & Hage & [[_ Hen]|[Hs _]]); [|discriminate Hs].
    simpl in Hsp, Hage, Hen.
    assert (c' = mkCreature Fish (GoInt.add age 1) energy 0) as ->
      by (destruct c'; simpl in *; congruence).
    vm_compute in Hset1. inversion Hset1; subst G1. clear Hset1.
    assert (d ∈ neighbors_spec 1 1 3) as Hadj
      by (destruct Hlegal as [Heq _ _ _|Hadj _ _ _|f cf Hadj _ _ _ _ _ _];
          [contradiction|exact Hadj|exact Hadj]).
    exists d, G'', r'. split; [exact Hadj|]. split; [exact Hset|].
    apply Hfinish.
    destruct (Hneigh d Hadj) as [->|[->|[->| ->]]];
      vm_compute in Hset; inversion Hset; subst G''; reflexivity.
Qed.

(** C6: whenever a creature reproduces, the child (the creature created in
    the chronon, left in the parent's cell) and the parent (moved to a
    neighbouring cell) both have their breed timer at 0 in the new grid.
    On a 3x3 grid with one fish at (1,1), its timer at the threshold 0, the
    new grid holds exactly two fish, whatever the random numbers: the
    child at (1,1) with age 0 and timer 0, the parent in a neighbour of
    (1,1) with timer 0. *)
Theorem C6_reproduction m o ow params :
  WellFormed m o ow ->
  (exists m' nw,
     processChronon o params m = Some (length (worlds m), m') /\
     worlds m' !! length (worlds m) = Some nw /\
     forall x y p,
       gridGet (Grid nw) x y = Some (Some p) -> (length (creatures m) <= p)%nat ->
       exists q dq cp cq,
         gridGet (Grid ow) x y = Some (Some q) /\
         dq ∈ neighbors_spec x y (Size ow) /\
         gridGet (Grid nw) dq.1 dq.2 = Some (Some q) /\
         creatures m' !! p = Some cp /\ creatures m' !! q = Some cq /\
         LastBreed cp = 0 /\ LastBreed cq = 0 /\
         Age cp = 0 /\ species cp = species cq) /\
  (forall age energy sb st ps rs,
     exists d G' rs',
       d ∈ neighbors_spec 1 1 3 /\
       gridSet [[None; None; None]; [None; Some 1%nat; None]; [None; None; None]]
               d.1 d.2 (Some 0%nat) = Some G' /\
       processChronon 0%nat ps (loneFishMem age energy sb st rs)
       = Some (1%nat,
               mkMem [mkCreature Fish (GoInt.add age 1) energy 0;
                      mkCreature Fish 0 0 0]
                     [loneFishWorld sb st; mkWorld G' 3 0 sb st] rs')).
Proof.
  intros Hwf. split.
  - destruct (chronon_result m o ow params Hwf) as (m' & nw & Hrun & _ & Hres).
    exists m', nw. split; [exact Hrun|]. split; [exact (cr_new _ _ _ _ _ Hres)|].
    apply (children_after_chronon m o ow m' nw Hres).
  - apply loneFish_breeds.
Qed.

Lemma C6_reproduction_witness :
  WellFormed sampleMem 0%nat sampleWorld /\
  exists m' nw,
    processChronon 0%nat (mkParams 0 0 3 10 5 2) sampleMem = Some (1%nat, m') /\
    worlds m' !! 1%nat = Some nw.
Proof.
  split; [exact sample_WellFormed|].
  destruct (proj1 (C6_reproduction sampleMem 0%nat sampleWorld (mkParams 0 0 3 10 5 2)
                     sample_WellFormed)) as (m' & nw & Hrun & Hnew & _).
  exists m', nw. split; [exact Hrun|exact Hnew].
Defined.

(** ** Conservation (C3) *)

Section Census.

Variables (m : Mem) (o : nat) (ow : World) (m' : Mem) (nw : World).
Hypotheses (Hwf : WellFormed m o ow) (Hres : ChrononResult m o ow m' nw).

Local Abbreviation eligible :=
  (breeder timerAfter (Size ow) (FishBreed ow) (SharkBreed ow)
           (creatures m) (Grid ow)).

(** A creature created in the chronon sits in the cell of a creature of
    its species that was due to breed and had somewhere to go. *)
Lemma child_of_breeder x y p c :
  gridGet (Grid nw) x y = Some (Some p) -> (length (creatures m) <= p)%nat ->
  creatures m' !! p = Some c ->
  inGrid (Size ow) (x, y) /\ eligible (species c) (x, y) = true.
Proof.
  intros Hp Hnew Hc.
  destruct (inv_placed _ _ _ _ _ _ _ _ _ (cr_inv _ _ _ _ _ Hres) (x, y) p Hp)
    as [src c0 c1 _ _ Hc0 _ _ _
       |q cq0 cq dq _ Hin Hq Hcq0 _ _ _ Hthr Hch _ Hadj Hdest].
  - pose proof (lookup_lt_Some _ _ _ Hc0). lia.
  - split; [exact Hin|].
    rewrite Hc in Hch. inversion Hch; subst c. cbn [fst snd species childOf] in *.
    unfold breeder. cbn [fst snd]. rewrite Hq, Hcq0.
    rewrite bool_decide_eq_true_2 by reflexivity.
    rewrite bool_decide_eq_true_2 by exact Hthr. rewrite !andb_true_l.
    apply existsb_exists. exists dq. split; [apply list_elem_of_In; exact Hadj|].
    unfold canGo.
    destruct Hdest as [->|(Hshark & f & cf & -> & -> & Hfish)]; [reflexivity|].
    rewrite Hshark. apply bool_decide_eq_true_2. exact Hfish.
Qed.

Lemma census_bound sp :
  (countSpecies (creatures m') (Grid nw) sp
   <= countSpecies (creatures m) (Grid ow) sp
      + length (breeders timerAfter (Size ow) (FishBreed ow) (SharkBreed ow)
                         (creatures m) (Grid ow) sp))%nat.
Proof.
  pose proof (cr_inv _ _ _ _ _ Hres) as HI.
  pose proof (inv_nodup _ _ _ _ _ _ _ _ _ HI) as Hnd.
  unfold countSpecies.
  rewrite (length_filter_split (λ p, speciesAt (creatures m') p = Some sp)
             (λ p, (p < length (creatures m))%nat)).
  apply Nat.add_le_mono.
  - (* the creatures of the old grid *)
    apply submseteq_length, NoDup_submseteq; [apply list.NoDup_filter; exact Hnd|].
    intros p [[Hsp Hlt] (x & y & Hp)%elem_of_ptrsOf]%list_elem_of_filter.
    apply list_elem_of_filter.
    destruct (inv_placed _ _ _ _ _ _ _ _ _ HI (x, y) p Hp)
      as [src c0 c1 Hsrc _ Hc0 Hc1 Hal _|q cq0 cq dq Hlen _ _ _ _ _ _ _ _ _ _ _];
      [|lia].
    split; [|apply elem_of_ptrsOf; eauto].
    destruct Hal as (Hs & _).
    unfold speciesAt in *. rewrite Hc1 in Hsp. rewrite Hc0. simpl in *.
    congruence.
  - (* the creatures created in the chronon *)
    apply (length_le_injection
             (λ p d, gridGet (Grid nw) d.1 d.2 = Some (Some p))).
    + apply list.NoDup_filter; exact Hnd.
    + intros p p' d _ _ Hp Hp'. congruence.
    + intros p [[Hsp Hge] (x & y & Hp)%elem_of_ptrsOf]%list_elem_of_filter.
      assert (is_Some (creatures m' !! p)) as [c Hc].
      { unfold speciesAt in Hsp. destruct (creatures m' !! p); [eauto|discriminate]. }
      destruct (child_of_breeder x y p c Hp ltac:(lia) Hc) as [Hin Hel].
      exists (x, y). split; [|exact Hp].
      unfold breeders. apply list_elem_of_In, filter_In.
      split; [apply list_elem_of_In, elem_of_allCells; exact Hin|].
      unfold speciesAt in Hsp. rewrite Hc in Hsp. simpl in Hsp.
      inversion Hsp; subst sp. exact Hel.
Qed.

End Census.

(** C3, as stated, fails: the engine compares the threshold with the timer
    it has just incremented.  A fish alone on a 3x3 grid with breed timer 2
    and threshold 3 breeds: the new grid holds 2 fish, the old one 1 fish
    and none whose timer is at or above the threshold. *)
Lemma C3_counterexample :
  exists m' nw,
    processChronon 0%nat (mkParams 0 1 3 10 5 3) timerMem = Some (1%nat, m') /\
    worlds m' !! 1%nat = Some nw /\
    countSpecies (creatures m') (Grid nw) Fish = 2%nat /\
    countSpecies (creatures timerMem) (Grid timerWorld) Fish = 1%nat /\
    breeders LastBreed 3 3 10 (creatures timerMem) (Grid timerWorld) Fish = [] /\
    ~ (countSpecies (creatures m') (Grid nw) Fish
       <= countSpecies (creatures timerMem) (Grid timerWorld) Fish
          + length (breeders LastBreed 3 3 10 (creatures timerMem)
                             (Grid timerWorld) Fish))%nat.
Proof.
  eexists _, _. split; [vm_compute; reflexivity|].
  split; [reflexivity|]. split; [|split; [|split]]; try (vm_compute; reflexivity).
  vm_compute. lia.
Qed.

(** C3, amended: for each species, the new grid holds no more creatures
    than the old grid plus the number of cells of the old grid whose
    creature, of that species, has a breed timer that reaches the
    threshold once incremented for this chronon and has a neighbouring
    cell it can move to (empty, or for a shark holding a fish); and every
    creature created in the chronon sits in such a cell, one per cell. *)
Theorem C3_conservation m o ow params :
  WellFormed m o ow ->
  exists m' nw,
    processChronon o params m = Some (length (worlds m), m') /\
    worlds m' !! length (worlds m) = Some nw /\
    (forall sp,
       (countSpecies (creatures m') (Grid nw) sp
        <= countSpecies (creatures m) (Grid ow) sp
           + length (breeders timerAfter (Size ow) (FishBreed ow) (SharkBreed ow)
                              (creatures m) (Grid ow) sp))%nat) /\
    (forall x y p c,
       gridGet (Grid nw) x y = Some (Some p) -> (length (creatures m) <= p)%nat ->
       creatures m' !! p = Some c ->
       breeder timerAfter (Size ow) (FishBreed ow) (SharkBreed ow)
               (creatures m) (Grid ow) (species c) (x, y) = true).
Proof.
  intros Hwf.
  destruct (chronon_result m o ow params Hwf) as (m' & nw & Hrun & _ & Hres).
  exists m', nw. split; [exact Hrun|]. split; [exact (cr_new _ _ _ _ _ Hres)|].
  split.
  - apply (census_bound m o ow m' nw Hres).
  - intros x y p c Hp Hnew Hc.
    exact (proj2 (child_of_breeder m o ow m' nw Hres x y p c Hp Hnew Hc)).
Qed.

Lemma C3_conservation_witness :
  WellFormed sampleMem 0%nat sampleWorld /\
  exists m' nw,
    processChronon 0%nat (mkParams 0 0 3 10 5 2) sampleMem = Some (1%nat, m') /\
    worlds m' !! 1%nat = Some nw /\
    (countSpecies (creatures m') (Grid nw) Fish
     <= countSpecies (creatures sampleMem) (Grid sampleWorld) Fish
        + length (breeders timerAfter 2 3 10 (creatures sampleMem)
                           (Grid sampleWorld) Fish))%nat.
Proof.
  split; [exact sample_WellFormed|].
  destruct (C3_conservation sampleMem 0%nat sampleWorld (mkParams 0 0 3 10 5 2)
              sample_WellFormed) as (m' & nw & Hrun & Hnew & Hcount & _).
  exists m', nw. split; [exact Hrun|]. split; [exact Hnew|exact (Hcount Fish)].
Defined.

(** ** Predation (C5, C8) *)

(** A shark found in the new grid on a cell that held a fish in the old
    grid has eaten there: its energy is the starvation threshold. *)
Lemma meal_resets_energy m o ow m' nw :
  WellFormed m o ow -> ChrononResult m o ow m' nw ->
  forall x y p f cf c,
    gridGet (Grid nw) x y = Some (Some p) ->
    gridGet (Grid ow) x y = Some (Some f) ->
    creatures m !! f = Some cf -> species cf = Fish ->
    creatures m' !! p = Some c -> species c = Shark ->
    Energy c = Starve ow /\ (p < length (creatures m))%nat /\
    exists sx sy, gridGet (Grid ow) sx sy = Some (Some p) /\
                  (x, y) ∈ neighbors_spec sx sy (Size ow).
Proof.
  intros Hwf Hres x y p f cf c Hp Hf Hcf Hfish Hc Hshark.
  destruct (inv_placed _ _ _ _ _ _ _ _ _ (cr_inv _ _ _ _ _ Hres) (x, y) p Hp)
    as [[sx sy] c0 c1 Hsrc _ Hc0 Hc1 Hal Hloc
       |q cq0 cq dq _ _ Hq Hcq0 _ _ _ _ Hch _ _ _];
    cbn [fst snd] in *.
  - rewrite Hc in Hc1. inversion Hc1; subst c1.
    destruct Hal as (Hsp & _).
    destruct Hloc as [Heq|[Hadj [Hnone|(f' & cf' & _ & _ & _ & _ & Hen)]]].
    + inversion Heq; subst sx sy. congruence.
    + congruence.
    + split; [exact Hen|]. split; [eapply lookup_lt_Some; eauto|eauto].
  - rewrite Hc in Hch. inversion Hch; subst c. simpl in Hshark. congruence.
Qed.

(** *** The scenario of C5: a shark next to a fish on a 2x2 grid *)

Lemma meal_WellFormed shark fish fb sb rs :
  WellFormed (mealMem shark fish fb sb rs) 0%nat (mealWorld fb sb).
Proof.
  constructor.
  - reflexivity.
  - unfold max_size. simpl. lia.
  - split; [reflexivity|]. repeat constructor.
  - apply NoDup_cons_2; [|apply NoDup_cons_2; [|apply NoDup_nil_2]].
    + intros H. apply elem_of_cons in H as [H|H]; [discriminate|inversion H].
    + intros H. inversion H.
  - intros q Hq. simpl.
    repeat (apply elem_of_cons in Hq as [->|Hq]; [lia|]). inversion Hq.
Qed.

(** A shark at (0,0) that survives the decrement eats the fish at (1,0):
    after the chronon it occupies (1,0) with energy 5 and the fish is in
    no cell, whatever the thresholds and the random numbers. *)
Lemma shark_eats_neighbour age energy timer fage fenergy ftimer fb sb ps rs :
  0 < GoInt.sub energy 1 ->
  exists m' nw c,
    processChronon 0%nat ps
      (mealMem (mkCreature Shark age energy timer)
               (mkCreature Fish fage fenergy ftimer) fb sb rs)
    = Some (1%nat, m') /\
    worlds m' !! 1%nat = Some nw /\
    gridGet (Grid nw) 1 0 = Some (Some 0%nat) /\
    creatures m' !! 0%nat = Some c /\ species c = Shark /\ Energy c = 5 /\
    1%nat ∉ ptrsOf (Grid nw).
Proof.
  intros Hpos.
  set (shark := mkCreature Shark age energy timer).
  set (fish := mkCreature Fish fage fenergy ftimer).
  set (m := mealMem shark fish fb sb rs).
  set (ow := mealWorld fb sb).
  pose proof (meal_WellFormed shark fish fb sb rs) as Hwf. fold m ow in Hwf.
  set (m1 := scanStart m ow).
  assert (scanUpTo place 0%nat 1%nat 2 0 0 m1 = Some (tt, m1)) as Hprefix by reflexivity.
  destruct (scanCell_step 0%nat 1%nat ow (freshWorld ow) 2 0 0 m1)
    as (h' & G' & r' & Hstep & Hrun).
  { lia. }
  { exact (wf_dims _ _ _ Hwf). }
  { apply dims_replicate. }
  { reflexivity. }
  { unfold max_size. lia. }
  { split; simpl; lia. }
  { reflexivity. }
  { reflexivity. }
  { intros q Hq. pose proof (wf_valid _ _ _ Hwf q Hq) as Hlt.
    apply lookup_lt_is_Some_2. exact Hlt. }
  specialize (Hrun place place_ok).
  assert (forall mend,
            scanAfter place 0%nat 1%nat 2 0 0 (afterStep 1%nat (freshWorld ow) m1 h' G' r')
            = Some (tt, mend) ->
            processChronon 0%nat ps m = Some (1%nat, mend)) as Hfinish.
  { intros mend Hsuffix. unfold processChronon.
    rewrite (chronon_start m 0%nat ow ps Hwf place).
    change (length (worlds m)) with 1%nat. change (Size ow) with 2. fold m1.
    assert (scan place 0%nat 1%nat 2 m1 = Some (tt, mend)) as Hscan.
    { rewrite (scan_split place 0%nat 1%nat 2 0 0 m1) by lia.
      rewrite (run_bind _ _ _ _ _ Hprefix). rewrite (run_bind _ _ _ _ _ Hrun).
      exact Hsuffix. }
    rewrite (run_bind _ _ _ _ _ Hscan). reflexivity. }
  clear Hrun Hprefix.
  assert (fishAt (creatures m1) (Grid ow) (Grid (freshWorld ow)) (1, 0) = true)
    as Hprey by reflexivity.
  assert ((1, 0) ∈ neighbors_spec 0 0 2) as Hnear by (vm_compute; left).
  assert (forall c' d,
            Legal (Grid ow) 2 (Starve ow) 0 0 (creatures m1) (Grid (freshWorld ow)) c' d ->
            species c' = Shark -> d = (1, 0) /\ Energy c' = 5) as Hmust.
  { intros c' d [-> _ _ Hno|_ _ _ Hno|f cf Hadj Hf _ _ _ _ Hen] Hs.
    - rewrite (Hno Hs (1, 0) Hnear) in Hprey. discriminate.
    - rewrite (Hno Hs (1, 0) Hnear) in Hprey. discriminate.
    - split; [|exact Hen]. vm_compute in Hadj.
      repeat (apply elem_of_cons in Hadj as [->|Hadj];
              [first [reflexivity|vm_compute in Hf; discriminate]|]).
      inversion Hadj. }
  destruct Hstep as [Hnone|f q Hf Hq|p c c' Hp Hfree Hc Hsp Hage Hwhy
                    |p c c' d G'' Hp Hfree Hc Hal Hlb Hlegal _ Hset
                    |p c c' d G1 G'' Hp Hfree Hc Hal Hlb Hthr Hlegal Hne Hset1 Hset].
  - vm_compute in Hnone. discriminate.
  - vm_compute in Hq. discriminate.
  - exfalso. vm_compute in Hp. inversion Hp; subst p.
    simpl in Hc. inversion Hc; subst c. simpl in Hwhy.
    destruct Hwhy as [?|(_ & He & Hle)]; [discriminate|lia].
  - vm_compute in Hp. inversion Hp; subst p.
    simpl in Hc. inversion Hc; subst c.
    destruct Hal as (Hsp & _). simpl in Hsp.
    destruct (Hmust c' d Hlegal Hsp) as [-> Hen].
    vm_compute in Hset. inversion Hset; subst G''.
    eexists _, _, c'. split; [apply Hfinish; reflexivity|].
    split; [reflexivity|]. split; [reflexivity|]. split; [reflexivity|].
    split; [exact Hsp|]. split; [exact Hen|].
    vm_compute. intros H. apply elem_of_cons in H as [H|H]; [discriminate|inversion H].
  - vm_compute in Hp. inversion Hp; subst p.
    simpl in Hc. inversion Hc; subst c.
    destruct Hal as (Hsp & _). simpl in Hsp.
    destruct (Hmust c' d Hlegal Hsp) as [-> Hen].
    vm_compute in Hset1. inversion Hset1; subst G1.
    vm_compute in Hset. inversion Hset; subst G''.
    eexists _, _, c'. split; [apply Hfinish; reflexivity|].
    split; [reflexivity|]. split; [reflexivity|]. split; [reflexivity|].
    split; [exact Hsp|]. split; [exact Hen|].
    vm_compute. intros H.
    repeat (apply elem_of_cons in H as [H|H]; [discriminate|]). inversion H.
Qed.

(** C5 on that input: the fish, scanned first, moves to (2,0); the shark
    then finds the cell (0,0) holding a fish in the old grid and free in
    the new one, moves there and has its energy reset to 5; the fish it
    has eaten is alive in the new grid. *)
Theorem C5_eaten_fish_survives :
  exists m' nw,
    processChronon 0%nat (mkParams 1 1 3 10 5 3) escapeMem = Some (1%nat, m') /\
    worlds m' !! 1%nat = Some nw /\
    gridGet (Grid escapeWorld) 0 0 = Some (Some 0%nat) /\
    creatures escapeMem !! 0%nat = Some (mkCreature Fish 0 0 0) /\
    gridGet (Grid nw) 0 0 = Some (Some 1%nat) /\
    creatures m' !! 1%nat = Some (mkCreature Shark 1 5 1) /\
    gridGet (Grid nw) 2 0 = Some (Some 0%nat) /\
    creatures m' !! 0%nat = Some (mkCreature Fish 1 0 1) /\
    0%nat ∈ ptrsOf (Grid nw).
Proof.
  eexists _, _. split; [vm_compute; reflexivity|].
  repeat (split; [reflexivity|]).
  vm_compute. right. left.
Qed.

(** C8, as stated, fails.  On the 2x2 world with a shark at (0,0) and a
    fish at (1,0) the scan reaches the cell (1,0), which holds the fish in
    the old grid, with that cell of the new grid occupied: the cell is
    skipped.  The occupant is creature 0, the shark of the old grid, which
    moved there to eat; no creature has been created, so it is no child. *)
Lemma C8_counterexample :
  exists mk nwk,
    scanUpTo place 0%nat 1%nat 2 1 0 (scanStart sampleMem sampleWorld)
    = Some (tt, mk) /\
    worlds mk !! 1%nat = Some nwk /\
    gridGet (Grid sampleWorld) 1 0 = Some (Some 1%nat) /\
    gridGet (Grid nwk) 1 0 = Some (Some 0%nat) /\
    gridGet (Grid sampleWorld) 0 0 = Some (Some 0%nat) /\
    creatures mk = [mkCreature Shark 1 5 1; mkCreature Fish 0 0 0] /\
    scanCell place 0%nat 1%nat 1 0 mk = Some (tt, mk).
Proof.
  eexists _, _. split; [vm_compute; reflexivity|].
  repeat (split; [reflexivity|]). reflexivity.
Qed.

(** [processChronon] is the scan up to a cell, that cell and the rest. *)
Lemma chronon_split m o ow params x y :
  WellFormed m o ow -> inGrid (Size ow) (x, y) ->
  processChronon o params m =
  ((scanUpTo place o (length (worlds m)) (Size ow) x y;;
    scanCell place o (length (worlds m)) x y;;
    scanAfter place o (length (worlds m)) (Size ow) x y);;
   mret (length (worlds m))) (scanStart m ow).
Proof.
  intros Hwf [Hx Hy]. simpl in Hx, Hy. unfold processChronon.
  rewrite (chronon_start m o ow params Hwf place).
  apply bind_ext_run; [|reflexivity].
  apply scan_split; assumption.
Qed.

(** C8, amended: whenever the scan reaches a cell that holds a creature in
    the old grid and finds that cell of the new grid occupied, the
    creature of the old grid is a fish and the occupant is a shark of the
    old grid, from a neighbouring cell scanned earlier, that moved there to
    eat it (its energy is the starvation threshold); the occupant is never
    a creature created in the chronon. *)
Theorem C8_skip_is_predation m o ow x y :
  WellFormed m o ow -> inGrid (Size ow) (x, y) ->
  exists mk nwk,
    scanUpTo place o (length (worlds m)) (Size ow) x y (scanStart m ow)
    = Some (tt, mk) /\
    worlds mk !! length (worlds m) = Some nwk /\
    forall f q,
      gridGet (Grid ow) x y = Some (Some f) ->
      gridGet (Grid nwk) x y = Some (Some q) ->
      exists sx sy cf cq,
        before (Size ow) x y (sx, sy) /\
        gridGet (Grid ow) sx sy = Some (Some q) /\
        (x, y) ∈ neighbors_spec sx sy (Size ow) /\
        (q < length (creatures m))%nat /\
        creatures m !! f = Some cf /\ species cf = Fish /\
        creatures mk !! q = Some cq /\ species cq = Shark /\
        Energy cq = Starve ow.
Proof.
  intros Hwf Hxy. pose proof Hwf as [Hw Hsize Hdims Hnd Hvalid].
  pose proof (lookup_lt_Some _ _ _ Hw) as Hlt.
  pose proof Hxy as [Hx Hy]. simpl in Hx, Hy.
  destruct (scanUpTo_inv o (length (worlds m)) ow (creatures m)
              (worlds (scanStart m ow)) ltac:(lia) Hsize Hdims Hnd Hvalid
              x y (scanStart m ow) ltac:(lia) ltac:(lia) (ScanInv_start m o ow Hwf))
    as (mk & Hscan & Hrun).
  destruct Hscan as [_ _ _ (nwk & Hn & _ & _ & _ & _ & HI)].
  exists mk, nwk. split; [apply Hrun, place_ok|]. split; [exact Hn|].
  intros f q Hf Hq.
  assert (~ before (Size ow) x y (x, y)) as Hk by (unfold before; simpl; lia).
  destruct (Inv_skip _ _ _ _ _ _ _ _ _ (x, y) f q HI Hk Hf Hq)
    as ([sx sy] & c0 & c & cf & Hd & Hsrc & Hadj & Hc0 & Hc & _ & Hs & He & Hcf & Hfish).
  exists sx, sy, cf, c. simpl in Hsrc, Hadj.
  repeat split; auto; try (destruct Hd as [[? ?] ?]; simpl in *; lia).
  eapply lookup_lt_Some; eauto.
Qed.

Lemma C8_skip_is_predation_witness :
  WellFormed sampleMem 0%nat sampleWorld /\ inGrid (Size sampleWorld) (1, 0) /\
  exists mk nwk,
    scanUpTo place 0%nat 1%nat 2 1 0 (scanStart sampleMem sampleWorld)
    = Some (tt, mk) /\
    worlds mk !! 1%nat = Some nwk.
Proof.
  assert (inGrid (Size sampleWorld) (1, 0)) as Hin by (split; simpl; lia).
  split; [exact sample_WellFormed|]. split; [exact Hin|].
  destruct (C8_skip_is_predation sampleMem 0%nat sampleWorld 1 0
              sample_WellFormed Hin) as (mk & nwk & Hrun & Hn & _).
  exists mk, nwk. split; [exact Hrun|exact Hn].
Defined.

(** * The rest of the program *)

(** ** Loops that leave the memory as it is *)

Lemma foldFrom_pure {A : Type} (P : Z -> A -> Prop) (body : Z -> A -> M A)
    (m : Mem) (n : nat) :
  forall i a,
    P i a ->
    (forall j b, i <= j < i + Z.of_nat n -> P j b ->
       exists b', body j b m = Some (b', m) /\ P (j + 1) b') ->
    exists a', foldFrom n i body a m = Some (a', m) /\ P (i + Z.of_nat n) a'.
Proof.
  induction n as [|n IH]; intros i a HP Hbody.
  - exists a. split; [reflexivity|].
    replace (i + Z.of_nat 0) with i by lia. exact HP.
  - destruct (Hbody i a ltac:(lia) HP) as (a1 & Hrun1 & HP1).
    destruct (IH (i + 1) a1 HP1) as (a' & Hrun & HP').
    { intros j b Hj. apply Hbody. lia. }
    exists a'. split.
    + simpl. rewrite (run_bind _ _ _ _ _ Hrun1). exact Hrun.
    + replace (i + Z.of_nat (Datatypes.S n)) with (i + 1 + Z.of_nat n) by lia.
      exact HP'.
Qed.

Lemma foldRange_pure {A : Type} (P : Z -> A -> Prop) (body : Z -> A -> M A)
    (m : Mem) (N : Z) (a : A) :
  0 <= N -> P 0 a ->
  (forall j b, 0 <= j < N -> P j b ->
     exists b', body j b m = Some (b', m) /\ P (j + 1) b') ->
  exists a', foldRange N body a m = Some (a', m) /\ P N a'.
Proof.
  intros HN HP Hbody. unfold foldRange.
  destruct (foldFrom_pure P body m (Z.to_nat N) 0 a HP) as (a' & Hrun & HP').
  - intros j b Hj. apply Hbody. lia.
  - exists a'. split; [exact Hrun|].
    replace N with (0 + Z.of_nat (Z.to_nat N)) by lia. exact HP'.
Qed.

(** ** Counting over the cells of a grid *)

Lemma filter_ext_elem {A : Type} (P Q : A -> Prop)
    `{forall a, Decision (P a)} `{forall a, Decision (Q a)} (l : list A) :
  (forall a, a ∈ l -> (P a <-> Q a)) -> filter P l = filter Q l.
Proof.
  induction l as [|a l IH]; intros Hpq; [reflexivity|].
  rewrite !filter_cons.
  rewrite IH by (intros b Hb; apply Hpq; right; exact Hb).
  pose proof (Hpq a ltac:(left)) as Ha.
  destruct (decide (P a)) as [Hp|Hp], (decide (Q a)) as [Hq|Hq];
    try reflexivity; tauto.
Qed.

Lemma filter_visit {A : Type} (Q D D' : A -> Prop)
    `{forall a, Decision (Q a)} `{forall a, Decision (D a)}
    `{forall a, Decision (D' a)} (l : list A) (k : A) :
  NoDup l -> k ∈ l -> ~ D k -> (forall d, D' d <-> D d \/ d = k) ->
  length (filter (λ d, Q d /\ D' d) l)
  = (length (filter (λ d, Q d /\ D d) l) + (if decide (Q k) then 1 else 0))%nat.
Proof.
  intros Hnd Hk HDk HD'.
  induction l as [|a l IH]; [inversion Hk|].
  apply NoDup_cons in Hnd as [Ha Hnd].
  rewrite !filter_cons.
  apply elem_of_cons in Hk as [->|Hk].
  - assert (filter (λ d, Q d /\ D' d) l = filter (λ d, Q d /\ D d) l) as ->.
    { apply filter_ext_elem. intros b Hb. rewrite HD'.
      assert (b <> a) by (intros ->; contradiction). tauto. }
    pose proof (proj2 (HD' a) (or_intror eq_refl)) as HD'k.
    destruct (decide (Q a)) as [Hq|Hq].
    + rewrite decide_True by tauto. rewrite decide_False by tauto.
      simpl. lia.
    + rewrite !decide_False by tauto. lia.
  - assert (a <> k) as Hne by (intros ->; contradiction).
    specialize (IH Hnd Hk).
    pose proof (HD' a) as HDa.
    destruct (decide (Q a /\ D' a)) as [Hq|Hq], (decide (Q a /\ D a)) as [Hq'|Hq'];
      simpl; try lia; exfalso; tauto.
Qed.

Lemma NoDup_allCells S : NoDup (allCells S).
Proof.
  unfold allCells. apply NoDup_bind.
  - intros x1 x2 d _ _ (y1 & -> & _)%list_elem_of_fmap (y2 & Heq & _)%list_elem_of_fmap.
    congruence.
  - intros x _. apply NoDup_fmap_2; [|apply NoDup_seqZ].
    intros y1 y2 Heq. congruence.
  - apply NoDup_seqZ.
Qed.

(** The creatures of a grid, cell by cell. *)
Lemma omap_step {A B : Type} (f : A -> option B) (a : A) (l : list A) :
  omap f (a :: l)
  = match f a with Some b => b :: omap f l | None => omap f l end.
Proof. reflexivity. Qed.

Lemma omap_ext_elem {A B : Type} (f g : A -> option B) (l : list A) :
  (forall a, a ∈ l -> f a = g a) -> omap f l = omap g l.
Proof.
  induction l as [|a l IH]; intros Hfg; [reflexivity|].
  rewrite !omap_step. rewrite (Hfg a) by left.
  rewrite IH by (intros b Hb; apply Hfg; right; exact Hb). reflexivity.
Qed.

Lemma omap_bind_list {A B C : Type} (f : B -> option C) (g : A -> list B)
    (l : list A) :
  omap f (l ≫= g) = l ≫= (λ a, omap f (g a)).
Proof.
  induction l as [|a l IH]; [reflexivity|].
  change ((a :: l) ≫= g) with (g a ++ (l ≫= g)).
  change ((a :: l) ≫= (λ a, omap f (g a)))
    with (omap f (g a) ++ (l ≫= (λ a, omap f (g a)))).
  rewrite omap_app, IH. reflexivity.
Qed.

Lemma bind_ext_elem {A B : Type} (f g : A -> list B) (l : list A) :
  (forall a, a ∈ l -> f a = g a) -> l ≫= f = l ≫= g.
Proof.
  induction l as [|a l IH]; intros Hfg; [reflexivity|].
  change ((a :: l) ≫= f) with (f a ++ (l ≫= f)).
  change ((a :: l) ≫= g) with (g a ++ (l ≫= g)).
  rewrite (Hfg a) by left.
  rewrite IH by (intros b Hb; apply Hfg; right; exact Hb). reflexivity.
Qed.

Lemma omap_fmap_list {A B C : Type} (f : B -> option C) (g : A -> B)
    (l : list A) :
  omap f (g <$> l) = omap (λ a, f (g a)) l.
Proof.
  induction l as [|a l IH]; [reflexivity|].
  change (g <$> a :: l) with (g a :: (g <$> l)).
  rewrite !omap_step, IH. reflexivity.
Qed.

Lemma index_app_l {A : Type} (l k : list A) (i : Z) :
  i < Z.of_nat (length l) -> index (l ++ k) i = index l i.
Proof.
  intros Hi. unfold index. destruct (decide (0 <= i)); [|reflexivity].
  apply lookup_app_l. lia.
Qed.

Lemma index_snoc {A : Type} (l : list A) (a : A) :
  index (l ++ [a]) (Z.of_nat (length l)) = Some a.
Proof.
  unfold index. rewrite decide_True by lia. rewrite Nat2Z.id.
  apply lookup_snoc_new.
Qed.

Lemma row_cells (row : list (option nat)) :
  omap id row
  = omap (λ y, mjoin (index row y)) (seqZ 0 (Z.of_nat (length row))).
Proof.
  induction row as [|a row IH] using rev_ind; [reflexivity|].
  rewrite length_app, Nat2Z.inj_add. simpl length.
  rewrite seqZ_app by lia. rewrite !omap_app.
  f_equal.
  - rewrite IH. apply omap_ext_elem.
    intros y Hy. apply elem_of_seqZ in Hy.
    rewrite index_app_l by lia. reflexivity.
  - simpl.
    replace (Z.of_nat 0 + (0 + Z.of_nat (length row)))
      with (Z.of_nat (length row)) by lia.
    rewrite index_snoc. destruct a; reflexivity.
Qed.

Lemma grid_cells (G : list (list (option nat))) (n : nat) :
  Forall (λ row, length row = n) G ->
  ptrsOf G
  = seqZ 0 (Z.of_nat (length G))
      ≫= (λ x, omap (λ y, cellAt G (x, y)) (seqZ 0 (Z.of_nat n))).
Proof.
  unfold ptrsOf.
  induction G as [|row G IH] using rev_ind; intros Hrows; [reflexivity|].
  apply Forall_app in Hrows as [Hrows Hrow].
  apply (proj1 (Forall_singleton _ _)) in Hrow.
  rewrite concat_app, omap_app. simpl concat. rewrite app_nil_r.
  rewrite length_app, Nat2Z.inj_add. simpl length.
  rewrite seqZ_app by lia. rewrite bind_app.
  f_equal.
  - rewrite (IH Hrows). apply bind_ext_elem.
    intros x Hx. apply elem_of_seqZ in Hx.
    apply omap_ext_elem. intros y _.
    unfold cellAt, gridGet. simpl.
    rewrite index_app_l by lia. reflexivity.
  - change (seqZ (0 + Z.of_nat (length G)) (Z.of_nat 1))
      with [Z.of_nat 0 + (0 + Z.of_nat (length G))].
    replace (Z.of_nat 0 + (0 + Z.of_nat (length G)))
      with (Z.of_nat (length G)) by lia.
    change ([Z.of_nat (length G)] ≫= ?f) with (f (Z.of_nat (length G)) ++ []).
    rewrite app_nil_r.
    rewrite row_cells, Hrow. apply omap_ext_elem. intros y _.
    unfold cellAt, gridGet. simpl. rewrite index_snoc. reflexivity.
Qed.

Lemma ptrsOf_allCells G S :
  dims G S -> ptrsOf G = omap (cellAt G) (allCells S).
Proof.
  intros [Hlen Hrows].
  rewrite (grid_cells G (Z.to_nat S) Hrows). rewrite Hlen.
  unfold allCells. rewrite omap_bind_list.
  destruct (decide (0 <= S)) as [HS|HS].
  - rewrite Z2Nat.id by exact HS.
    apply bind_ext_elem. intros x _. rewrite omap_fmap_list. reflexivity.
  - replace (Z.to_nat S) with 0%nat by lia.
    rewrite (seqZ_nil 0 S) by lia. reflexivity.
Qed.

Lemma length_filter_omap {A B : Type} (f : A -> option B) (P : B -> Prop)
    (Q : A -> Prop) `{forall b, Decision (P b)} `{forall a, Decision (Q a)}
    (l : list A) :
  (forall a, Q a <-> exists b, f a = Some b /\ P b) ->
  length (filter P (omap f l)) = length (filter Q l).
Proof.
  intros HQ.
  induction l as [|a l IH]; [reflexivity|].
  rewrite omap_step, (filter_cons Q).
  destruct (f a) as [b|] eqn:Hfa.
  - rewrite filter_cons.
    destruct (decide (P b)) as [Hp|Hp].
    + rewrite decide_True by (apply HQ; eauto). simpl. rewrite IH. reflexivity.
    + rewrite decide_False; [exact IH|].
      intros (b' & Hb' & Hp')%HQ. congruence.
  - rewrite decide_False; [exact IH|].
    intros (b' & Hb' & _)%HQ. congruence.
Qed.

Lemma length_filter_or {A : Type} (P Q : A -> Prop)
    `{forall a, Decision (P a)} `{forall a, Decision (Q a)} (l : list A) :
  (forall a, P a -> Q a -> False) ->
  length (filter (λ a, P a \/ Q a) l)
  = (length (filter P l) + length (filter Q l))%nat.
Proof.
  intros Hdis.
  induction l as [|a l IH]; [reflexivity|].
  rewrite !filter_cons. pose proof (Hdis a) as Ha.
  destruct (decide (P a)) as [Hp|Hp], (decide (Q a)) as [Hq|Hq];
    try (exfalso; tauto).
  - rewrite decide_True by tauto. simpl. lia.
  - rewrite decide_True by tauto. simpl. lia.
  - rewrite decide_False by tauto. exact IH.
Qed.

Lemma length_bind_const {A B : Type} (g : A -> list B) (n : nat) (l : list A) :
  (forall a, a ∈ l -> length (g a) = n) ->
  length (l ≫= g) = (length l * n)%nat.
Proof.
  induction l as [|a l IH]; intros Hg; [reflexivity|].
  change ((a :: l) ≫= g) with (g a ++ (l ≫= g)).
  rewrite length_app, (Hg a) by left.
  rewrite IH by (intros b Hb; apply Hg; right; exact Hb). simpl. lia.
Qed.

Lemma length_allCells S :
  length (allCells S) = (Z.to_nat S * Z.to_nat S)%nat.
Proof.
  unfold allCells.
  rewrite (length_bind_const _ (Z.to_nat S)).
  - rewrite length_seqZ. reflexivity.
  - intros x _. rewrite length_fmap, length_seqZ. reflexivity.
Qed.

(** The census of the claims, cell by cell. *)
Lemma countSpecies_cells h G S sp :
  dims G S ->
  countSpecies h G sp
  = length (filter (λ d, cellSpecies h G d = Some sp) (allCells S)).
Proof.
  intros Hd. unfold countSpecies. rewrite (ptrsOf_allCells G S Hd).
  apply length_filter_omap. intros d. unfold cellSpecies.
  destruct (cellAt G d) as [p|]; simpl.
  - split; [intros Hp; eauto|]. intros (b & Hb & Hp). congruence.
  - split; [discriminate|]. intros (b & Hb & _). discriminate.
Qed.

Lemma countSpecies_le h G S sp :
  dims G S -> (countSpecies h G sp <= Z.to_nat S * Z.to_nat S)%nat.
Proof.
  intros Hd. rewrite (countSpecies_cells h G S sp Hd).
  rewrite <- length_allCells. apply length_filter.
Qed.

Lemma filter_nothing {A : Type} (P : A -> Prop) `{forall a, Decision (P a)}
    (l : list A) :
  (forall a, a ∈ l -> ~ P a) -> filter P l = [].
Proof.
  induction l as [|a l IH]; intros Hno; [reflexivity|].
  rewrite filter_cons, decide_False by (apply Hno; left).
  apply IH. intros b Hb. apply Hno. right. exact Hb.
Qed.

Lemma length_omap_le {A B : Type} (f : A -> option B) (l : list A) :
  (length (omap f l) <= length l)%nat.
Proof.
  induction l as [|a l IH]; [reflexivity|].
  rewrite omap_step. destruct (f a); simpl; lia.
Qed.

(** A grid holds no more creatures than it has cells. *)
Lemma length_ptrsOf_le G S :
  dims G S -> (length (ptrsOf G) <= Z.to_nat S * Z.to_nat S)%nat.
Proof.
  intros Hd. rewrite (ptrsOf_allCells G S Hd), <- length_allCells.
  apply length_omap_le.
Qed.

Lemma length_filter_all {A : Type} (P : A -> Prop) `{forall a, Decision (P a)}
    (l : list A) :
  (forall a, a ∈ l -> P a) -> length (filter P l) = length l.
Proof.
  induction l as [|a l IH]; intros Hall; [reflexivity|].
  rewrite filter_cons, decide_True by (apply Hall; left).
  simpl. rewrite IH; [reflexivity|].
  intros b Hb. apply Hall. right. exact Hb.
Qed.

(** ** countPopulation *)

Section Count.

Variables (m : Mem) (w : nat) (W : World).
Hypotheses (Hw : worlds m !! w = Some W)
           (Hdims : dims (Grid W) (Size W))
           (Hvalid : forall q, q ∈ ptrsOf (Grid W) -> (q < length (creatures m))%nat).

Local Abbreviation counters := (countersAt (creatures m) (Grid W) (Size W)).

Lemma wrap_succ (k : nat) :
  GoInt.add (GoInt.wrap (Z.of_nat k)) 1 = GoInt.wrap (Z.of_nat (k + 1)).
Proof.
  unfold GoInt.add. rewrite wrap_wrap_add. f_equal. lia.
Qed.

Lemma countCell_run x y :
  inGrid (Size W) (x, y) ->
  countCell w x y (counters (before (Size W) x y)) m
  = Some (counters (before (Size W) x (y + 1)), m).
Proof.
  intros Hxy.
  assert (forall Q : Z * Z -> Prop, forall HQ : (forall d, Decision (Q d)),
            length (filter (λ d, Q d /\ before (Size W) x (y + 1) d) (allCells (Size W)))
            = (length (filter (λ d, Q d /\ before (Size W) x y d) (allCells (Size W)))
               + (if decide (Q (x, y)) then 1 else 0))%nat) as Hvisit.
  { intros Q HQ. apply filter_visit.
    - apply NoDup_allCells.
    - apply elem_of_allCells. exact Hxy.
    - unfold before. simpl. lia.
    - intros d. symmetry. apply before_next; destruct Hxy; simpl in *; lia. }
  destruct (gridGet_is_Some _ _ x y Hdims Hxy) as [v Hv].
  unfold countCell. step (run_getCell _ _ _ _ _ _ Hw Hv).
  unfold countersAt.
  assert (cellAt (Grid W) (x, y) = v) as Hcell
    by (unfold cellAt; simpl; rewrite Hv; reflexivity).
  destruct v as [p|].
  - step (run_getCell _ _ _ _ _ _ Hw Hv).
    assert (p ∈ ptrsOf (Grid W)) as Hp by (apply elem_of_ptrsOf; eauto).
    destruct (lookup_lt_is_Some_2 _ _ (Hvalid p Hp)) as [cr Hcr].
    step (run_loadCreature _ _ _ Hcr).
    assert (cellSpecies (creatures m) (Grid W) (x, y) = Some (species cr)) as Hsp.
    { unfold cellSpecies. rewrite Hcell. simpl. unfold speciesAt.
      rewrite Hcr. reflexivity. }
    rewrite !Hvisit. rewrite !Hsp.
    destruct (decide (species cr = Fish)) as [Hf|Hf].
    + rewrite Hf. rewrite decide_True by reflexivity.
      rewrite decide_False by (intros [?|?]; discriminate).
      cbn [fst snd]. rewrite wrap_succ, Nat.add_0_r. reflexivity.
    + rewrite decide_False by congruence.
      rewrite decide_True by (destruct (species cr); [right|congruence|left]; reflexivity).
      cbn [fst snd]. rewrite wrap_succ, Nat.add_0_r. reflexivity.
  - rewrite !Hvisit.
    assert (cellSpecies (creatures m) (Grid W) (x, y) = None) as Hsp
      by (unfold cellSpecies; rewrite Hcell; reflexivity).
    rewrite !Hsp. rewrite decide_False by discriminate.
    rewrite decide_False by (intros [?|?]; discriminate).
    rewrite !Nat.add_0_r. reflexivity.
Qed.

Lemma counters_ext (D D' : Z * Z -> Prop) `{forall d, Decision (D d)}
    `{forall d, Decision (D' d)} :
  (forall d, D d <-> D' d) -> counters D = counters D'.
Proof.
  intros Heq. unfold countersAt.
  f_equal; do 3 f_equal; apply filter_ext_elem; intros d _; rewrite Heq; tauto.
Qed.

Lemma countPopulation_run :
  countPopulation w m = Some (counters (inGrid (Size W)), m).
Proof.
  unfold countPopulation. step (run_loadWorld _ _ _ Hw).
  destruct (decide (0 <= Size W)) as [HS|HS].
  - destruct (foldRange_pure
                (λ x n, n = counters (before (Size W) x 0))
                (λ x n, foldRange (Size W) (λ y n, countCell w x y n) n)
                m (Size W) (0, 0) HS) as (n & Hrun & Hn).
    + unfold countersAt.
      rewrite !filter_nothing; [reflexivity|..];
        intros d _ [_ Hd]; exact (before_none _ _ Hd).
    + intros x n Hx ->.
      destruct (foldRange_pure
                  (λ y n, n = counters (before (Size W) x y))
                  (λ y n, countCell w x y n)
                  m (Size W) (counters (before (Size W) x 0)) HS eq_refl)
        as (n' & Hrun' & ->).
      * intros y n Hy ->. eexists. split; [|reflexivity].
        apply countCell_run. split; simpl; lia.
      * eexists. split; [exact Hrun'|].
        apply counters_ext. intros d. apply before_row.
    + rewrite Hrun, Hn. do 2 f_equal.
      apply counters_ext. intros d. apply before_all.
  - unfold foldRange. replace (Z.to_nat (Size W)) with 0%nat by lia.
    simpl. unfold mret, M_ret. do 2 f_equal.
    unfold countersAt, allCells. rewrite (seqZ_nil 0 (Size W)) by lia.
    reflexivity.
Qed.

End Count.

Lemma counters_all h G S :
  dims G S ->
  countersAt h G S (inGrid S)
  = (GoInt.wrap (Z.of_nat (countSpecies h G Fish)),
     GoInt.wrap (Z.of_nat (countSpecies h G Shark + countSpecies h G Empty))).
Proof.
  intros Hd. unfold countersAt.
  rewrite !(countSpecies_cells h G S _ Hd).
  rewrite <- length_filter_or by (intros; congruence).
  f_equal; do 3 f_equal; apply filter_ext_elem; intros d Hin%elem_of_allCells; tauto.
Qed.

Lemma population_le h G S :
  dims G S ->
  (countSpecies h G Fish + (countSpecies h G Shark + countSpecies h G Empty)
   <= Z.to_nat S * Z.to_nat S)%nat.
Proof.
  intros Hd. rewrite !(countSpecies_cells h G S _ Hd).
  rewrite <- (length_filter_or (λ d, cellSpecies h G d = Some Shark)
                               (λ d, cellSpecies h G d = Some Empty))
    by (intros; congruence).
  rewrite <- (length_filter_or (λ d, cellSpecies h G d = Some Fish))
    by (intros d Hf [?|?]; congruence).
  rewrite <- length_allCells. apply length_filter.
Qed.

Lemma countPopulation_wrapped m w W :
  worlds m !! w = Some W ->
  dims (Grid W) (Size W) ->
  (forall q, q ∈ ptrsOf (Grid W) -> (q < length (creatures m))%nat) ->
  countPopulation w m
  = Some ((GoInt.wrap (Z.of_nat (countSpecies (creatures m) (Grid W) Fish)),
           GoInt.wrap (Z.of_nat (countSpecies (creatures m) (Grid W) Shark
                                 + countSpecies (creatures m) (Grid W) Empty))),
          m).
Proof.
  intros Hw Hdims Hvalid.
  rewrite (countPopulation_run m w W Hw Hdims Hvalid).
  rewrite (counters_all _ _ _ Hdims). reflexivity.
Qed.

Lemma wrap_count (k : nat) (S : Z) :
  (k <= Z.to_nat S * Z.to_nat S)%nat -> S * S <= GoInt.max_int ->
  GoInt.wrap (Z.of_nat k) = Z.of_nat k.
Proof.
  intros Hk Hsq. apply wrap_small.
  assert (Z.of_nat (Z.to_nat S * Z.to_nat S) <= GoInt.max_int) as Hb.
  { rewrite Nat2Z.inj_mul. destruct (decide (0 <= S)).
    - rewrite Z2Nat.id by lia. exact Hsq.
    - replace (Z.to_nat S) with 0%nat by lia.
      unfold GoInt.max_int. simpl. lia. }
  int_range.
Qed.

Lemma countPopulation_exact m w W :
  worlds m !! w = Some W ->
  dims (Grid W) (Size W) ->
  (forall q, q ∈ ptrsOf (Grid W) -> (q < length (creatures m))%nat) ->
  Size W * Size W <= GoInt.max_int ->
  countPopulation w m
  = Some ((Z.of_nat (countSpecies (creatures m) (Grid W) Fish),
           Z.of_nat (countSpecies (creatures m) (Grid W) Shark
                     + countSpecies (creatures m) (Grid W) Empty)),
          m).
Proof.
  intros Hw Hdims Hvalid Hsq.
  rewrite (countPopulation_wrapped m w W Hw Hdims Hvalid).
  pose proof (population_le (creatures m) (Grid W) (Size W) Hdims) as Hle.
  rewrite !(wrap_count _ (Size W)) by (exact Hsq || lia). reflexivity.
Qed.

(** X3. On a world whose grid is square, of the size the world records,
    and whose cells refer to creatures that exist, [countPopulation]
    returns without changing the memory; its first result is the number of
    cells that hold a fish and its second the number of cells that hold
    any other creature (a shark, or a creature of species [Empty]), both
    as 64-bit integers; they are the exact numbers when the square of the
    size fits in an [int]. *)
Theorem countPopulation_census m w W :
  worlds m !! w = Some W ->
  dims (Grid W) (Size W) ->
  (forall q, q ∈ ptrsOf (Grid W) -> (q < length (creatures m))%nat) ->
  countPopulation w m
  = Some ((GoInt.wrap (Z.of_nat (countSpecies (creatures m) (Grid W) Fish)),
           GoInt.wrap (Z.of_nat (countSpecies (creatures m) (Grid W) Shark
                                 + countSpecies (creatures m) (Grid W) Empty))),
          m) /\
  (Size W * Size W <= GoInt.max_int ->
   countPopulation w m
   = Some ((Z.of_nat (countSpecies (creatures m) (Grid W) Fish),
            Z.of_nat (countSpecies (creatures m) (Grid W) Shark
                      + countSpecies (creatures m) (Grid W) Empty)),
           m)).
Proof.
  intros Hw Hdims Hvalid.
  pose proof (countPopulation_run m w W Hw Hdims Hvalid) as Hrun.
  rewrite (counters_all _ _ _ Hdims) in Hrun.
  split; [exact Hrun|].
  intros Hsq. rewrite Hrun.
  pose proof (population_le (creatures m) (Grid W) (Size W) Hdims) as Hle.
  assert (Z.of_nat (Z.to_nat (Size W) * Z.to_nat (Size W)) <= GoInt.max_int) as Hb.
  { rewrite Nat2Z.inj_mul. destruct (decide (0 <= Size W)).
    - rewrite Z2Nat.id by lia. exact Hsq.
    - replace (Z.to_nat (Size W)) with 0%nat by lia.
      unfold GoInt.max_int. simpl. lia. }
  rewrite !wrap_small; [reflexivity|..]; int_range.
Qed.

Lemma countPopulation_census_witness :
  worlds sampleMem !! 0%nat = Some sampleWorld /\
  countPopulation 0%nat sampleMem = Some ((1, 1), sampleMem).
Proof.
  split; [reflexivity|].
  destruct (countPopulation_census sampleMem 0%nat sampleWorld) as [_ Hexact].
  - reflexivity.
  - split; [reflexivity|]. repeat constructor.
  - intros q Hq. vm_compute in Hq.
    repeat (apply elem_of_cons in Hq as [->|Hq]; [simpl; lia|]).
    inversion Hq.
  - rewrite Hexact; [reflexivity|vm_compute; discriminate].
Defined.

(** ** printWorld *)

Lemma seqZ_snoc (n : Z) : 0 <= n -> seqZ 0 (n + 1) = seqZ 0 n ++ [n].
Proof.
  intros Hn. rewrite seqZ_app by lia. f_equal.
Qed.

Lemma bind_snoc {A B : Type} (f : A -> list B) (l : list A) (a : A) :
  (l ++ [a]) ≫= f = (l ≫= f) ++ f a.
Proof.
  rewrite bind_app. f_equal.
  change ([a] ≫= f) with (f a ++ []). apply app_nil_r.
Qed.

(** *** The layout of the picture *)

Lemma lookup_bind_blocks {A B : Type} (f : A -> list B) (n : nat) (l : list A) :
  (forall a, a ∈ l -> length (f a) = n) ->
  forall i j a, l !! i = Some a -> (j < n)%nat ->
    (l ≫= f) !! (i * n + j)%nat = f a !! j.
Proof.
  induction l as [|b l IH]; intros Hlen i j a Hi Hj; [discriminate|].
  change ((b :: l) ≫= f) with (f b ++ (l ≫= f)).
  destruct i as [|i].
  - inversion Hi; subst b. simpl. apply lookup_app_l.
    rewrite (Hlen a) by left. exact Hj.
  - simpl in Hi. rewrite lookup_app_r by (rewrite (Hlen b) by left; lia).
    rewrite (Hlen b) by left.
    replace (Datatypes.S i * n + j - n)%nat with (i * n + j)%nat by lia.
    apply IH; [|exact Hi|exact Hj].
    intros c Hc. apply Hlen. right. exact Hc.
Qed.

Lemma length_pictureRow h G S y :
  length (pictureRow h G S y) = (2 * Z.to_nat S + 1)%nat.
Proof.
  unfold pictureRow. rewrite length_app.
  rewrite (length_bind_const _ 2) by reflexivity.
  rewrite length_seqZ. simpl. lia.
Qed.

Lemma length_picture h G S :
  length (picture h G S) = (Z.to_nat S * (2 * Z.to_nat S + 1) + 1)%nat.
Proof.
  unfold picture. rewrite length_app.
  rewrite (length_bind_const _ (2 * Z.to_nat S + 1))
    by (intros; apply length_pictureRow).
  rewrite length_seqZ. simpl. lia.
Qed.

Lemma lookup_seqZ_nat (S i : Z) :
  0 <= i < S -> seqZ 0 S !! Z.to_nat i = Some i.
Proof. intros Hi. apply lookup_seqZ. lia. Qed.

Lemma lookup_pictureRow_cell h G S x y (j : nat) :
  0 <= x < S -> (j < 2)%nat ->
  pictureRow h G S y !! (Z.to_nat x * 2 + j)%nat = [mark h G (x, y); space] !! j.
Proof.
  intros Hx Hj. unfold pictureRow.
  rewrite lookup_app_l.
  - apply (lookup_bind_blocks (λ x, [mark h G (x, y); space]) 2);
      [reflexivity|apply lookup_seqZ_nat; exact Hx|exact Hj].
  - rewrite (length_bind_const _ 2) by reflexivity. rewrite length_seqZ. lia.
Qed.

Lemma lookup_pictureRow_end h G S y :
  pictureRow h G S y !! (2 * Z.to_nat S)%nat = Some newline.
Proof.
  unfold pictureRow. rewrite lookup_app_r.
  - rewrite (length_bind_const _ 2) by reflexivity. rewrite length_seqZ.
    replace (2 * Z.to_nat S - Z.to_nat S * 2)%nat with 0%nat by lia. reflexivity.
  - rewrite (length_bind_const _ 2) by reflexivity. rewrite length_seqZ. lia.
Qed.

Lemma lookup_picture_row h G S y (k : nat) :
  0 <= y < S -> (k < 2 * Z.to_nat S + 1)%nat ->
  picture h G S !! (Z.to_nat y * (2 * Z.to_nat S + 1) + k)%nat
  = pictureRow h G S y !! k.
Proof.
  intros Hy Hk. unfold picture. rewrite lookup_app_l.
  - apply (lookup_bind_blocks (pictureRow h G S) (2 * Z.to_nat S + 1));
      [intros; apply length_pictureRow|apply lookup_seqZ_nat; exact Hy|exact Hk].
  - rewrite (length_bind_const _ (2 * Z.to_nat S + 1))
      by (intros; apply length_pictureRow).
    rewrite length_seqZ. nia.
Qed.

Lemma lookup_picture_end h G S :
  picture h G S !! (Z.to_nat S * (2 * Z.to_nat S + 1))%nat = Some newline.
Proof.
  unfold picture. rewrite lookup_app_r.
  - rewrite (length_bind_const _ (2 * Z.to_nat S + 1))
      by (intros; apply length_pictureRow).
    rewrite length_seqZ, Nat.sub_diag. reflexivity.
  - rewrite (length_bind_const _ (2 * Z.to_nat S + 1))
      by (intros; apply length_pictureRow).
    rewrite length_seqZ. lia.
Qed.

Section Print.

Variables (m : Mem) (w : nat) (W : World).
Hypotheses (Hw : worlds m !! w = Some W)
           (Hdims : dims (Grid W) (Size W))
           (Hvalid : forall q, q ∈ ptrsOf (Grid W) -> (q < length (creatures m))%nat).

Lemma printCell_run x y out :
  inGrid (Size W) (x, y) ->
  printCell w x y out m
  = Some (out ++ [mark (creatures m) (Grid W) (x, y); space], m).
Proof.
  intros Hxy.
  destruct (gridGet_is_Some _ _ x y Hdims Hxy) as [v Hv].
  unfold printCell. step (run_getCell _ _ _ _ _ _ Hw Hv).
  assert (cellAt (Grid W) (x, y) = v) as Hcell
    by (unfold cellAt; simpl; rewrite Hv; reflexivity).
  unfold mark, cellSpecies. rewrite Hcell.
  destruct v as [p|]; [|reflexivity].
  assert (p ∈ ptrsOf (Grid W)) as Hp by (apply elem_of_ptrsOf; eauto).
  destruct (lookup_lt_is_Some_2 _ _ (Hvalid p Hp)) as [cr Hcr].
  step (run_loadCreature _ _ _ Hcr).
  simpl. unfold speciesAt. rewrite Hcr. simpl.
  destruct (decide (species cr = Fish)) as [Hf|Hf].
  - rewrite Hf. reflexivity.
  - destruct (species cr); [reflexivity|congruence|reflexivity].
Qed.

Lemma printWorld_run :
  printWorld w m = Some (picture (creatures m) (Grid W) (Size W), m).
Proof.
  unfold printWorld. step (run_loadWorld _ _ _ Hw).
  destruct (decide (0 <= Size W)) as [HS|HS].
  - destruct (foldRange_pure
                (λ y (out : list ascii),
                   out = mbind (M := list) (pictureRow (creatures m) (Grid W) (Size W)) (seqZ 0 y))
                (λ y (out : list ascii),
                   (out ← foldRange (Size W) (λ x out, printCell w x y out) out;
                    mret (out ++ [newline])) : M (list ascii))
                m (Size W) [] HS eq_refl) as (out & Hrun & ->).
    + intros y out Hy ->.
      set (out0 := seqZ 0 y ≫= pictureRow (creatures m) (Grid W) (Size W)).
      destruct (foldRange_pure
                  (λ x (out : list ascii),
                     out = out0 ++ mbind (M := list) (λ x, [mark (creatures m) (Grid W) (x, y); space]) (seqZ 0 x))
                  (λ x out, printCell w x y out)
                  m (Size W) out0 HS) as (out & Hrun & ->).
      * simpl. rewrite app_nil_r. reflexivity.
      * intros x out Hx ->. eexists. split.
        -- apply printCell_run. split; simpl; lia.
        -- rewrite seqZ_snoc by lia. rewrite bind_snoc, app_assoc. reflexivity.
      * eexists. split.
        -- rewrite (run_bind _ _ _ _ _ Hrun). reflexivity.
        -- rewrite seqZ_snoc by lia. rewrite bind_snoc.
           unfold out0, pictureRow. rewrite app_assoc. reflexivity.
    + rewrite (run_bind _ _ _ _ _ Hrun). reflexivity.
  - unfold foldRange. replace (Z.to_nat (Size W)) with 0%nat by lia.
    simpl. unfold picture. rewrite (seqZ_nil 0 (Size W)) by lia. reflexivity.
Qed.

End Print.

(** X4. [printWorld] leaves the memory as it is and writes, for a world of
    size [S], [S] lines of [2 S + 1] characters followed by an empty line:
    the character [2 x] of line [y] is the mark of the cell [Grid[x][y]]
    ("." for nil, "F" for a fish, "S" for any other creature), the
    character after it is a space and the line ends with a newline; so the
    first index of the grid runs along a line and the second down the
    picture. *)
Theorem printWorld_layout m w W :
  worlds m !! w = Some W ->
  dims (Grid W) (Size W) ->
  (forall q, q ∈ ptrsOf (Grid W) -> (q < length (creatures m))%nat) ->
  0 <= Size W ->
  exists out,
    printWorld w m = Some (out, m) /\
    Z.of_nat (length out) = Size W * (2 * Size W + 1) + 1 /\
    (forall x y, inGrid (Size W) (x, y) ->
       out !! Z.to_nat (y * (2 * Size W + 1) + 2 * x)
         = Some (mark (creatures m) (Grid W) (x, y)) /\
       out !! Z.to_nat (y * (2 * Size W + 1) + 2 * x + 1) = Some space) /\
    (forall y, 0 <= y < Size W ->
       out !! Z.to_nat (y * (2 * Size W + 1) + 2 * Size W) = Some newline) /\
    out !! Z.to_nat (Size W * (2 * Size W + 1)) = Some newline.
Proof.
  intros Hw Hdims Hvalid HS.
  exists (picture (creatures m) (Grid W) (Size W)).
  split; [apply printWorld_run; assumption|].
  set (S := Size W) in *.
  assert (forall y k, 0 <= y -> 0 <= k ->
            Z.to_nat (y * (2 * S + 1) + k)
            = (Z.to_nat y * (2 * Z.to_nat S + 1) + Z.to_nat k)%nat) as Hidx.
  { intros y k Hy Hk. rewrite Z2Nat.inj_add by nia.
    rewrite Z2Nat.inj_mul by lia. f_equal. f_equal. lia. }
  split; [|split; [|split]].
  - rewrite length_picture. nia.
  - intros x y [Hx Hy]. simpl in Hx, Hy.
    rewrite <- Z.add_assoc. rewrite !Hidx by lia.
    rewrite !lookup_picture_row by lia.
    replace (Z.to_nat (2 * x)) with (Z.to_nat x * 2 + 0)%nat by lia.
    replace (Z.to_nat (2 * x + 1)) with (Z.to_nat x * 2 + 1)%nat by lia.
    rewrite !lookup_pictureRow_cell by lia. split; reflexivity.
  - intros y Hy. rewrite Hidx by lia.
    rewrite lookup_picture_row by lia.
    replace (Z.to_nat (2 * S)) with (2 * Z.to_nat S)%nat by lia.
    apply lookup_pictureRow_end.
  - replace (Z.to_nat (S * (2 * S + 1)))
      with (Z.to_nat S * (2 * Z.to_nat S + 1))%nat by nia.
    apply lookup_picture_end.
Qed.

Lemma printWorld_layout_witness :
  worlds sampleMem !! 0%nat = Some sampleWorld /\
  exists out,
    printWorld 0%nat sampleMem = Some (out, sampleMem) /\
    out !! 0%nat = Some "S"%char /\ out !! 2%nat = Some "F"%char /\
    out !! 5%nat = Some "."%char.
Proof.
  split; [reflexivity|].
  destruct (printWorld_layout sampleMem 0%nat sampleWorld)
    as (out & Hrun & _ & Hcells & _).
  - reflexivity.
  - split; [reflexivity|]. repeat constructor.
  - intros q Hq. vm_compute in Hq.
    repeat (apply elem_of_cons in Hq as [->|Hq]; [simpl; lia|]).
    inversion Hq.
  - simpl. lia.
  - exists out. split; [exact Hrun|].
    pose proof (proj1 (Hcells 0 0 ltac:(split; simpl; lia))) as H00.
    pose proof (proj1 (Hcells 1 0 ltac:(split; simpl; lia))) as H10.
    pose proof (proj1 (Hcells 0 1 ltac:(split; simpl; lia))) as H01.
    split; [exact H00|]. split; [exact H10|exact H01].
Defined.

(** *** The picture and the census *)

Lemma count_bind_fmap {A B C : Type} (P : B -> Prop) (Q : C -> Prop)
    `{forall b, Decision (P b)} `{forall c, Decision (Q c)}
    (f : A -> list B) (g : A -> C) (l : list A) :
  (forall a, a ∈ l ->
     length (filter P (f a)) = if decide (Q (g a)) then 1%nat else 0%nat) ->
  length (filter P (l ≫= f)) = length (filter Q (g <$> l)).
Proof.
  induction l as [|a l IH]; intros Hfg; [reflexivity|].
  change ((a :: l) ≫= f) with (f a ++ (l ≫= f)).
  change (g <$> a :: l) with (g a :: (g <$> l)).
  rewrite filter_app, length_app, filter_cons.
  rewrite (Hfg a) by left.
  rewrite IH by (intros b Hb; apply Hfg; right; exact Hb).
  destruct (decide (Q (g a))); reflexivity.
Qed.

Lemma count_bind_bind {A B C : Type} (P : B -> Prop) (Q : C -> Prop)
    `{forall b, Decision (P b)} `{forall c, Decision (Q c)}
    (f : A -> list B) (g : A -> list C) (l : list A) :
  (forall a, a ∈ l -> length (filter P (f a)) = length (filter Q (g a))) ->
  length (filter P (l ≫= f)) = length (filter Q (l ≫= g)).
Proof.
  induction l as [|a l IH]; intros Hfg; [reflexivity|].
  change ((a :: l) ≫= f) with (f a ++ (l ≫= f)).
  change ((a :: l) ≫= g) with (g a ++ (l ≫= g)).
  rewrite !filter_app, !length_app.
  rewrite (Hfg a) by left.
  rewrite IH by (intros b Hb; apply Hfg; right; exact Hb). reflexivity.
Qed.

Lemma elem_of_pictureCells S d : d ∈ pictureCells S <-> inGrid S d.
Proof.
  unfold pictureCells, inGrid. destruct d as [x y]. simpl.
  rewrite list_elem_of_bind. split.
  - intros (y' & (x' & Heq & Hx)%list_elem_of_fmap & Hy).
    inversion Heq; subst. apply elem_of_seqZ in Hx, Hy. lia.
  - intros [Hx Hy]. exists y. split; [|apply elem_of_seqZ; lia].
    apply list_elem_of_fmap. exists x. split; [reflexivity|apply elem_of_seqZ; lia].
Qed.

Lemma NoDup_pictureCells S : NoDup (pictureCells S).
Proof.
  unfold pictureCells. apply NoDup_bind.
  - intros y1 y2 d _ _ (x1 & -> & _)%list_elem_of_fmap (x2 & Heq & _)%list_elem_of_fmap.
    congruence.
  - intros y _. apply NoDup_fmap_2; [|apply NoDup_seqZ].
    intros x1 x2 Heq. congruence.
  - apply NoDup_seqZ.
Qed.

Lemma pictureCells_allCells S : pictureCells S ≡ₚ allCells S.
Proof.
  apply NoDup_Permutation;
    [apply NoDup_pictureCells|apply NoDup_allCells|].
  intros d. rewrite elem_of_pictureCells, elem_of_allCells. reflexivity.
Qed.

Lemma occurrences_picture h G S (c : ascii) :
  c <> space -> c <> newline ->
  occurrences c (picture h G S)
  = length (filter (λ d, mark h G d = c) (allCells S)).
Proof.
  intros Hsp Hnl. unfold occurrences, picture.
  rewrite filter_app, length_app.
  rewrite (filter_cons _ newline), decide_False by congruence.
  simpl. rewrite Nat.add_0_r.
  rewrite <- (pictureCells_allCells S). unfold pictureCells.
  apply count_bind_bind. intros y _.
  unfold pictureRow. rewrite filter_app, length_app.
  rewrite (filter_cons _ newline), decide_False by congruence.
  simpl. rewrite Nat.add_0_r.
  apply count_bind_fmap. intros x _.
  rewrite filter_cons, (filter_cons _ space), (decide_False (P := space = c))
    by congruence.
  destruct (decide (mark h G (x, y) = c)); reflexivity.
Qed.

Lemma mark_fish h G d : mark h G d = "F"%char <-> cellSpecies h G d = Some Fish.
Proof.
  unfold mark. destruct (cellSpecies h G d) as [[]|];
    split; intros Heq; try reflexivity; discriminate.
Qed.

Lemma mark_shark h G d :
  mark h G d = "S"%char <->
  cellSpecies h G d = Some Shark \/ cellSpecies h G d = Some Empty.
Proof.
  unfold mark. destruct (cellSpecies h G d) as [[]|]; split;
    try (intros [?|?]); try (intros ?); try discriminate; auto.
Qed.

Lemma picture_census h G S :
  dims G S ->
  occurrences "F" (picture h G S) = countSpecies h G Fish /\
  occurrences "S" (picture h G S)
  = (countSpecies h G Shark + countSpecies h G Empty)%nat.
Proof.
  intros Hd. rewrite !occurrences_picture by discriminate.
  rewrite !(countSpecies_cells h G S _ Hd).
  rewrite <- length_filter_or by (intros; congruence).
  split; f_equal; apply filter_ext_elem; intros d _;
    [apply mark_fish|apply mark_shark].
Qed.

(** X5. The picture and the census agree: on a world as in X3 whose
    squared size fits in an [int], the text that [printWorld] writes shows
    the letter F exactly as many times as the first number
    [countPopulation] returns, and the letter S exactly as many times as
    the second. *)
Theorem printWorld_countPopulation m w W :
  worlds m !! w = Some W ->
  dims (Grid W) (Size W) ->
  (forall q, q ∈ ptrsOf (Grid W) -> (q < length (creatures m))%nat) ->
  Size W * Size W <= GoInt.max_int ->
  exists out fish sharks,
    printWorld w m = Some (out, m) /\
    countPopulation w m = Some ((fish, sharks), m) /\
    Z.of_nat (occurrences "F" out) = fish /\
    Z.of_nat (occurrences "S" out) = sharks.
Proof.
  intros Hw Hdims Hvalid Hsq.
  pose proof (countPopulation_exact m w W Hw Hdims Hvalid Hsq) as Hcount.
  destruct (picture_census (creatures m) (Grid W) (Size W) Hdims) as [HF HS].
  eexists _, _, _. split; [apply printWorld_run; eassumption|].
  split; [exact Hcount|].
  rewrite HF, HS. split; reflexivity.
Qed.

Lemma printWorld_countPopulation_witness :
  worlds sampleMem !! 0%nat = Some sampleWorld /\
  exists out fish sharks,
    printWorld 0%nat sampleMem = Some (out, sampleMem) /\
    countPopulation 0%nat sampleMem = Some ((fish, sharks), sampleMem) /\
    Z.of_nat (occurrences "F" out) = fish /\
    Z.of_nat (occurrences "S" out) = sharks.
Proof.
  split; [reflexivity|].
  apply (printWorld_countPopulation sampleMem 0%nat sampleWorld).
  - reflexivity.
  - split; [reflexivity|]. repeat constructor.
  - intros q Hq. vm_compute in Hq.
    repeat (apply elem_of_cons in Hq as [->|Hq]; [simpl; lia|]).
    inversion Hq.
  - vm_compute. discriminate.
Defined.

(** ** initializeWorld *)

(** One creature put into a free cell. *)
Lemma Populated_refl w c m W :
  worlds m !! w = Some W -> dims (Grid W) (Size W) -> Populated w c 0 m W m W.
Proof.
  intros Hw Hd. constructor; try reflexivity; try exact Hd.
  - simpl. rewrite app_nil_r. reflexivity.
  - rewrite list_insert_id by exact Hw. reflexivity.
  - simpl. rewrite app_nil_r. reflexivity.
  - auto.
  - auto.
Qed.

Lemma Populated_step w c n m W m1 W1 x y G' r' :
  dims (Grid W) (Size W) ->
  Populated w c n m W m1 W1 ->
  gridGet (Grid W1) x y = Some None ->
  gridSet (Grid W1) x y (Some (length (creatures m1))) = Some G' ->
  Populated w c (Datatypes.S n) m W
    (mkMem (creatures m1 ++ [c]) (<[w := setGrid G' W1]> (worlds m1)) r')
    (setGrid G' W1).
Proof.
  intros Hd0 [Hcr Hws HS HF HB HV Hd Hp Hkeep Hnew] Hfree Hset.
  assert (length (creatures m1) = (length (creatures m) + n)%nat) as Hlen
    by (rewrite Hcr, length_app, length_replicate; reflexivity).
  constructor; try assumption.
  - cbn [creatures]. rewrite Hcr, <- app_assoc. f_equal.
    rewrite replicate_S_end. reflexivity.
  - cbn [worlds]. rewrite Hws. rewrite list_insert_insert_eq. reflexivity.
  - rewrite Grid_setGrid. eapply dims_gridSet; [exact Hd|exact Hset].
  - rewrite Grid_setGrid.
    rewrite (ptrsOf_place _ _ _ _ _ Hfree Hset). rewrite Hp, Hlen.
    rewrite seq_S, app_assoc.
    rewrite <- Permutation_cons_append. reflexivity.
  - rewrite Grid_setGrid. intros x' y' p Hold. apply Hkeep in Hold.
    rewrite (gridGet_gridSet_ne _ _ _ _ _ x' y' Hset); [exact Hold|].
    intros Heq. inversion Heq; subst. congruence.
  - rewrite Grid_setGrid. intros x' y' p Hp'.
    destruct (decide ((x', y') = (x, y))) as [Heq|Hne].
    + inversion Heq; subst x' y'.
      rewrite (gridGet_gridSet_eq _ _ _ _ _ Hset) in Hp'. inversion Hp'; subst p.
      right. split; [|lia].
      pose proof (gridGet_inGrid _ _ _ _ _ Hd Hfree) as Hin.
      destruct (gridGet_is_Some _ _ x y Hd0 Hin) as [[q|] Hv]; [|exact Hv].
      apply Hkeep in Hv. congruence.
    + rewrite (gridGet_gridSet_ne _ _ _ _ _ x' y' Hset Hne) in Hp'.
      destruct (Hnew x' y' p Hp') as [Hold|[Hold Hr]]; [left; exact Hold|].
      right. split; [exact Hold|lia].
Qed.

Lemma placeAtRandom_unfold fuel w c :
  placeAtRandom (Datatypes.S fuel) w c =
  (W ← loadWorld w;
   x ← Intn (Size W);
   W ← loadWorld w;
   y ← Intn (Size W);
   occupant ← getCell w x y;
   match occupant with
   | None => p ← newCreature c; setCell w x y (Some p);; mret true
   | Some _ => placeAtRandom fuel w c
   end).
Proof. reflexivity. Qed.

Lemma withRng_same m : withRng (rng m) m = m.
Proof. destruct m; reflexivity. Qed.

Section Place.

Variables (w : nat) (c : Creature) (W : World).
Hypotheses (Hdims : dims (Grid W) (Size W)) (Hsize : 1 <= Size W).

(** A round of the loop: the two draws and the test of the cell. *)
Lemma placeAtRandom_cases fuel :
  forall m, worlds m !! w = Some W ->
    (exists r', placeAtRandom fuel w c m = Some (false, withRng r' m)) \/
    (exists x y G' r',
       gridGet (Grid W) x y = Some None /\
       gridSet (Grid W) x y (Some (length (creatures m))) = Some G' /\
       placeAtRandom fuel w c m
       = Some (true, mkMem (creatures m ++ [c])
                           (<[w := setGrid G' W]> (worlds m)) r')).
Proof.
  induction fuel as [|fuel IH]; intros m Hw.
  - left. exists (rng m). rewrite withRng_same. reflexivity.
  - rewrite placeAtRandom_unfold.
    step (run_loadWorld _ _ _ Hw).
    destruct (run_Intn (Size W) m ltac:(lia)) as (x & r1 & Hx & HI1).
    step HI1.
    assert (worlds (withRng r1 m) !! w = Some W) as Hw1 by exact Hw.
    step (run_loadWorld _ _ _ Hw1).
    destruct (run_Intn (Size W) (withRng r1 m) ltac:(lia)) as (y & r2 & Hy & HI2).
    step HI2.
    set (m2 := withRng r2 (withRng r1 m)).
    assert (worlds m2 !! w = Some W) as Hw2 by exact Hw.
    destruct (gridGet_is_Some _ _ x y Hdims ltac:(split; simpl; lia)) as [v Hv].
    step (run_getCell _ _ _ _ _ _ Hw2 Hv).
    destruct v as [q|].
    + destruct (IH m2 Hw2) as [(r' & Hrun)|(x' & y' & G' & r' & Hfree & Hset & Hrun)].
      * left. exists r'. exact Hrun.
      * right. exists x', y', G', r'. auto.
    + right.
      destruct (gridSet_is_Some (Grid W) x y (Some (length (creatures m)))
                  ltac:(eauto)) as [G' Hset].
      exists x, y, G', r2. split; [exact Hv|]. split; [exact Hset|].
      assert (newCreature c m2
              = Some (length (creatures m),
                      mkMem (creatures m ++ [c]) (worlds m) r2)) as Hnew
        by reflexivity.
      step Hnew.
      set (m3 := mkMem (creatures m ++ [c]) (worlds m) r2).
      assert (worlds m3 !! w = Some W) as Hw3 by exact Hw.
      step (run_setCell _ _ _ _ _ _ _ Hw3 Hset). reflexivity.
Qed.

(** On a grid with no free cell the loop goes on for ever. *)
Lemma placeAtRandom_full fuel m :
  worlds m !! w = Some W ->
  (forall x y, gridGet (Grid W) x y <> Some None) ->
  exists r', placeAtRandom fuel w c m = Some (false, withRng r' m).
Proof.
  intros Hw Hfull.
  destruct (placeAtRandom_cases fuel m Hw)
    as [Hrun|(x & y & G' & r' & Hfree & _)]; [exact Hrun|].
  destruct (Hfull x y Hfree).
Qed.

End Place.

Lemma forFuel_unfold n (body : M bool) :
  forFuel (Datatypes.S n) body =
  (ok ← body; if (ok : bool) then forFuel n body else mret false).
Proof. reflexivity. Qed.

(** The counted loop around it: it is still running, or [n] creatures
    have been put into free cells. *)
Lemma forFuel_place_cases fuel w c W0 m0 n :
  dims (Grid W0) (Size W0) -> 1 <= Size W0 ->
  forall k m W,
    worlds m !! w = Some W -> Populated w c k m0 W0 m W ->
    (exists m', forFuel n (placeAtRandom fuel w c) m = Some (false, m')) \/
    (exists m' W',
       forFuel n (placeAtRandom fuel w c) m = Some (true, m') /\
       worlds m' !! w = Some W' /\
       Populated w c (k + n) m0 W0 m' W').
Proof.
  intros Hd0 HS0.
  induction n as [|n IH]; intros k m W Hw Hpop.
  - right. exists m, W. rewrite Nat.add_0_r. auto.
  - rewrite forFuel_unfold.
    assert (dims (Grid W) (Size W)) as Hd
      by (rewrite (pop_size _ _ _ _ _ _ _ Hpop); exact (pop_dims _ _ _ _ _ _ _ Hpop)).
    assert (1 <= Size W) as HS by (rewrite (pop_size _ _ _ _ _ _ _ Hpop); exact HS0).
    destruct (placeAtRandom_cases w c W Hd HS fuel m Hw)
      as [(r' & Hrun)|(x & y & G' & r' & Hfree & Hset & Hrun)].
    + left. eexists. rewrite (run_bind _ _ _ _ _ Hrun). reflexivity.
    + rewrite (run_bind _ _ _ _ _ Hrun).
      pose proof (Populated_step w c k m0 W0 m W x y G' r' Hd0 Hpop Hfree Hset)
        as Hpop'.
      set (m1 := mkMem (creatures m ++ [c]) (<[w := setGrid G' W]> (worlds m)) r')
        in *.
      assert (worlds m1 !! w = Some (setGrid G' W)) as Hw1.
      { unfold m1. cbn [worlds]. apply list_lookup_insert_eq.
        exact (lookup_lt_Some _ _ _ Hw). }
      destruct (IH (Datatypes.S k) m1 (setGrid G' W) Hw1 Hpop')
        as [(m' & Hrest)|(m' & W' & Hrest & Hw' & Hpop'')].
      * left. exists m'. exact Hrest.
      * right. exists m', W'. split; [exact Hrest|]. split; [exact Hw'|].
        replace (k + Datatypes.S n)%nat with (Datatypes.S k + n)%nat by lia.
        exact Hpop''.
Qed.

(** [rand.Intn] panics on a world without cells. *)
Lemma placeAtRandom_panic fuel w c W m :
  worlds m !! w = Some W -> Size W <= 0 ->
  placeAtRandom (Datatypes.S fuel) w c m = None.
Proof.
  intros Hw HS. rewrite placeAtRandom_unfold.
  step (run_loadWorld _ _ _ Hw).
  unfold mbind, M_bind, Intn. rewrite decide_True by exact HS. reflexivity.
Qed.

Lemma forFuel_place fuel w c W m n m' :
  worlds m !! w = Some W -> dims (Grid W) (Size W) ->
  forFuel n (placeAtRandom fuel w c) m = Some (true, m') ->
  exists W', worlds m' !! w = Some W' /\ Populated w c n m W m' W'.
Proof.
  intros Hw Hd Hrun.
  destruct (decide (1 <= Size W)) as [HS|HS].
  - destruct (forFuel_place_cases fuel w c W m n Hd HS 0 m W Hw
                (Populated_refl w c m W Hw Hd))
      as [(m1 & Hno)|(m1 & W' & Hyes & Hw' & Hpop)]; [congruence|].
    rewrite Hyes in Hrun. inversion Hrun; subst m1. eauto.
  - destruct n as [|n].
    + inversion Hrun; subst m'. exists W. split; [exact Hw|].
      apply Populated_refl; assumption.
    + rewrite forFuel_unfold in Hrun. destruct fuel as [|fuel].
      * discriminate.
      * unfold mbind, M_bind in Hrun.
        rewrite (placeAtRandom_panic fuel w c W m Hw ltac:(lia)) in Hrun.
        discriminate.
Qed.

Lemma initializeWorld_inv fuel w params m m' :
  initializeWorld fuel w params m = Some (true, m') ->
  exists m1 m2,
    forFuel (Z.to_nat (NumShark params))
            (placeAtRandom fuel w (newShark params)) m = Some (true, m1) /\
    forFuel (Z.to_nat (NumFish params))
            (placeAtRandom fuel w newFish) m1 = Some (true, m2) /\
    (modifyWorld w (setFishBreed (pFishBreed params));;
     modifyWorld w (setSharkBreed (pSharkBreed params));;
     modifyWorld w (setStarve (pStarve params));;
     mret true) m2 = Some (true, m').
Proof.
  unfold initializeWorld. intros Hrun.
  unfold mbind at 1, M_bind at 1 in Hrun.
  fold (newShark params) in Hrun.
  destruct (forFuel _ (placeAtRandom fuel w (newShark params)) m)
    as [[[] m1]|] eqn:H1; try discriminate.
  unfold mbind at 1, M_bind at 1 in Hrun.
  fold newFish in Hrun.
  destruct (forFuel _ (placeAtRandom fuel w newFish) m1)
    as [[[] m2]|] eqn:H2; try discriminate.
  exists m1, m2. auto.
Qed.

Lemma set_thresholds_run w W params m :
  worlds m !! w = Some W ->
  (modifyWorld w (setFishBreed (pFishBreed params));;
   modifyWorld w (setSharkBreed (pSharkBreed params));;
   modifyWorld w (setStarve (pStarve params));;
   mret true) m
  = Some (true,
          withWorlds (<[w := mkWorld (Grid W) (Size W) (pFishBreed params)
                                     (pSharkBreed params) (pStarve params)]>
                        (worlds m)) m).
Proof.
  intros Hw. pose proof (lookup_lt_Some _ _ _ Hw) as Hlt.
  step (run_modifyWorld _ (setFishBreed (pFishBreed params)) _ _ Hw).
  set (m1 := withWorlds _ m).
  assert (worlds m1 !! w = Some (setFishBreed (pFishBreed params) W)) as Hw1
    by (apply list_lookup_insert_eq; exact Hlt).
  step (run_modifyWorld _ (setSharkBreed (pSharkBreed params)) _ _ Hw1).
  set (m2 := withWorlds _ m1).
  assert (worlds m2 !! w
          = Some (setSharkBreed (pSharkBreed params)
                    (setFishBreed (pFishBreed params) W))) as Hw2.
  { apply list_lookup_insert_eq. unfold m1. cbn [worlds withWorlds].
    rewrite length_insert. exact Hlt. }
  step (run_modifyWorld _ (setStarve (pStarve params)) _ _ Hw2).
  unfold mret, M_ret. do 2 f_equal.
  unfold withWorlds, m2, m1. cbn [worlds creatures rng withWorlds].
  rewrite !list_insert_insert_eq. reflexivity.
Qed.

(** What [initializeWorld] has done when it returns. *)
Lemma initializeWorld_post fuel w params m W m' :
  WellFormed m w W ->
  initializeWorld fuel w params m = Some (true, m') ->
  exists W',
    worlds m' = <[w := W']> (worlds m) /\
    creatures m'
    = creatures m ++ replicate (Z.to_nat (NumShark params)) (newShark params)
                  ++ replicate (Z.to_nat (NumFish params)) newFish /\
    Size W' = Size W /\ FishBreed W' = pFishBreed params /\
    SharkBreed W' = pSharkBreed params /\ Starve W' = pStarve params /\
    ptrsOf (Grid W')
      ≡ₚ ptrsOf (Grid W)
         ++ seq (length (creatures m))
                (Z.to_nat (NumShark params) + Z.to_nat (NumFish params)) /\
    (forall x y p, gridGet (Grid W) x y = Some (Some p) ->
                   gridGet (Grid W') x y = Some (Some p)) /\
    WellFormed m' w W'.
Proof.
  intros [Hw Hsize Hdims Hnd Hvalid] Hrun.
  destruct (initializeWorld_inv _ _ _ _ _ Hrun) as (m1 & m2 & H1 & H2 & H3).
  destruct (forFuel_place _ _ _ _ _ _ _ Hw Hdims H1) as (W1 & Hw1 & P1).
  assert (dims (Grid W1) (Size W1)) as Hd1
    by (rewrite (pop_size _ _ _ _ _ _ _ P1); exact (pop_dims _ _ _ _ _ _ _ P1)).
  destruct (forFuel_place _ _ _ _ _ _ _ Hw1 Hd1 H2) as (W2 & Hw2 & P2).
  rewrite (set_thresholds_run _ _ _ _ Hw2) in H3.
  inversion H3; subst m'. clear H3.
  set (ns := Z.to_nat (NumShark params)) in *.
  set (nf := Z.to_nat (NumFish params)) in *.
  set (W' := mkWorld (Grid W2) (Size W2) (pFishBreed params)
                     (pSharkBreed params) (pStarve params)).
  pose proof (lookup_lt_Some _ _ _ Hw) as Hlt.
  assert (length (creatures m1) = (length (creatures m) + ns)%nat) as Hlen1.
  { rewrite (pop_creatures _ _ _ _ _ _ _ P1), length_app, length_replicate.
    reflexivity. }
  assert (ptrsOf (Grid W2)
          ≡ₚ ptrsOf (Grid W) ++ seq (length (creatures m)) (ns + nf)) as Hptrs.
  { rewrite (pop_ptrs _ _ _ _ _ _ _ P2), (pop_ptrs _ _ _ _ _ _ _ P1).
    rewrite Hlen1, seq_app, app_assoc. reflexivity. }
  assert (Size W2 = Size W) as HS2.
  { rewrite (pop_size _ _ _ _ _ _ _ P2). exact (pop_size _ _ _ _ _ _ _ P1). }
  exists W'. split; [|split; [|split; [|split; [|split; [|split; [|split; [|split]]]]]]].
  - cbn [worlds withWorlds].
    rewrite (pop_worlds _ _ _ _ _ _ _ P2), (pop_worlds _ _ _ _ _ _ _ P1).
    rewrite !list_insert_insert_eq. reflexivity.
  - cbn [creatures withWorlds].
    rewrite (pop_creatures _ _ _ _ _ _ _ P2), (pop_creatures _ _ _ _ _ _ _ P1).
    rewrite <- app_assoc. reflexivity.
  - exact HS2.
  - reflexivity.
  - reflexivity.
  - reflexivity.
  - exact Hptrs.
  - intros x y p Hp. apply (pop_keep _ _ _ _ _ _ _ P2).
    apply (pop_keep _ _ _ _ _ _ _ P1). exact Hp.
  - constructor.
    + cbn [worlds withWorlds]. apply list_lookup_insert_eq.
      exact (lookup_lt_Some _ _ _ Hw2).
    + cbn [Size W']. rewrite HS2. exact Hsize.
    + cbn [Size Grid W']. rewrite HS2.
      rewrite <- (pop_size _ _ _ _ _ _ _ P1). exact (pop_dims _ _ _ _ _ _ _ P2).
    + cbn [Grid W']. rewrite Hptrs. apply NoDup_app. split; [exact Hnd|].
      split; [|apply NoDup_seq].
      intros q Hq Hq'. apply Hvalid in Hq. apply elem_of_seq in Hq'. lia.
    + cbn [Grid W' creatures withWorlds]. intros q Hq. rewrite Hptrs in Hq.
      rewrite (pop_creatures _ _ _ _ _ _ _ P2), (pop_creatures _ _ _ _ _ _ _ P1).
      rewrite !length_app, !length_replicate. fold ns nf.
      apply elem_of_app in Hq as [Hq|Hq].
      * apply Hvalid in Hq. lia.
      * apply elem_of_seq in Hq. lia.
Qed.

Lemma emptyMem_WellFormed : WellFormed emptyMem 0%nat emptyWorld.
Proof.
  constructor.
  - reflexivity.
  - unfold max_size. simpl. lia.
  - split; [reflexivity|]. repeat constructor.
  - vm_compute. constructor.
  - intros q Hq. vm_compute in Hq. inversion Hq.
Defined.

(** *** The census of a populated world *)

Lemma initial_census fuel w params m W m' :
  WellFormed m w W ->
  initializeWorld fuel w params m = Some (true, m') ->
  exists W',
    worlds m' !! w = Some W' /\ WellFormed m' w W' /\
    countSpecies (creatures m') (Grid W') Shark
    = (countSpecies (creatures m) (Grid W) Shark + Z.to_nat (NumShark params))%nat /\
    countSpecies (creatures m') (Grid W') Fish
    = (countSpecies (creatures m) (Grid W) Fish + Z.to_nat (NumFish params))%nat /\
    countSpecies (creatures m') (Grid W') Empty
    = countSpecies (creatures m) (Grid W) Empty.
Proof.
  intros Hwf Hrun.
  destruct (initializeWorld_post fuel w params m W m' Hwf Hrun)
    as (W' & Hws & Hcr & _ & _ & _ & _ & Hptrs & _ & Hwf').
  exists W'. split; [exact (wf_world _ _ _ Hwf')|]. split; [exact Hwf'|].
  set (ns := Z.to_nat (NumShark params)) in *.
  set (nf := Z.to_nat (NumFish params)) in *.
  set (h := creatures m) in *.
  assert (forall sp,
            countSpecies (creatures m') (Grid W') sp
            = (countSpecies h (Grid W) sp
               + length (filter (λ p, speciesAt (creatures m') p = Some sp)
                                (seq (length h) ns))
               + length (filter (λ p, speciesAt (creatures m') p = Some sp)
                                (seq (length h + ns) nf)))%nat) as Hsplit.
  { intros sp. unfold countSpecies. rewrite Hptrs.
    rewrite seq_app, !filter_app, !length_app. rewrite Nat.add_assoc.
    do 2 f_equal. f_equal. apply filter_ext_elem.
    intros p Hp. apply (wf_valid _ _ _ Hwf) in Hp.
    unfold speciesAt. rewrite Hcr. rewrite lookup_app_l by exact Hp.
    reflexivity. }
  assert (forall p, p ∈ seq (length h) ns ->
            speciesAt (creatures m') p = Some Shark) as Hsh.
  { intros p Hp%elem_of_seq. unfold speciesAt. rewrite Hcr.
    rewrite lookup_app_r by lia. rewrite lookup_app_l
      by (rewrite length_replicate; lia).
    rewrite lookup_replicate_2 by lia. reflexivity. }
  assert (forall p, p ∈ seq (length h + ns) nf ->
            speciesAt (creatures m') p = Some Fish) as Hfi.
  { intros p Hp%elem_of_seq. unfold speciesAt. rewrite Hcr.
    rewrite lookup_app_r by lia. rewrite lookup_app_r
      by (rewrite length_replicate; lia).
    rewrite length_replicate.
    rewrite lookup_replicate_2 by lia. reflexivity. }
  rewrite !Hsplit.
  split; [|split].
  - rewrite (length_filter_all _ (seq (length h) ns)) by exact Hsh.
    rewrite (filter_nothing _ (seq (length h + ns) nf))
      by (intros p Hp; rewrite (Hfi p Hp); discriminate).
    rewrite length_seq. simpl. lia.
  - rewrite (filter_nothing _ (seq (length h) ns))
      by (intros p Hp; rewrite (Hsh p Hp); discriminate).
    rewrite (length_filter_all _ (seq (length h + ns) nf)) by exact Hfi.
    rewrite length_seq. simpl. lia.
  - rewrite (filter_nothing _ (seq (length h) ns))
      by (intros p Hp; rewrite (Hsh p Hp); discriminate).
    rewrite (filter_nothing _ (seq (length h + ns) nf))
      by (intros p Hp; rewrite (Hfi p Hp); discriminate).
    simpl. lia.
Qed.

(** X6. When [initializeWorld] returns on a well-formed world, it has
    allocated [NumShark] sharks with energy [Starve] and then [NumFish]
    fish, all with age and breed timer 0, and nothing else; each of them
    is in exactly one cell that was free, every cell that was occupied
    holds what it held, the three thresholds of the world are those of
    the parameters, its size is unchanged, and the world is well-formed;
    so the grid holds [NumShark] more sharks and [NumFish] more fish than
    it did. *)
Theorem initializeWorld_populates fuel w params m W m' :
  WellFormed m w W ->
  initializeWorld fuel w params m = Some (true, m') ->
  exists W',
    worlds m' = <[w := W']> (worlds m) /\
    creatures m'
    = creatures m ++ replicate (Z.to_nat (NumShark params)) (newShark params)
                  ++ replicate (Z.to_nat (NumFish params)) newFish /\
    Size W' = Size W /\ FishBreed W' = pFishBreed params /\
    SharkBreed W' = pSharkBreed params /\ Starve W' = pStarve params /\
    ptrsOf (Grid W')
      ≡ₚ ptrsOf (Grid W)
         ++ seq (length (creatures m))
                (Z.to_nat (NumShark params) + Z.to_nat (NumFish params)) /\
    (forall x y p, gridGet (Grid W) x y = Some (Some p) ->
                   gridGet (Grid W') x y = Some (Some p)) /\
    WellFormed m' w W' /\
    countSpecies (creatures m') (Grid W') Shark
    = (countSpecies (creatures m) (Grid W) Shark + Z.to_nat (NumShark params))%nat /\
    countSpecies (creatures m') (Grid W') Fish
    = (countSpecies (creatures m) (Grid W) Fish + Z.to_nat (NumFish params))%nat.
Proof.
  intros Hwf Hrun.
  destruct (initializeWorld_post fuel w params m W m' Hwf Hrun)
    as (W' & Hws & Hcr & HS & HF & HB & HV & Hptrs & Hkeep & Hwf').
  destruct (initial_census fuel w params m W m' Hwf Hrun)
    as (W1 & Hw1 & _ & Hsh & Hfi & _).
  assert (W1 = W') as -> by (pose proof (wf_world _ _ _ Hwf'); congruence).
  exists W'. do 8 (split; [assumption|]). split; [exact Hwf'|].
  split; [exact Hsh|exact Hfi].
Qed.

Lemma initializeWorld_populates_witness :
  WellFormed emptyMem 0%nat emptyWorld /\
  exists m' W',
    initializeWorld 1 0%nat (mkParams 1 1 3 10 5 2) emptyMem = Some (true, m') /\
    worlds m' = [W'] /\ Starve W' = 5 /\ WellFormed m' 0%nat W'.
Proof.
  split; [exact emptyMem_WellFormed|].
  assert (exists m', initializeWorld 1 0%nat (mkParams 1 1 3 10 5 2) emptyMem
                     = Some (true, m')) as [m' Hrun]
    by (eexists; vm_compute; reflexivity).
  destruct (initializeWorld_populates 1 0%nat (mkParams 1 1 3 10 5 2)
              emptyMem emptyWorld m' emptyMem_WellFormed Hrun)
    as (W' & Hws & _ & _ & _ & _ & Hst & _ & _ & Hwf & _).
  exists m', W'. split; [exact Hrun|]. split; [exact Hws|].
  split; [exact Hst|exact Hwf].
Defined.

(** X7. Asking for more creatures than the world has free cells makes
    [initializeWorld] loop for ever: on a well-formed world with at least
    one cell, whatever the random stream and however long the loops are
    followed, the call has not returned (and has not panicked). *)
Theorem initializeWorld_overfull fuel w params m W :
  WellFormed m w W -> 1 <= Size W ->
  Size W * Size W - Z.of_nat (length (ptrsOf (Grid W)))
    < Z.max 0 (NumShark params) + Z.max 0 (NumFish params) ->
  exists m', initializeWorld fuel w params m = Some (false, m').
Proof.
  intros [Hw Hsize Hdims Hnd Hvalid] HS Hfull.
  unfold initializeWorld. fold (newShark params). fold newFish.
  destruct (forFuel_place_cases fuel w (newShark params) W m
              (Z.to_nat (NumShark params)) Hdims HS 0 m W Hw
              (Populated_refl _ _ m W Hw Hdims))
    as [(m1 & H1)|(m1 & W1 & H1 & Hw1 & P1)].
  { exists m1. rewrite (run_bind _ _ _ _ _ H1). reflexivity. }
  rewrite (run_bind _ _ _ _ _ H1). cbv beta iota.
  assert (dims (Grid W1) (Size W1)) as Hd1
    by (rewrite (pop_size _ _ _ _ _ _ _ P1); exact (pop_dims _ _ _ _ _ _ _ P1)).
  assert (1 <= Size W1) as HS1 by (rewrite (pop_size _ _ _ _ _ _ _ P1); exact HS).
  destruct (forFuel_place_cases fuel w newFish W1 m1
              (Z.to_nat (NumFish params)) Hd1 HS1 0 m1 W1 Hw1
              (Populated_refl _ _ m1 W1 Hw1 Hd1))
    as [(m2 & H2)|(m2 & W2 & H2 & Hw2 & P2)].
  { exists m2. rewrite (run_bind _ _ _ _ _ H2). reflexivity. }
  exfalso.
  pose proof (length_ptrsOf_le (Grid W2) (Size W1) (pop_dims _ _ _ _ _ _ _ P2)) as Hle.
  rewrite (pop_ptrs _ _ _ _ _ _ _ P2), (pop_ptrs _ _ _ _ _ _ _ P1) in Hle.
  rewrite !length_app, !length_seq in Hle.
  rewrite (pop_size _ _ _ _ _ _ _ P1) in Hle. simpl in Hle. nia.
Qed.

Lemma initializeWorld_overfull_witness :
  WellFormed emptyMem 0%nat emptyWorld /\
  exists m', initializeWorld 9 0%nat (mkParams 3 2 3 10 5 2) emptyMem
             = Some (false, m').
Proof.
  split; [exact emptyMem_WellFormed|].
  apply (initializeWorld_overfull 9 0%nat (mkParams 3 2 3 10 5 2)
           emptyMem emptyWorld emptyMem_WellFormed).
  - simpl. lia.
  - vm_compute. reflexivity.
Defined.

(** *** A random stream that names free cells *)

Lemma Intn_draw n m r rs :
  0 <= r < n -> rng m = r :: rs -> Intn n m = Some (r, withRng rs m).
Proof.
  intros Hr Hm. unfold Intn. rewrite decide_False by lia.
  rewrite Hm. rewrite Z.mod_small by exact Hr. reflexivity.
Qed.

Lemma placeAtRandom_hit fuel w c W m x y rest G' :
  worlds m !! w = Some W ->
  rng m = x :: y :: rest -> inGrid (Size W) (x, y) ->
  gridGet (Grid W) x y = Some None ->
  gridSet (Grid W) x y (Some (length (creatures m))) = Some G' ->
  placeAtRandom (Datatypes.S fuel) w c m
  = Some (true, mkMem (creatures m ++ [c]) (<[w := setGrid G' W]> (worlds m)) rest).
Proof.
  intros Hw Hr [Hx Hy] Hfree Hset. simpl in Hx, Hy.
  rewrite placeAtRandom_unfold.
  step (run_loadWorld _ _ _ Hw).
  step (Intn_draw (Size W) m x (y :: rest) Hx Hr).
  assert (worlds (withRng (y :: rest) m) !! w = Some W) as Hw1 by exact Hw.
  step (run_loadWorld _ _ _ Hw1).
  step (Intn_draw (Size W) (withRng (y :: rest) m) y rest Hy eq_refl).
  set (m2 := withRng rest (withRng (y :: rest) m)).
  assert (worlds m2 !! w = Some W) as Hw2 by exact Hw.
  step (run_getCell _ _ _ _ _ _ Hw2 Hfree).
  assert (newCreature c m2
          = Some (length (creatures m),
                  mkMem (creatures m ++ [c]) (worlds m) rest)) as Hnew
    by reflexivity.
  step Hnew.
  set (m3 := mkMem (creatures m ++ [c]) (worlds m) rest).
  assert (worlds m3 !! w = Some W) as Hw3 by exact Hw.
  step (run_setCell _ _ _ _ _ _ _ Hw3 Hset). reflexivity.
Qed.

Lemma forFuel_replay fuel w c S cells :
  forall m W rest,
    worlds m !! w = Some W -> Size W = S -> dims (Grid W) S ->
    NoDup cells ->
    (forall d, d ∈ cells -> inGrid S d /\ gridGet (Grid W) d.1 d.2 = Some None) ->
    rng m = draws cells ++ rest ->
    exists m' W',
      forFuel (length cells) (placeAtRandom (Datatypes.S fuel) w c) m
      = Some (true, m') /\
      worlds m' !! w = Some W' /\ Size W' = S /\ dims (Grid W') S /\
      rng m' = rest /\
      length (creatures m') = (length (creatures m) + length cells)%nat /\
      (forall i d, cells !! i = Some d ->
         gridGet (Grid W') d.1 d.2 = Some (Some (length (creatures m) + i)%nat)) /\
      (forall d, d ∉ cells ->
         gridGet (Grid W') d.1 d.2 = gridGet (Grid W) d.1 d.2).
Proof.
  induction cells as [|[x y] cells IH]; intros m W rest Hw HS Hd Hnd Hfree Hr.
  - exists m, W. simpl in Hr. simpl.
    split; [reflexivity|]. split; [exact Hw|]. split; [exact HS|].
    split; [exact Hd|]. split; [exact Hr|]. split; [lia|].
    split; [intros i d Hi; discriminate|reflexivity].
  - apply NoDup_cons in Hnd as [Hnotin Hnd].
    destruct (Hfree (x, y) ltac:(left)) as [Hin Hxy]. simpl in Hxy.
    destruct (gridSet_is_Some (Grid W) x y (Some (length (creatures m)))
                ltac:(eauto)) as [G' Hset].
    change (draws ((x, y) :: cells)) with (x :: y :: draws cells) in Hr.
    simpl in Hr.
    pose proof (placeAtRandom_hit fuel w c W m x y (draws cells ++ rest) G'
                  Hw Hr ltac:(rewrite HS; exact Hin) Hxy Hset) as Hrun.
    set (m1 := mkMem (creatures m ++ [c]) (<[w := setGrid G' W]> (worlds m))
                     (draws cells ++ rest)) in *.
    assert (worlds m1 !! w = Some (setGrid G' W)) as Hw1.
    { apply list_lookup_insert_eq. exact (lookup_lt_Some _ _ _ Hw). }
    destruct (IH m1 (setGrid G' W) rest Hw1 HS
                (dims_gridSet _ _ _ _ _ _ Hd Hset) Hnd)
      as (m' & W' & Hrest & Hw' & HS' & Hd' & Hr' & Hlen & Hcells & Hother).
    { intros d Hdin. destruct (Hfree d ltac:(right; exact Hdin)) as [Hdg Hdf].
      split; [exact Hdg|]. rewrite Grid_setGrid.
      rewrite (gridGet_gridSet_ne _ _ _ _ _ d.1 d.2 Hset); [exact Hdf|].
      destruct d as [dx dy]. simpl. intros Heq. inversion Heq; subst.
      contradiction. }
    { reflexivity. }
    exists m', W'. split.
    { change (length ((x, y) :: cells)) with (Datatypes.S (length cells)).
      rewrite forFuel_unfold. rewrite (run_bind _ _ _ _ _ Hrun). exact Hrest. }
    split; [exact Hw'|]. split; [exact HS'|]. split; [exact Hd'|].
    split; [exact Hr'|].
    assert (length (creatures m1) = Datatypes.S (length (creatures m))) as Hl1
      by (unfold m1; cbn [creatures]; rewrite length_app; simpl; lia).
    split; [rewrite Hlen, Hl1; simpl; lia|].
    split.
    + intros i d Hi. destruct i as [|i].
      * inversion Hi; subst d.
        rewrite (Hother (x, y) Hnotin). rewrite Grid_setGrid. cbn [fst snd].
        rewrite (gridGet_gridSet_eq _ _ _ _ _ Hset).
        rewrite Nat.add_0_r. reflexivity.
      * simpl in Hi. rewrite (Hcells i d Hi). rewrite Hl1.
        do 2 f_equal. lia.
    + intros d Hdn. apply not_elem_of_cons in Hdn as [Hne Hdn].
      rewrite (Hother d Hdn). rewrite Grid_setGrid.
      apply (gridGet_gridSet_ne _ _ _ _ _ d.1 d.2 Hset).
      destruct d as [dx dy]. exact Hne.
Qed.

Lemma draws_app a b : draws (a ++ b) = draws a ++ draws b.
Proof. unfold draws. apply bind_app. Qed.

(** X8. A run of [initializeWorld] can be replayed: when the random stream
    starts with the coordinates of free cells of the grid, all different,
    one cell for each creature asked for, the call returns after one round
    of the loop for each creature, the sharks are in the first cells named
    and the fish in the next ones, in the order of allocation, every other
    cell holds what it held, and exactly two numbers for each creature
    have been taken from the stream. *)
Theorem initializeWorld_replay fuel w params m W sharkCells fishCells rest :
  worlds m !! w = Some W -> dims (Grid W) (Size W) ->
  length sharkCells = Z.to_nat (NumShark params) ->
  length fishCells = Z.to_nat (NumFish params) ->
  NoDup (sharkCells ++ fishCells) ->
  (forall d, d ∈ sharkCells ++ fishCells ->
     inGrid (Size W) d /\ gridGet (Grid W) d.1 d.2 = Some None) ->
  rng m = draws (sharkCells ++ fishCells) ++ rest ->
  exists m' W',
    initializeWorld (Datatypes.S fuel) w params m = Some (true, m') /\
    worlds m' !! w = Some W' /\ rng m' = rest /\
    (forall i d, sharkCells !! i = Some d ->
       gridGet (Grid W') d.1 d.2 = Some (Some (length (creatures m) + i)%nat)) /\
    (forall i d, fishCells !! i = Some d ->
       gridGet (Grid W') d.1 d.2
       = Some (Some (length (creatures m) + length sharkCells + i)%nat)) /\
    (forall d, d ∉ sharkCells ++ fishCells ->
       gridGet (Grid W') d.1 d.2 = gridGet (Grid W) d.1 d.2).
Proof.
  intros Hw Hd Hns Hnf Hnd Hfree Hr.
  apply NoDup_app in Hnd as (Hnd1 & Hdis & Hnd2).
  rewrite draws_app, <- app_assoc in Hr.
  destruct (forFuel_replay fuel w (newShark params) (Size W) sharkCells
              m W (draws fishCells ++ rest) Hw eq_refl Hd Hnd1)
    as (m1 & W1 & H1 & Hw1 & HS1 & Hd1 & Hr1 & Hl1 & Hc1 & Ho1).
  { intros d Hin. apply Hfree. apply elem_of_app. left. exact Hin. }
  { exact Hr. }
  destruct (forFuel_replay fuel w newFish (Size W) fishCells
              m1 W1 rest Hw1 HS1 Hd1 Hnd2)
    as (m2 & W2 & H2 & Hw2 & HS2 & Hd2 & Hr2 & Hl2 & Hc2 & Ho2).
  { intros d Hin.
    destruct (Hfree d ltac:(apply elem_of_app; right; exact Hin)) as [Hg Hf].
    split; [exact Hg|]. rewrite (Ho1 d); [exact Hf|].
    intros Hin1. exact (Hdis d Hin1 Hin). }
  { exact Hr1. }
  eexists _, _. split.
  { unfold initializeWorld. fold (newShark params). fold newFish.
    rewrite <- Hns, <- Hnf.
    rewrite (run_bind _ _ _ _ _ H1). cbv beta iota.
    rewrite (run_bind _ _ _ _ _ H2). cbv beta iota.
    apply (set_thresholds_run w W2 params m2 Hw2). }
  split.
  { cbn [worlds withWorlds]. apply list_lookup_insert_eq.
    exact (lookup_lt_Some _ _ _ Hw2). }
  split; [exact Hr2|]. cbn [Grid].
  split; [|split].
  - intros i d Hi. rewrite (Ho2 d); [exact (Hc1 i d Hi)|].
    intros Hin2. apply (Hdis d); [|exact Hin2].
    apply list_elem_of_lookup. eauto.
  - intros i d Hi. rewrite (Hc2 i d Hi), Hl1. reflexivity.
  - intros d Hnot. apply not_elem_of_app in Hnot as [Hn1 Hn2].
    rewrite (Ho2 d Hn2). exact (Ho1 d Hn1).
Qed.

Lemma initializeWorld_replay_witness :
  rng emptyMem = draws ([(0, 0)] ++ [(1, 1)]) ++ [] /\
  exists m' W',
    initializeWorld 1 0%nat (mkParams 1 1 3 10 5 2) emptyMem = Some (true, m') /\
    worlds m' !! 0%nat = Some W' /\ rng m' = [] /\
    gridGet (Grid W') 0 0 = Some (Some 0%nat) /\
    gridGet (Grid W') 1 1 = Some (Some 1%nat).
Proof.
  split; [reflexivity|].
  destruct (initializeWorld_replay 0 0%nat (mkParams 1 1 3 10 5 2)
              emptyMem emptyWorld [(0, 0)] [(1, 1)] [])
    as (m' & W' & Hrun & Hw & Hr & Hs & Hf & _).
  - reflexivity.
  - split; [reflexivity|]. repeat constructor.
  - reflexivity.
  - reflexivity.
  - apply NoDup_cons. split.
    + intros Hin. apply list_elem_of_singleton in Hin. discriminate.
    + apply NoDup_singleton.
  - intros d Hin.
    apply elem_of_cons in Hin as [->|Hin];
      [|apply list_elem_of_singleton in Hin; subst d];
      (split; [split; simpl; lia|reflexivity]).
  - reflexivity.
  - exists m', W'. split; [exact Hrun|]. split; [exact Hw|].
    split; [exact Hr|].
    split; [exact (Hs 0%nat (0, 0) eq_refl)|exact (Hf 0%nat (1, 1) eq_refl)].
Defined.

(** X9. The edges of [initializeWorld]: on a world without cells
    ([Size <= 0]) a request for at least one creature panics, in
    [rand.Intn]; a request for no creature (counts zero or negative) draws
    no random number and only copies the three thresholds into the world,
    whatever its size. *)
Theorem initializeWorld_edges fuel w params m W :
  worlds m !! w = Some W ->
  (Size W <= 0 -> 1 <= NumShark params \/ 1 <= NumFish params ->
   initializeWorld (Datatypes.S fuel) w params m = None) /\
  (NumShark params <= 0 -> NumFish params <= 0 ->
   initializeWorld fuel w params m
   = Some (true,
           withWorlds (<[w := mkWorld (Grid W) (Size W) (pFishBreed params)
                                      (pSharkBreed params) (pStarve params)]>
                         (worlds m)) m)).
Proof.
  intros Hw. split.
  - intros HS Hsome. unfold initializeWorld.
    destruct (Z.to_nat (NumShark params)) as [|ns] eqn:Hns.
    + destruct (Z.to_nat (NumFish params)) as [|nf] eqn:Hnf; [lia|].
      change (forFuel 0 ?b) with (mret true : M bool).
      rewrite (run_bind _ _ _ _ _ (run_ret true m)). cbv beta iota.
      rewrite forFuel_unfold.
      unfold mbind, M_bind.
      rewrite (placeAtRandom_panic fuel w _ W m Hw HS). reflexivity.
    + rewrite forFuel_unfold.
      unfold mbind, M_bind.
      rewrite (placeAtRandom_panic fuel w _ W m Hw HS). reflexivity.
  - intros Hns Hnf. unfold initializeWorld.
    replace (Z.to_nat (NumShark params)) with 0%nat by lia.
    replace (Z.to_nat (NumFish params)) with 0%nat by lia.
    change (forFuel 0 ?b) with (mret true : M bool).
    rewrite (run_bind _ _ _ _ _ (run_ret true m)). cbv beta iota.
    rewrite (run_bind _ _ _ _ _ (run_ret true m)). cbv beta iota.
    apply (set_thresholds_run w W params m Hw).
Qed.

Lemma initializeWorld_edges_witness :
  worlds (mkMem [] [mkWorld [] 0 0 0 0] []) !! 0%nat = Some (mkWorld [] 0 0 0 0) /\
  initializeWorld 1 0%nat (mkParams 1 0 3 10 5 0) (mkMem [] [mkWorld [] 0 0 0 0] [])
  = None /\
  initializeWorld 1 0%nat (mkParams 0 (-2) 3 10 5 0) (mkMem [] [mkWorld [] 0 0 0 0] [])
  = Some (true, mkMem [] [mkWorld [] 0 3 10 5] []).
Proof.
  split; [reflexivity|].
  split.
  - apply (proj1 (initializeWorld_edges 0 0%nat (mkParams 1 0 3 10 5 0)
                    (mkMem [] [mkWorld [] 0 0 0 0] []) (mkWorld [] 0 0 0 0)
                    eq_refl)).
    + simpl. lia.
    + left. simpl. lia.
  - apply (proj2 (initializeWorld_edges 1 0%nat (mkParams 0 (-2) 3 10 5 0)
                    (mkMem [] [mkWorld [] 0 0 0 0] []) (mkWorld [] 0 0 0 0)
                    eq_refl)); simpl; lia.
Defined.

(** ** createWorld *)

Lemma createWorld_run size m :
  0 <= size ->
  createWorld size m
  = Some (length (worlds m), withWorlds (worlds m ++ [blankWorld size]) m).
Proof.
  intros Hs. unfold createWorld. rewrite decide_False by lia. reflexivity.
Qed.

Lemma blank_WellFormed size m :
  0 <= size <= max_size ->
  WellFormed (withWorlds (worlds m ++ [blankWorld size]) m) (length (worlds m))
             (blankWorld size).
Proof.
  intros Hs. constructor.
  - apply lookup_snoc_new.
  - exact Hs.
  - apply dims_replicate.
  - cbn [Grid blankWorld]. rewrite ptrsOf_replicate. constructor.
  - cbn [Grid blankWorld]. rewrite ptrsOf_replicate. intros q Hq. inversion Hq.
Qed.

Lemma blank_census h size sp : countSpecies h (Grid (blankWorld size)) sp = 0%nat.
Proof.
  unfold countSpecies. cbn [Grid blankWorld]. rewrite ptrsOf_replicate.
  reflexivity.
Qed.




(** X10. The first census: when [createWorld] and then [initializeWorld]
    have returned, for a size whose square fits in an [int],
    [countPopulation] returns exactly the numbers of fish and of sharks
    that the parameters ask for (0 for a negative number). *)
Theorem setup_census size fuel params m w m0 m' :
  0 <= size -> size * size <= GoInt.max_int ->
  createWorld size m = Some (w, m0) ->
  initializeWorld fuel w params m0 = Some (true, m') ->
  countPopulation w m'
  = Some ((Z.max 0 (NumFish params), Z.max 0 (NumShark params)), m').
Proof.
  intros Hs Hsq Hcreate Hinit.
  rewrite (createWorld_run size m Hs) in Hcreate.
  inversion Hcreate; subst w m0. clear Hcreate.
  assert (0 <= size <= max_size) as Hr by (unfold max_size, GoInt.max_int in *; nia).
  destruct (initial_census fuel _ params _ _ m' (blank_WellFormed size m Hr) Hinit)
    as (W' & Hw' & Hwf' & Hsh & Hfi & Hem).
  rewrite !blank_census in Hsh, Hfi, Hem.
  destruct (initializeWorld_post fuel _ params _ _ m'
              (blank_WellFormed size m Hr) Hinit)
    as (W'' & Hws & _ & HS' & _).
  assert (W'' = W') as ->.
  { rewrite Hws in Hw'. rewrite list_lookup_insert_eq in Hw'.
    - congruence.
    - cbn [worlds withWorlds]. rewrite length_app. simpl. lia. }
  rewrite (countPopulation_exact m' (length (worlds m)) W' Hw'
             (wf_dims _ _ _ Hwf') (wf_valid _ _ _ Hwf'))
    by (rewrite HS'; exact Hsq).
  rewrite Hsh, Hfi, Hem. do 3 f_equal; lia.
Qed.

Lemma setup_census_witness :
  exists m0 m',
    createWorld 2 (mkMem [] [] [0; 0; 1; 1]) = Some (0%nat, m0) /\
    initializeWorld 1 0%nat (mkParams 1 1 3 10 5 2) m0 = Some (true, m') /\
    countPopulation 0%nat m' = Some ((1, 1), m').
Proof.
  assert (exists m0, createWorld 2 (mkMem [] [] [0; 0; 1; 1]) = Some (0%nat, m0))
    as [m0 H0] by (eexists; reflexivity).
  assert (exists m', initializeWorld 1 0%nat (mkParams 1 1 3 10 5 2) m0
                     = Some (true, m')) as [m' H1]
    by (inversion H0; subst m0; eexists; vm_compute; reflexivity).
  exists m0, m'. split; [exact H0|]. split; [exact H1|].
  apply (setup_census 2 1 (mkParams 1 1 3 10 5 2) (mkMem [] [] [0; 0; 1; 1])
           0%nat m0 m'); [lia|vm_compute; discriminate|exact H0|exact H1].
Defined.

(** ** main *)

Lemma simulate_unfold n chronon world params out :
  simulate (Datatypes.S n) chronon world params out =
  (world ← processChronon world params;
   counts ← countPopulation world;
   picture ← printWorld world;
   let out := out ++ populationLine chronon counts.1 counts.2 ++ picture in
   if decide (counts.1 = 0 /\ counts.2 = 0) then
     mret (out ++ text "All life extinct!" ++ [newline])
   else simulate n (GoInt.add chronon 1) world params out).
Proof. reflexivity. Qed.

Lemma simulate_returns n params :
  forall chronon w W m out,
    WellFormed m w W ->
    exists more m', simulate n chronon w params out m = Some (out ++ more, m').
Proof.
  induction n as [|n IH]; intros chronon w W m out Hwf.
  - exists [], m. rewrite app_nil_r. reflexivity.
  - rewrite simulate_unfold.
    destruct (chronon_result m w W params Hwf) as (m1 & nw & Hrun & _ & Hres).
    pose proof (chronon_WellFormed m w W m1 nw Hwf Hres) as Hwf1.
    step Hrun.
    step (countPopulation_run m1 _ nw (wf_world _ _ _ Hwf1) (wf_dims _ _ _ Hwf1)
            (wf_valid _ _ _ Hwf1)).
    step (printWorld_run m1 _ nw (wf_world _ _ _ Hwf1) (wf_dims _ _ _ Hwf1)
            (wf_valid _ _ _ Hwf1)).
    cbv zeta.
    set (counts := countersAt _ _ _ _).
    set (block := populationLine chronon counts.1 counts.2 ++ picture _ _ _).
    destruct (decide (counts.1 = 0 /\ counts.2 = 0)) as [Hext|Hlive].
    + exists (block ++ text "All life extinct!" ++ [newline]), m1.
      unfold mret, M_ret. rewrite <- app_assoc. reflexivity.
    + destruct (IH (GoInt.add chronon 1) _ nw m1 (out ++ block) Hwf1)
        as (more & m' & Hrest).
      exists (block ++ more), m'. rewrite Hrest, <- app_assoc. reflexivity.
Qed.

(** One chronon allocates one world. *)
Lemma chronon_worlds m o ow params m' :
  WellFormed m o ow ->
  processChronon o params m = Some (length (worlds m), m') ->
  length (worlds m') = Datatypes.S (length (worlds m)).
Proof.
  intros Hwf Hrun.
  destruct (chronon_inv m o ow params Hwf) as (m1 & Hscan & Hrun1).
  specialize (Hrun1 place place_ok). unfold processChronon in Hrun.
  rewrite Hrun1 in Hrun. inversion Hrun; subst m1.
  rewrite (scan_len _ _ _ _ _ _ _ Hscan). cbn [worlds scanStart].
  rewrite length_app. simpl. lia.
Qed.

(** X11. The loop of [main] never panics: from a well-formed world, for
    any parameters, any number of chronons and any random stream,
    [processChronon], [countPopulation] and [printWorld] return at every
    round.  The text written is the text there was followed by what the
    rounds have added; the worlds that existed are as they were, and at
    most one world a round has been allocated. *)
Theorem simulate_never_panics n params :
  forall chronon w W m out,
    WellFormed m w W ->
    exists more m',
      simulate n chronon w params out m = Some (out ++ more, m') /\
      (forall k, (k < length (worlds m))%nat -> worlds m' !! k = worlds m !! k) /\
      (length (worlds m) <= length (worlds m') <= length (worlds m) + n)%nat.
Proof.
  induction n as [|n IH]; intros chronon w W m out Hwf.
  - exists [], m. rewrite app_nil_r. split; [reflexivity|]. split; [auto|lia].
  - rewrite simulate_unfold.
    destruct (chronon_result m w W params Hwf) as (m1 & nw & Hrun & _ & Hres).
    pose proof (chronon_WellFormed m w W m1 nw Hwf Hres) as Hwf1.
    pose proof (chronon_worlds m w W params m1 Hwf Hrun) as Hlen1.
    step Hrun.
    step (countPopulation_run m1 _ nw (wf_world _ _ _ Hwf1) (wf_dims _ _ _ Hwf1)
            (wf_valid _ _ _ Hwf1)).
    step (printWorld_run m1 _ nw (wf_world _ _ _ Hwf1) (wf_dims _ _ _ Hwf1)
            (wf_valid _ _ _ Hwf1)).
    cbv zeta.
    set (counts := countersAt _ _ _ _).
    set (block := populationLine chronon counts.1 counts.2 ++ picture _ _ _).
    destruct (decide (counts.1 = 0 /\ counts.2 = 0)) as [Hext|Hlive].
    + exists (block ++ text "All life extinct!" ++ [newline]), m1.
      split; [unfold mret, M_ret; rewrite <- app_assoc; reflexivity|].
      split; [exact (cr_frame _ _ _ _ _ Hres)|lia].
    + destruct (IH (GoInt.add chronon 1) _ nw m1 (out ++ block) Hwf1)
        as (more & m' & Hrest & Hframe & Hlen).
      exists (block ++ more), m'.
      split; [rewrite Hrest, <- app_assoc; reflexivity|].
      split; [|lia].
      intros k Hk. rewrite Hframe by lia. exact (cr_frame _ _ _ _ _ Hres k Hk).
Qed.

Lemma simulate_never_panics_witness :
  WellFormed sampleMem 0%nat sampleWorld /\
  exists more m',
    simulate 3 0 0%nat (mkParams 1 1 3 10 5 2) [] sampleMem = Some ([] ++ more, m') /\
    worlds m' !! 0%nat = Some sampleWorld.
Proof.
  split; [exact sample_WellFormed|].
  destruct (simulate_never_panics 3 (mkParams 1 1 3 10 5 2) 0 0%nat sampleWorld
              sampleMem [] sample_WellFormed) as (more & m' & Hrun & Hframe & _).
  exists more, m'. split; [exact Hrun|].
  apply (Hframe 0%nat). simpl. lia.
Defined.

(** [initializeWorld] does not panic on a world with at least one cell. *)
Lemma initializeWorld_returns fuel w params m W :
  WellFormed m w W -> 1 <= Size W ->
  exists ok m', initializeWorld fuel w params m = Some (ok, m').
Proof.
  intros [Hw Hsize Hdims Hnd Hvalid] HS.
  unfold initializeWorld.
  destruct (forFuel_place_cases fuel w (mkCreature Shark 0 (pStarve params) 0)
              W m (Z.to_nat (NumShark params)) Hdims HS 0 m W Hw
              (Populated_refl _ _ m W Hw Hdims))
    as [(m1 & H1)|(m1 & W1 & H1 & Hw1 & P1)].
  { exists false, m1. rewrite (run_bind _ _ _ _ _ H1). reflexivity. }
  rewrite (run_bind _ _ _ _ _ H1). cbv beta iota.
  assert (dims (Grid W1) (Size W1)) as Hd1
    by (rewrite (pop_size _ _ _ _ _ _ _ P1); exact (pop_dims _ _ _ _ _ _ _ P1)).
  assert (1 <= Size W1) as HS1 by (rewrite (pop_size _ _ _ _ _ _ _ P1); exact HS).
  destruct (forFuel_place_cases fuel w (mkCreature Fish 0 0 0) W1 m1
              (Z.to_nat (NumFish params)) Hd1 HS1 0 m1 W1 Hw1
              (Populated_refl _ _ m1 W1 Hw1 Hd1))
    as [(m2 & H2)|(m2 & W2 & H2 & Hw2 & P2)].
  { exists false, m2. rewrite (run_bind _ _ _ _ _ H2). reflexivity. }
  rewrite (run_bind _ _ _ _ _ H2). cbv beta iota.
  eexists _, _. apply (set_thresholds_run w W2 params m2 Hw2).
Qed.

(** X12. [main] never panics: for every random stream and every memory it
    is started in, either [initializeWorld] is still drawing occupied
    cells when the fuel runs out, and the banner is all that has been
    written, or [main] runs its chronons to the end of the loop and
    returns, and the text written starts with the banner. *)
Theorem main_never_panics fuel m :
  exists ok more m',
    main fuel m = Some ((ok, text "Wa-Tor Simulation:" ++ [newline] ++ more), m') /\
    (ok = false -> more = []).
Proof.
  unfold main.
  assert (0 <= GridSize mainParams <= max_size) as Hr
    by (unfold max_size; simpl; lia).
  rewrite (run_bind _ _ _ _ _ (createWorld_run _ m (proj1 Hr))). cbv beta.
  pose proof (blank_WellFormed _ m Hr) as Hwf.
  set (m0 := withWorlds _ m) in *.
  destruct (initializeWorld_returns fuel _ mainParams m0 _ Hwf ltac:(simpl; lia))
    as ([] & m1 & Hinit).
  - rewrite (run_bind _ _ _ _ _ Hinit). cbv beta iota.
    destruct (initializeWorld_post fuel _ mainParams m0 _ m1 Hwf Hinit)
      as (W' & _ & _ & _ & _ & _ & _ & _ & _ & Hwf').
    destruct (simulate_returns (Z.to_nat 10000) mainParams 0 _ W' m1
                (text "Wa-Tor Simulation:" ++ [newline]) Hwf')
      as (more & m' & Hsim).
    exists true, more, m'. rewrite (run_bind _ _ _ _ _ Hsim).
    split; [|discriminate]. unfold mret, M_ret.
    rewrite <- app_assoc. reflexivity.
  - rewrite (run_bind _ _ _ _ _ Hinit). cbv beta iota.
    exists false, [], m1. split; [|reflexivity].
    rewrite app_nil_r. reflexivity.
Qed.

(** * More about the engine *)

(** ** getAdjacentPositions *)

(** X1. Adjacency is symmetric on the torus: for a grid of size between 1
    and 2^62 and two of its cells, when the second is among the positions
    [getAdjacentPositions] returns for the first, the first is among those
    it returns for the second. *)
Theorem adjacency_symmetric x y x' y' size l :
  1 <= size <= max_size -> 0 <= x < size -> 0 <= y < size ->
  getAdjacentPositions x y size = Some l -> (x', y') ∈ l ->
  exists l', getAdjacentPositions x' y' size = Some l' /\ (x, y) ∈ l'.
Proof.
  intros Hs Hx Hy Hl Hin.
  rewrite (getAdjacentPositions_spec x y size Hs Hx Hy) in Hl.
  inversion Hl; subst l. clear Hl.
  pose proof (neighbors_inGrid x y size (x', y') ltac:(lia) Hx Hy Hin)
    as [Hx' Hy']. simpl in Hx', Hy'.
  exists (neighbors_spec x' y' size).
  split; [apply getAdjacentPositions_spec; assumption|].
  unfold neighbors_spec in *.
  rewrite (west_value x size), (east_value x size),
          (west_value y size), (east_value y size) in Hin by lia.
  rewrite (west_value x' size), (east_value x' size),
          (west_value y' size), (east_value y' size) by lia.
  rewrite !elem_of_cons in Hin. rewrite !elem_of_cons.
  destruct Hin as [Heq|[Heq|[Heq|[Heq|Hnil]]]];
    [inversion Heq; subst; clear Heq..|inversion Hnil].
  - right. left. f_equal. repeat case_decide; lia.
  - left. f_equal. repeat case_decide; lia.
  - right. right. right. left. f_equal. repeat case_decide; lia.
  - right. right. left. f_equal. repeat case_decide; lia.
Qed.

Lemma adjacency_symmetric_witness :
  1 <= 3 <= max_size /\
  getAdjacentPositions 0 0 3 = Some [(2, 0); (1, 0); (0, 2); (0, 1)] /\
  exists l', getAdjacentPositions 2 0 3 = Some l' /\ (0, 0) ∈ l'.
Proof.
  assert (1 <= 3 <= max_size) as Hs by (unfold max_size; lia).
  split; [exact Hs|]. split; [reflexivity|].
  apply (adjacency_symmetric 0 0 2 0 3 [(2, 0); (1, 0); (0, 2); (0, 1)] Hs);
    [lia|lia|reflexivity|left].
Defined.

(** ** The history of a chronon *)

Lemma Reach_ext Gold S FB SB ST h0 G0 (done done' : Z * Z -> Prop) h G :
  (forall d, done d <-> done' d) ->
  Reach Gold S FB SB ST h0 G0 done h G -> Reach Gold S FB SB ST h0 G0 done' h G.
Proof.
  intros Heq Hr. destruct Hr as [done Hno|done done1 h G x y h' G' Hr Hk Hin Hstep Hd].
  - apply reach_start. intros d Hd. apply (Hno d). apply Heq. exact Hd.
  - eapply reach_step; eauto. intros d. rewrite <- Heq. apply Hd.
Qed.

Section ScanReach.

Variables (o n : nat) (ow : World) (h0 : list Creature) (ws0 : list World).
Hypotheses (Hon : o <> n)
           (Hsize : 0 <= Size ow <= max_size)
           (Hdo : dims (Grid ow) (Size ow))
           (Hnd : NoDup (ptrsOf (Grid ow)))
           (Hvalid0 : forall q, q ∈ ptrsOf (Grid ow) -> (q < length h0)%nat).

Local Abbreviation REACH :=
  (Reach (Grid ow) (Size ow) (FishBreed ow) (SharkBreed ow) (Starve ow) h0
         (Grid (freshWorld ow))).

(** The scan invariant together with the history. *)
Local Abbreviation SCANR :=
  (fun (done : Z * Z -> Prop) (m : Mem) =>
     ScanInv o n ow h0 ws0 done m /\
     exists nw, worlds m !! n = Some nw /\ REACH done (creatures m) (Grid nw)).

Lemma scanCell_reach (done : Z * Z -> Prop) x y m :
  SCANR done m -> inGrid (Size ow) (x, y) -> ~ done (x, y) ->
  exists m', SCANR (fun d => done d \/ d = (x, y)) m' /\
    forall put, put_ok put -> scanCell put o n x y m = Some (tt, m').
Proof.
  intros [Hscan (nw & Hn & Hreach)] Hxy Hk.
  destruct (scanCell_inv o n ow h0 ws0 Hon Hsize Hdo Hnd Hvalid0 done x y m
              Hscan Hxy Hk) as (m' & Hscan' & Hrun).
  exists m'. split; [|exact Hrun].
  split; [exact Hscan'|].
  pose proof Hscan as [Hold _ _ (nw0 & Hn0 & _ & _ & _ & _ & HI)].
  assert (nw0 = nw) as -> by congruence.
  assert (1 <= Size ow <= max_size) as HSr
    by (destruct Hxy as [Hx _]; simpl in Hx; lia).
  assert (forall q, q ∈ ptrsOf (Grid ow) -> is_Some (creatures m !! q)) as Hvalid.
  { intros q Hq.
    destruct (lookup_lt_is_Some_2 h0 q (Hvalid0 q Hq)) as [c0 Hc0].
    destruct (inv_species _ _ _ _ _ _ _ _ _ HI q c0 Hc0) as (c & Hc & _). eauto. }
  destruct (scanCell_step o n ow nw (Size ow) x y m Hon Hdo
              (inv_dims _ _ _ _ _ _ _ _ _ HI) eq_refl HSr Hxy Hold Hn Hvalid)
    as (h' & G' & r' & Hstep & Hrun').
  pose proof (Hrun place place_ok) as H1.
  rewrite (Hrun' place place_ok) in H1. inversion H1; subst m'.
  exists (setGrid G' nw). split.
  - cbn [worlds afterStep]. apply list_lookup_insert_eq.
    exact (lookup_lt_Some _ _ _ Hn).
  - cbn [creatures afterStep]. rewrite Grid_setGrid.
    eapply reach_step; [exact Hreach|exact Hk|exact Hxy|exact Hstep|].
    intros d. reflexivity.
Qed.

Lemma SCANR_ext (done done' : Z * Z -> Prop) m :
  (forall d, done d <-> done' d) -> SCANR done m -> SCANR done' m.
Proof.
  intros Heq [Hscan (nw & Hn & Hreach)]. split.
  - eapply ScanInv_ext; eauto.
  - exists nw. split; [exact Hn|]. eapply Reach_ext; eauto.
Qed.

Lemma column_reach x y m :
  0 <= x < Size ow -> 0 <= y <= Size ow ->
  SCANR (before (Size ow) x 0) m ->
  exists m', SCANR (before (Size ow) x y) m' /\
    forall put, put_ok put ->
      forRange y (fun y' => scanCell put o n x y') m = Some (tt, m').
Proof.
  intros Hx Hy Hrow.
  apply (forRange_family put_ok (fun put y' => scanCell put o n x y')
           (fun y' m => SCANR (before (Size ow) x y') m) y m);
    [lia|exact Hrow|].
  intros y' m2 Hy' Hcell.
  destruct (scanCell_reach _ x y' m2 Hcell) as (m' & Hnext & Hrun).
  - split; simpl; lia.
  - unfold before. simpl. lia.
  - exists m'. split; [|exact Hrun].
    eapply SCANR_ext; [|exact Hnext]. intros d. apply before_next; lia.
Qed.

Lemma scan_reach m :
  SCANR (before (Size ow) 0 0) m ->
  exists m', SCANR (before (Size ow) (Size ow) 0) m' /\
    forall put, put_ok put -> scan put o n (Size ow) m = Some (tt, m').
Proof.
  intros H0.
  apply (forRange_family put_ok
           (fun put x' => forRange (Size ow) (fun y => scanCell put o n x' y))
           (fun x' m => SCANR (before (Size ow) x' 0) m) (Size ow) m);
    [lia|exact H0|].
  intros x' m1 Hx' Hrow.
  destruct (column_reach x' (Size ow) m1 ltac:(lia) ltac:(lia) Hrow)
    as (m' & Hend & Hrun).
  exists m'. split; [|exact Hrun].
  eapply SCANR_ext; [|exact Hend]. intros d. apply before_row.
Qed.

End ScanReach.

(** One chronon on a well-formed world, with its history. *)
Lemma chronon_reach m o ow params :
  WellFormed m o ow ->
  exists m' nw,
    processChronon o params m = Some (length (worlds m), m') /\
    ChrononResult m o ow m' nw /\
    Reach (Grid ow) (Size ow) (FishBreed ow) (SharkBreed ow) (Starve ow)
          (creatures m) (Grid (freshWorld ow)) (inGrid (Size ow))
          (creatures m') (Grid nw).
Proof.
  intros Hwf. pose proof Hwf as [Hw Hsize Hdims Hnd Hvalid].
  pose proof (lookup_lt_Some _ _ _ Hw) as Hlt.
  destruct (scan_reach o (length (worlds m)) ow (creatures m)
              (worlds (scanStart m ow)) ltac:(lia) Hsize Hdims Hnd Hvalid
              (scanStart m ow)) as (m' & [Hscan (nw & Hn & Hreach)] & Hrun).
  { split; [apply ScanInv_start; exact Hwf|].
    exists (freshWorld ow). split.
    - cbn [worlds scanStart]. apply lookup_snoc_new.
    - apply reach_start. apply before_none. }
  destruct (chronon_result m o ow params Hwf) as (m1 & nw1 & Hrun1 & _ & Hres).
  assert (processChronon o params m = Some (length (worlds m), m')) as Hrun'.
  { unfold processChronon. rewrite (chronon_start m o ow params Hwf).
    rewrite (run_bind _ _ _ _ _ (Hrun place place_ok)). reflexivity. }
  rewrite Hrun' in Hrun1. inversion Hrun1; subst m1.
  assert (nw1 = nw) as -> by (pose proof (cr_new _ _ _ _ _ Hres); congruence).
  exists m', nw. split; [exact Hrun'|]. split; [exact Hres|].
  eapply Reach_ext; [|exact Hreach]. intros d. apply before_all.
Qed.

(** ** Invariants of the history *)

Section History.

Variables (ow : World) (h0 : list Creature).
Hypotheses (Hdo : dims (Grid ow) (Size ow))
           (Hnd : NoDup (ptrsOf (Grid ow)))
           (Hvalid0 : forall q, q ∈ ptrsOf (Grid ow) -> (q < length h0)%nat).

Local Abbreviation Gold := (Grid ow).
Local Abbreviation REACH :=
  (Reach (Grid ow) (Size ow) (FishBreed ow) (SharkBreed ow) (Starve ow) h0
         (Grid (freshWorld ow))).
Local Abbreviation INV :=
  (Inv (Grid ow) (Size ow) (FishBreed ow) (SharkBreed ow) (Starve ow) h0).
Local Abbreviation STEP :=
  (CellStep (Grid ow) (Size ow) (FishBreed ow) (SharkBreed ow) (Starve ow)).

Lemma Reach_Inv (done : Z * Z -> Prop) h G : REACH done h G -> INV done h G.
Proof.
  induction 1 as [done Hno|done done' h G x y h' G' Hr IH Hk Hin Hstep Hd].
  - eapply Inv_ext; [|apply Inv_start].
    intros d. split; [intros Hb; destruct (before_none _ _ Hb)|intros Hb; destruct (Hno d Hb)].
  - eapply Inv_ext; [|eapply Inv_step; eauto].
    intros d. cbv beta. rewrite Hd. reflexivity.
Qed.

(** A step of the scan fills free cells only, and touches no record but
    that of the creature in the cell it visits. *)
Lemma CellStep_grid (done : Z * Z -> Prop) x y h G h' G' :
  INV done h G -> STEP x y h G h' G' ->
  forall e r, gridGet G e.1 e.2 = Some (Some r) ->
              gridGet G' e.1 e.2 = Some (Some r).
Proof.
  intros HI Hstep e r Hr.
  destruct Hstep
    as [Hnil|f q Hf Hq|p c c' Hp Hfree Hc Hsp Hage Hdrop
       |p c c' d G' Hp Hfree Hc Hal Hlb Hleg Hthr Hset
       |p c c' d G1 G' Hp Hfree Hc Hal Hlb Hthr Hleg Hne Hset1 Hset];
    try exact Hr.
  - destruct (Legal_loc _ _ _ _ _ _ Hvalid0 _ _ _ _ _ c c' d HI Hleg
                (proj1 Hal)) as [Hd _].
    exact (gridSet_keeps _ _ d _ Hd Hset e r Hr).
  - destruct (Legal_loc _ _ _ _ _ _ Hvalid0 _ _ _ _ _ c c' d HI Hleg
                (proj1 Hal)) as [Hd _].
    apply (gridSet_keeps G1 G' d (Some p)); [|exact Hset|].
    + rewrite (gridGet_gridSet_ne _ _ _ _ _ d.1 d.2 Hset1); [exact Hd|].
      destruct d; exact Hne.
    + exact (gridSet_keeps G G1 (x, y) _ Hfree Hset1 e r Hr).
Qed.

Lemma CellStep_heap x y h G h' G' :
  STEP x y h G h' G' ->
  forall r, gridGet Gold x y <> Some (Some r) -> (r < length h)%nat ->
            h' !! r = h !! r.
Proof.
  intros Hstep r Hr Hlt.
  destruct Hstep
    as [Hnil|f q Hf Hq|p c c' Hp Hfree Hc Hsp Hage Hdrop
       |p c c' d G' Hp Hfree Hc Hal Hlb Hleg Hthr Hset
       |p c c' d G1 G' Hp Hfree Hc Hal Hlb Hthr Hleg Hne Hset1 Hset];
    try reflexivity.
  - apply list_lookup_insert_ne. congruence.
  - apply list_lookup_insert_ne. congruence.
  - rewrite lookup_app_l by (rewrite length_insert; exact Hlt).
    apply list_lookup_insert_ne. congruence.
Qed.

(** *** What becomes of the creatures of the old grid *)

Lemma Reach_Fate (done : Z * Z -> Prop) h G :
  REACH done h G ->
  forall src p c0,
    done src -> gridGet Gold src.1 src.2 = Some (Some p) -> h0 !! p = Some c0 ->
    Fate Gold h0 h G src p c0.
Proof.
  induction 1 as [done Hno|done done' h G x y h' G' Hr IH Hk Hin Hstep Hd];
    intros src p c0 Hsrc Hp Hc0.
  - destruct (Hno src Hsrc).
  - pose proof (Reach_Inv _ _ _ Hr) as HI.
    apply Hd in Hsrc as [Hsrc| ->].
    + (* a cell visited before *)
      assert (gridGet Gold x y <> Some (Some p)) as Hother.
      { intros Hxy. apply Hk.
        rewrite (old_inj _ Hnd src (x, y) p Hp Hxy). exact Hsrc. }
      pose proof (CellStep_grid _ _ _ _ _ _ _ HI Hstep) as Hgrid.
      destruct (IH src p c0 Hsrc Hp Hc0)
        as [Hin'|[Hstarved|[Hnone|(Hfish & Hrec & q & cq & Hq & Hqp & Hqo & Hcq & Hsq)]]].
      * left. apply elem_of_ptrsOf in Hin' as (a & b & Hab).
        apply elem_of_ptrsOf. exists a, b. exact (Hgrid (a, b) p Hab).
      * right. left. exact Hstarved.
      * right. right. left. exact Hnone.
      * right. right. right. split; [exact Hfish|]. split.
        -- rewrite (CellStep_heap _ _ _ _ _ _ Hstep p Hother
                      (lookup_lt_Some _ _ _ Hrec)). exact Hrec.
        -- exists q, cq. split; [exact (Hgrid src q Hq)|]. auto.
    + (* the cell of this step *)
      cbn [fst snd] in Hp.
      pose proof (inv_todo _ _ _ _ _ _ _ _ _ HI (x, y) p Hk Hp) as Htodo.
      destruct Hstep
        as [Hnil|f q Hf Hq|p' c c' Hp' Hfree Hc Hsp Hage Hdrop
           |p' c c' d G' Hp' Hfree Hc Hal Hlb Hleg Hthr Hset
           |p' c c' d G1 G' Hp' Hfree Hc Hal Hlb Hthr Hleg Hne Hset1 Hset].
      * congruence.
      * assert (f = p) as -> by congruence.
        destruct (Inv_skip _ _ _ _ _ _ _ _ _ (x, y) p q HI Hk Hf Hq)
          as (s & cs0 & cs & cf & Hs & Hsq & _ & Hcs0 & _ & Hsp & _ & _ & Hcf & Hff).
        right. right. right.
        assert (cf = c0) as -> by congruence.
        split; [exact Hff|]. split; [rewrite Htodo; exact Hc0|].
        exists q, cs0. split; [exact Hq|]. split.
        -- intros ->.
           apply (Inv_todo_absent _ _ _ _ _ _ Hnd Hvalid0 _ _ _ (x, y) p HI Hk Hf).
           apply elem_of_ptrsOf. eauto.
        -- split; [apply elem_of_ptrsOf; exists s.1, s.2; exact Hsq|]. auto.
      * assert (p' = p) as -> by congruence.
        assert (c = c0) as -> by congruence.
        destruct Hdrop as [Hnone|(Hshark & He & Hle)].
        -- right. right. left. exact Hnone.
        -- right. left. split; [exact Hshark|]. rewrite <- He. exact Hle.
      * assert (p' = p) as -> by congruence.
        left. apply elem_of_ptrsOf. exists d.1, d.2.
        exact (gridGet_gridSet_eq _ _ _ _ _ Hset).
      * assert (p' = p) as -> by congruence.
        left. apply elem_of_ptrsOf. exists d.1, d.2.
        exact (gridGet_gridSet_eq _ _ _ _ _ Hset).
Qed.

(** *** The breed timers *)

Lemma Timer_keep h G h' G' d p :
  h' !! p = h !! p ->
  (forall e r, gridGet G e.1 e.2 = Some (Some r) ->
               gridGet G' e.1 e.2 = Some (Some r)) ->
  Timer Gold (FishBreed ow) (SharkBreed ow) h0 h G d p ->
  Timer Gold (FishBreed ow) (SharkBreed ow) h0 h' G' d p.
Proof.
  intros Hh Hg (c0 & c & Hc0 & Hc & Hcases).
  exists c0, c. split; [exact Hc0|]. split; [rewrite Hh; exact Hc|].
  destruct Hcases as [Hcount|(Hz & Hthr & src & k & Hsrc & Hne & Hk & Hlen)];
    [left; exact Hcount|right].
  split; [exact Hz|]. split; [exact Hthr|].
  exists src, k. split; [exact Hsrc|]. split; [exact Hne|].
  split; [exact (Hg src k Hk)|exact Hlen].
Qed.

Lemma Reach_Timer (done : Z * Z -> Prop) h G :
  REACH done h G ->
  forall d p, gridGet G d.1 d.2 = Some (Some p) -> (p < length h0)%nat ->
    Timer Gold (FishBreed ow) (SharkBreed ow) h0 h G d p.
Proof.
  induction 1 as [done Hno|done done' h G x y h' G' Hr IH Hk Hin Hstep Hd];
    intros e p Hp Hlt.
  - apply gridGet_replicate in Hp. discriminate.
  - pose proof (Reach_Inv _ _ _ Hr) as HI.
    pose proof (CellStep_grid _ _ _ _ _ _ _ HI Hstep) as Hgrid.
    pose proof (CellStep_heap _ _ _ _ _ _ Hstep) as Hheap.
    assert (forall r, gridGet G e.1 e.2 = Some (Some r) ->
              gridGet Gold x y <> Some (Some r)) as Hplaced.
    { intros r Hr' Hxy.
      apply (Inv_todo_absent _ _ _ _ _ _ Hnd Hvalid0 _ _ _ (x, y) r HI Hk Hxy).
      apply elem_of_ptrsOf. eauto. }
    assert (gridGet G e.1 e.2 = Some (Some p) ->
            Timer Gold (FishBreed ow) (SharkBreed ow) h0 h' G' e p) as Hold.
    { intros Hp'. apply (Timer_keep h G); [|exact Hgrid|exact (IH e p Hp' Hlt)].
      apply Hheap; [exact (Hplaced p Hp')|].
      apply (Inv_placed_lt _ _ _ _ _ _ _ _ _ _ HI).
      apply elem_of_ptrsOf. eauto. }
    destruct Hstep
      as [Hnil|f q Hf Hq|p' c c' Hp' Hfree Hc Hsp Hage Hdrop
         |p' c c' d G' Hp' Hfree Hc Hal Hlb Hleg Hthr Hset
         |p' c c' d G1 G' Hp' Hfree Hc Hal Hlb Hthr Hleg Hne Hset1 Hset];
      try (apply Hold; exact Hp).
    + (* the creature is put into a cell *)
      pose proof (inv_todo _ _ _ _ _ _ _ _ _ HI (x, y) p' Hk Hp') as Htodo.
      destruct (gridSet_cases _ _ d _ e _ Hset Hp) as [[-> Heq]|[Hned Hp0]];
        [|apply Hold; exact Hp0].
      inversion Heq; subst p'. clear Heq.
      exists c, c'. split; [rewrite <- Htodo; exact Hc|].
      split; [apply list_lookup_insert_eq; exact (lookup_lt_Some _ _ _ Hc)|].
      left. split; [exact Hlb|].
      destruct (decide (d = (x, y))) as [->|Hmoved].
      * left. exact Hp'.
      * right. exact (Hthr Hmoved).
    + (* the creature breeds *)
      pose proof (inv_todo _ _ _ _ _ _ _ _ _ HI (x, y) p' Hk Hp') as Htodo.
      destruct (gridSet_cases _ _ d _ e _ Hset Hp) as [[-> Heq]|[Hned Hp1]].
      * inversion Heq; subst p'. clear Heq.
        exists c, c'. split; [rewrite <- Htodo; exact Hc|].
        split.
        { rewrite lookup_app_l
            by (rewrite length_insert; exact (lookup_lt_Some _ _ _ Hc)).
          apply list_lookup_insert_eq. exact (lookup_lt_Some _ _ _ Hc). }
        right. split; [exact Hlb|]. split; [exact Hthr|].
        exists (x, y), (length h). split; [exact Hp'|]. split; [exact Hne|].
        split; [|exact (inv_len _ _ _ _ _ _ _ _ _ HI)].
        cbn [fst snd].
        rewrite (gridGet_gridSet_ne _ _ _ _ _ x y Hset)
          by (intros Heq; apply Hne; destruct d; inversion Heq; reflexivity).
        exact (gridGet_gridSet_eq _ _ _ _ _ Hset1).
      * destruct (gridSet_cases _ _ (x, y) _ e _ Hset1 Hp1) as [[-> Heq]|[Hnexy Hp0]].
        -- inversion Heq; subst p.
           pose proof (inv_len _ _ _ _ _ _ _ _ _ HI). lia.
        -- apply Hold. exact Hp0.
Qed.

(** *** The creatures made in the chronon *)

Lemma Reach_births (done : Z * Z -> Prop) h G :
  REACH done h G ->
  forall k, (length h0 <= k < length h)%nat -> k ∈ ptrsOf G.
Proof.
  induction 1 as [done Hno|done done' h G x y h' G' Hr IH Hk Hin Hstep Hd];
    intros k Hlen; [lia|].
  pose proof (Reach_Inv _ _ _ Hr) as HI.
  pose proof (CellStep_grid _ _ _ _ _ _ _ HI Hstep) as Hgrid.
  assert ((length h0 <= k < length h)%nat -> k ∈ ptrsOf G') as Hold.
  { intros Hk'.
    destruct (proj1 (elem_of_ptrsOf _ _) (IH k Hk')) as (a & b & Hab).
    apply elem_of_ptrsOf. exists a, b. exact (Hgrid (a, b) k Hab). }
  destruct Hstep
    as [Hnil|f q Hf Hq|p c c' Hp Hfree Hc Hsp Hage Hdrop
       |p c c' d G' Hp Hfree Hc Hal Hlb Hleg Hthr Hset
       |p c c' d G1 G' Hp Hfree Hc Hal Hlb Hthr Hleg Hne Hset1 Hset].
  - apply Hold. exact Hlen.
  - apply Hold. exact Hlen.
  - rewrite length_insert in Hlen. apply Hold. exact Hlen.
  - rewrite length_insert in Hlen. apply Hold. exact Hlen.
  - rewrite length_app, length_insert in Hlen. simpl in Hlen.
    destruct (decide (k = length h)) as [->|Hne']; [|apply Hold; lia].
    apply elem_of_ptrsOf. exists x, y.
    rewrite (gridGet_gridSet_ne _ _ _ _ _ x y Hset)
      by (intros Heq; apply Hne; destruct d; inversion Heq; reflexivity).
    exact (gridGet_gridSet_eq _ _ _ _ _ Hset1).
Qed.

End History.

(** ** More properties of one chronon *)

(** X13. No creature moves further than one cell, and none moves onto a
    cell that was taken: a creature of the old grid found in the new grid
    is in the cell it was in, or in one of the four neighbours of that
    cell, and this neighbour was empty in the old grid or, for a shark
    only, held a fish. *)
Theorem creatures_move_one_cell m o ow params :
  WellFormed m o ow ->
  exists m' nw,
    processChronon o params m = Some (length (worlds m), m') /\
    worlds m' !! length (worlds m) = Some nw /\
    forall x y p,
      gridGet (Grid nw) x y = Some (Some p) -> (p < length (creatures m))%nat ->
      exists sx sy c0,
        gridGet (Grid ow) sx sy = Some (Some p) /\
        creatures m !! p = Some c0 /\
        ((x, y) = (sx, sy) \/
         ((x, y) ∈ neighbors_spec sx sy (Size ow) /\
          (gridGet (Grid ow) x y = Some None \/
           (species c0 = Shark /\
            exists f cf, gridGet (Grid ow) x y = Some (Some f) /\
                         creatures m !! f = Some cf /\ species cf = Fish)))).
Proof.
  intros Hwf.
  destruct (chronon_result m o ow params Hwf) as (m' & nw & Hrun & _ & Hres).
  exists m', nw. split; [exact Hrun|]. split; [exact (cr_new _ _ _ _ _ Hres)|].
  intros x y p Hp Hlt.
  destruct (inv_placed _ _ _ _ _ _ _ _ _ (cr_inv _ _ _ _ _ Hres) (x, y) p Hp)
    as [src c0 c Hsrc _ Hc0 Hc Hal Hloc|q cq0 cq dq Hl _ _ _ _ _ _ _ _ _ _ _];
    [|lia].
  exists src.1, src.2, c0. split; [exact Hsrc|]. split; [exact Hc0|].
  destruct Hloc as [->|[Hadj Hdest]]; [left; destruct src; reflexivity|right].
  split; [exact Hadj|].
  destruct Hdest as [Hempty|(f & cf & Hf & Hcf & Hfish & Hshark & _)];
    [left; exact Hempty|right].
  split; [exact Hshark|]. exists f, cf. auto.
Qed.

Lemma creatures_move_one_cell_witness :
  WellFormed sampleMem 0%nat sampleWorld /\
  exists m' nw,
    processChronon 0%nat (mkParams 0 0 3 10 5 2) sampleMem = Some (1%nat, m') /\
    worlds m' !! 1%nat = Some nw.
Proof.
  split; [exact sample_WellFormed|].
  destruct (creatures_move_one_cell sampleMem 0%nat sampleWorld
              (mkParams 0 0 3 10 5 2) sample_WellFormed)
    as (m' & nw & Hrun & Hnw & _).
  exists m', nw. split; [exact Hrun|exact Hnw].
Defined.

(** X14. A chronon ages by exactly one (as a 64-bit integer) every
    creature of the old grid that it puts into the new grid, keeps its
    species, and leaves the energy of a fish as it was. *)
Theorem survivors_age_by_one m o ow params :
  WellFormed m o ow ->
  exists m' nw,
    processChronon o params m = Some (length (worlds m), m') /\
    worlds m' !! length (worlds m) = Some nw /\
    forall x y p,
      gridGet (Grid nw) x y = Some (Some p) -> (p < length (creatures m))%nat ->
      exists c0 c,
        creatures m !! p = Some c0 /\ creatures m' !! p = Some c /\
        species c = species c0 /\ Age c = GoInt.add (Age c0) 1 /\
        (species c0 = Fish -> Energy c = Energy c0).
Proof.
  intros Hwf.
  destruct (chronon_result m o ow params Hwf) as (m' & nw & Hrun & _ & Hres).
  exists m', nw. split; [exact Hrun|]. split; [exact (cr_new _ _ _ _ _ Hres)|].
  intros x y p Hp Hlt.
  destruct (inv_placed _ _ _ _ _ _ _ _ _ (cr_inv _ _ _ _ _ Hres) (x, y) p Hp)
    as [src c0 c Hsrc _ Hc0 Hc (Hsp & Hage & Hen) Hloc
       |q cq0 cq dq Hl _ _ _ _ _ _ _ _ _ _ _];
    [|lia].
  exists c0, c. split; [exact Hc0|]. split; [exact Hc|].
  split; [exact Hsp|]. split; [exact Hage|].
  intros Hfish. destruct Hen as [[_ He]|[Hshark _]]; [exact He|congruence].
Qed.

Lemma survivors_age_by_one_witness :
  WellFormed sampleMem 0%nat sampleWorld /\
  exists m' nw,
    processChronon 0%nat (mkParams 0 0 3 10 5 2) sampleMem = Some (1%nat, m') /\
    worlds m' !! 1%nat = Some nw.
Proof.
  split; [exact sample_WellFormed|].
  destruct (survivors_age_by_one sampleMem 0%nat sampleWorld
              (mkParams 0 0 3 10 5 2) sample_WellFormed)
    as (m' & nw & Hrun & Hnw & _).
  exists m', nw. split; [exact Hrun|exact Hnw].
Defined.

(** The fate of the creatures of the old grid when the chronon is over. *)
Lemma chronon_fate m o ow params :
  WellFormed m o ow ->
  exists m' nw,
    processChronon o params m = Some (length (worlds m), m') /\
    ChrononResult m o ow m' nw /\
    (forall x y p c0,
       gridGet (Grid ow) x y = Some (Some p) -> creatures m !! p = Some c0 ->
       Fate (Grid ow) (creatures m) (creatures m') (Grid nw) (x, y) p c0) /\
    (forall x y p,
       gridGet (Grid nw) x y = Some (Some p) -> (p < length (creatures m))%nat ->
       Timer (Grid ow) (FishBreed ow) (SharkBreed ow) (creatures m)
             (creatures m') (Grid nw) (x, y) p) /\
    (forall k, (length (creatures m) <= k < length (creatures m'))%nat ->
       k ∈ ptrsOf (Grid nw)).
Proof.
  intros Hwf. pose proof Hwf as [Hw Hsize Hdims Hnd Hvalid].
  destruct (chronon_reach m o ow params Hwf) as (m' & nw & Hrun & Hres & Hreach).
  exists m', nw. split; [exact Hrun|]. split; [exact Hres|].
  split; [|split].
  - intros x y p c0 Hp Hc0.
    eapply (Reach_Fate ow (creatures m)); eauto.
    exact (gridGet_inGrid _ _ _ _ _ Hdims Hp).
  - intros x y p Hp Hlt.
    eapply (Reach_Timer ow (creatures m)); eauto.
  - intros k Hk. eapply (Reach_births ow (creatures m)); eauto.
Qed.

(** X15. A shark leaves the grid only by starving: every shark of the old
    grid whose energy, once decremented, is still positive is in the new
    grid. *)
Theorem sharks_survive_unless_starving m o ow params :
  WellFormed m o ow ->
  exists m' nw,
    processChronon o params m = Some (length (worlds m), m') /\
    worlds m' !! length (worlds m) = Some nw /\
    forall x y p c0,
      gridGet (Grid ow) x y = Some (Some p) -> creatures m !! p = Some c0 ->
      species c0 = Shark -> 0 < GoInt.sub (Energy c0) 1 ->
      p ∈ ptrsOf (Grid nw).
Proof.
  intros Hwf.
  destruct (chronon_fate m o ow params Hwf) as (m' & nw & Hrun & Hres & Hfate & _ & _).
  exists m', nw. split; [exact Hrun|]. split; [exact (cr_new _ _ _ _ _ Hres)|].
  intros x y p c0 Hp Hc0 Hshark Hen.
  destruct (Hfate x y p c0 Hp Hc0)
    as [Hin|[[_ Hle]|[Hnone|(Hfish & _)]]]; [exact Hin|lia|congruence|congruence].
Qed.

Lemma sharks_survive_unless_starving_witness :
  WellFormed sampleMem 0%nat sampleWorld /\
  exists m' nw,
    processChronon 0%nat (mkParams 0 0 3 10 5 2) sampleMem = Some (1%nat, m') /\
    worlds m' !! 1%nat = Some nw /\ 0%nat ∈ ptrsOf (Grid nw).
Proof.
  split; [exact sample_WellFormed|].
  destruct (sharks_survive_unless_starving sampleMem 0%nat sampleWorld
              (mkParams 0 0 3 10 5 2) sample_WellFormed)
    as (m' & nw & Hrun & Hnw & Hkeep).
  exists m', nw. split; [exact Hrun|]. split; [exact Hnw|].
  apply (Hkeep 0 0 0%nat (mkCreature Shark 0 5 0)); try reflexivity.
Defined.

(** X16. A fish leaves the grid only when a shark takes its cell: every
    fish of the old grid is in the new grid, or its cell holds, in the new
    grid, a shark of the old grid whose energy is the starvation
    threshold, and then the record of the fish is as it was (it has not
    been aged). *)
Theorem fish_vanish_only_when_eaten m o ow params :
  WellFormed m o ow ->
  exists m' nw,
    processChronon o params m = Some (length (worlds m), m') /\
    worlds m' !! length (worlds m) = Some nw /\
    forall x y p c0,
      gridGet (Grid ow) x y = Some (Some p) -> creatures m !! p = Some c0 ->
      species c0 = Fish ->
      p ∈ ptrsOf (Grid nw) \/
      (creatures m' !! p = Some c0 /\
       exists q cq,
         gridGet (Grid nw) x y = Some (Some q) /\
         q ∈ ptrsOf (Grid ow) /\
         creatures m' !! q = Some cq /\ species cq = Shark /\
         Energy cq = Starve ow).
Proof.
  intros Hwf.
  destruct (chronon_fate m o ow params Hwf) as (m' & nw & Hrun & Hres & Hfate & _ & _).
  exists m', nw. split; [exact Hrun|]. split; [exact (cr_new _ _ _ _ _ Hres)|].
  intros x y p c0 Hp Hc0 Hfish.
  destruct (Hfate x y p c0 Hp Hc0)
    as [Hin|[[Hsh _]|[Hnone|(_ & Hrec & q & cq0 & Hq & _ & Hqo & Hcq0 & Hsq)]]];
    [left; exact Hin|congruence|congruence|right].
  split; [exact Hrec|].
  destruct (inv_species _ _ _ _ _ _ _ _ _ (cr_inv _ _ _ _ _ Hres) q cq0 Hcq0)
    as (cq & Hcq & Hspq).
  exists q, cq. split; [exact Hq|]. split; [exact Hqo|]. split; [exact Hcq|].
  split; [congruence|].
  exact (proj1 (meal_resets_energy m o ow m' nw Hwf Hres x y q p c0 cq
                  Hq Hp Hc0 Hfish Hcq ltac:(congruence))).
Qed.

Lemma fish_vanish_only_when_eaten_witness :
  WellFormed sampleMem 0%nat sampleWorld /\
  exists m' nw,
    processChronon 0%nat (mkParams 0 0 3 10 5 2) sampleMem = Some (1%nat, m') /\
    worlds m' !! 1%nat = Some nw /\
    (1%nat ∈ ptrsOf (Grid nw) \/
     creatures m' !! 1%nat = Some (mkCreature Fish 0 0 0)).
Proof.
  split; [exact sample_WellFormed|].
  destruct (fish_vanish_only_when_eaten sampleMem 0%nat sampleWorld
              (mkParams 0 0 3 10 5 2) sample_WellFormed)
    as (m' & nw & Hrun & Hnw & Hfate).
  exists m', nw. split; [exact Hrun|]. split; [exact Hnw|].
  destruct (Hfate 1 0 1%nat (mkCreature Fish 0 0 0) eq_refl eq_refl eq_refl)
    as [Hin|[Hrec _]]; [left; exact Hin|right; exact Hrec].
Defined.

(** X17. The breeding rule, from the timers: a creature of the old grid
    found in the new grid has its breed timer either incremented by one,
    and then it has stayed in its cell or the incremented timer is below
    the threshold of its species; or reset to 0, and then the incremented
    timer had reached the threshold, the creature has moved and the cell
    it has left holds a creature made in this chronon.  So a creature that
    moves breeds exactly when it is due, and one that cannot move does
    not breed and keeps counting. *)
Theorem breeding_rule m o ow params :
  WellFormed m o ow ->
  exists m' nw,
    processChronon o params m = Some (length (worlds m), m') /\
    worlds m' !! length (worlds m) = Some nw /\
    forall x y p,
      gridGet (Grid nw) x y = Some (Some p) -> (p < length (creatures m))%nat ->
      exists c0 c,
        creatures m !! p = Some c0 /\ creatures m' !! p = Some c /\
        ((LastBreed c = GoInt.add (LastBreed c0) 1 /\
          (gridGet (Grid ow) x y = Some (Some p) \/
           LastBreed c < threshold (FishBreed ow) (SharkBreed ow) (species c0))) \/
         (LastBreed c = 0 /\
          threshold (FishBreed ow) (SharkBreed ow) (species c0)
            <= GoInt.add (LastBreed c0) 1 /\
          exists sx sy k,
            gridGet (Grid ow) sx sy = Some (Some p) /\ (x, y) <> (sx, sy) /\
            gridGet (Grid nw) sx sy = Some (Some k) /\
            (length (creatures m) <= k)%nat)).
Proof.
  intros Hwf.
  destruct (chronon_fate m o ow params Hwf) as (m' & nw & Hrun & Hres & _ & Htimer & _).
  exists m', nw. split; [exact Hrun|]. split; [exact (cr_new _ _ _ _ _ Hres)|].
  intros x y p Hp Hlt.
  destruct (Htimer x y p Hp Hlt) as (c0 & c & Hc0 & Hc & Hcases).
  exists c0, c. split; [exact Hc0|]. split; [exact Hc|].
  destruct Hcases as [Hcount|(Hz & Hthr & src & k & Hsrc & Hne & Hk & Hlen)];
    [left; exact Hcount|right].
  split; [exact Hz|]. split; [exact Hthr|].
  exists src.1, src.2, k. split; [exact Hsrc|].
  split; [destruct src; exact Hne|]. split; [exact Hk|exact Hlen].
Qed.

Lemma breeding_rule_witness :
  WellFormed timerMem 0%nat timerWorld /\
  exists m' nw,
    processChronon 0%nat (mkParams 0 1 3 10 5 3) timerMem = Some (1%nat, m') /\
    worlds m' !! 1%nat = Some nw.
Proof.
  assert (WellFormed timerMem 0%nat timerWorld) as Hwf.
  { constructor.
    - reflexivity.
    - unfold max_size. simpl. lia.
    - split; [reflexivity|]. repeat constructor.
    - vm_compute. apply NoDup_singleton.
    - intros q Hq. vm_compute in Hq.
      apply list_elem_of_singleton in Hq. subst q. simpl. lia. }
  split; [exact Hwf|].
  destruct (breeding_rule timerMem 0%nat timerWorld (mkParams 0 1 3 10 5 3) Hwf)
    as (m' & nw & Hrun & Hnw & _).
  exists m', nw. split; [exact Hrun|exact Hnw].
Defined.

(** *** Lower bounds on the census *)

(** X18. A chronon removes at most as many fish as there are sharks: the
    number of fish in the old grid is at most the number of fish in the
    new grid plus the number of sharks in the old grid; in particular,
    without sharks the number of fish does not decrease. *)
Theorem fish_lost_at_most_sharks m o ow params :
  WellFormed m o ow ->
  exists m' nw,
    processChronon o params m = Some (length (worlds m), m') /\
    worlds m' !! length (worlds m) = Some nw /\
    (countSpecies (creatures m) (Grid ow) Fish
     <= countSpecies (creatures m') (Grid nw) Fish
        + countSpecies (creatures m) (Grid ow) Shark)%nat.
Proof.
  intros Hwf. pose proof Hwf as [Hw Hsize Hdims Hnd Hvalid].
  destruct (chronon_fate m o ow params Hwf) as (m' & nw & Hrun & Hres & Hfate & _ & _).
  exists m', nw. split; [exact Hrun|]. split; [exact (cr_new _ _ _ _ _ Hres)|].
  pose proof (cr_inv _ _ _ _ _ Hres) as HI.
  unfold countSpecies.
  rewrite (length_filter_split (λ p, speciesAt (creatures m) p = Some Fish)
             (λ p, p ∈ ptrsOf (Grid nw))).
  apply Nat.add_le_mono.
  - (* the fish that are still there *)
    apply submseteq_length. apply NoDup_submseteq.
    + apply list.NoDup_filter. exact Hnd.
    + intros p (Hp & Hin)%list_elem_of_filter. destruct Hp as [Hsp Hnew].
      apply list_elem_of_filter. split; [|exact Hnew].
      unfold speciesAt in *.
      destruct (creatures m !! p) as [c0|] eqn:Hc0; [|discriminate].
      destruct (inv_species _ _ _ _ _ _ _ _ _ HI p c0 Hc0) as (c & Hc & Hs).
      rewrite Hc. simpl in *. congruence.
  - (* the fish that are gone, each with the shark in its cell *)
    apply (length_le_injection
             (λ p q, exists x y, gridGet (Grid ow) x y = Some (Some p) /\
                                 gridGet (Grid nw) x y = Some (Some q))).
    + apply list.NoDup_filter. exact Hnd.
    + intros p p' q _ _ (x & y & Hp & Hq) (x' & y' & Hp' & Hq').
      pose proof (NoDup_ptrsOf_inj _ _ _ _ _ _
                    (inv_nodup _ _ _ _ _ _ _ _ _ HI) Hq Hq') as Heq.
      inversion Heq; subst. congruence.
    + intros p (Hp & Hin)%list_elem_of_filter. destruct Hp as [Hsp Hgone].
      apply elem_of_ptrsOf in Hin as (x & y & Hxy).
      unfold speciesAt in Hsp.
      destruct (creatures m !! p) as [c0|] eqn:Hc0; [|discriminate].
      simpl in Hsp. inversion Hsp as [Hfish].
      destruct (Hfate x y p c0 Hxy Hc0)
        as [Hin|[[Hsh _]|[Hnone|(_ & _ & q & cq & Hq & _ & Hqo & Hcq & Hsq)]]];
        [contradiction|congruence|congruence|].
      exists q. split.
      * apply list_elem_of_filter. split; [|exact Hqo].
        unfold speciesAt. rewrite Hcq. simpl. congruence.
      * exists x, y. auto.
Qed.

Lemma fish_lost_at_most_sharks_witness :
  WellFormed sampleMem 0%nat sampleWorld /\
  exists m' nw,
    processChronon 0%nat (mkParams 0 0 3 10 5 2) sampleMem = Some (1%nat, m') /\
    worlds m' !! 1%nat = Some nw /\
    (1 <= countSpecies (creatures m') (Grid nw) Fish + 1)%nat.
Proof.
  split; [exact sample_WellFormed|].
  destruct (fish_lost_at_most_sharks sampleMem 0%nat sampleWorld
              (mkParams 0 0 3 10 5 2) sample_WellFormed)
    as (m' & nw & Hrun & Hnw & Hle).
  exists m', nw. split; [exact Hrun|]. split; [exact Hnw|exact Hle].
Defined.

Lemma census_zero m o ow m' nw sp :
  ChrononResult m o ow m' nw ->
  countSpecies (creatures m) (Grid ow) sp = 0%nat ->
  countSpecies (creatures m') (Grid nw) sp = 0%nat.
Proof.
  intros Hres Hzero.
  pose proof (census_bound m o ow m' nw Hres sp) as Hle.
  assert (breeders timerAfter (Size ow) (FishBreed ow) (SharkBreed ow)
                   (creatures m) (Grid ow) sp = []) as Hnone.
  { apply elem_of_nil_inv. intros d Hd.
    apply filter_elem in Hd as [_ Hb]. unfold breeder in Hb.
    destruct (gridGet (Grid ow) d.1 d.2) as [[q|]|] eqn:Hq; try discriminate.
    destruct (creatures m !! q) as [c|] eqn:Hc; [|discriminate].
    apply andb_prop in Hb as [Hb _]. apply andb_prop in Hb as [Hb _].
    apply bool_decide_eq_true in Hb.
    assert (q ∈ filter (λ p, speciesAt (creatures m) p = Some sp)
                       (ptrsOf (Grid ow))) as Hin.
    { apply list_elem_of_filter. split.
      - unfold speciesAt. rewrite Hc. simpl. congruence.
      - apply elem_of_ptrsOf. eauto. }
    unfold countSpecies in Hzero. apply length_zero_iff_nil in Hzero.
    rewrite Hzero in Hin. inversion Hin. }
  rewrite Hnone, Hzero in Hle. simpl in Hle. lia.
Qed.

(** X19. No species comes back: when the old grid holds no creature of a
    species, neither does the new grid; a world without creatures stays
    without creatures. *)
Theorem species_never_reappear m o ow params sp :
  WellFormed m o ow ->
  countSpecies (creatures m) (Grid ow) sp = 0%nat ->
  exists m' nw,
    processChronon o params m = Some (length (worlds m), m') /\
    worlds m' !! length (worlds m) = Some nw /\
    countSpecies (creatures m') (Grid nw) sp = 0%nat.
Proof.
  intros Hwf Hzero.
  destruct (chronon_result m o ow params Hwf) as (m' & nw & Hrun & _ & Hres).
  exists m', nw. split; [exact Hrun|]. split; [exact (cr_new _ _ _ _ _ Hres)|].
  exact (census_zero m o ow m' nw sp Hres Hzero).
Qed.

Lemma species_never_reappear_witness :
  WellFormed emptyMem 0%nat emptyWorld /\
  exists m' nw,
    processChronon 0%nat (mkParams 0 0 3 10 5 2) emptyMem = Some (1%nat, m') /\
    worlds m' !! 1%nat = Some nw /\
    countSpecies (creatures m') (Grid nw) Fish = 0%nat.
Proof.
  split; [exact emptyMem_WellFormed|].
  apply (species_never_reappear emptyMem 0%nat emptyWorld (mkParams 0 0 3 10 5 2)
           Fish emptyMem_WellFormed).
  reflexivity.
Defined.

(** X20. The end of the simulation: on a well-formed world without
    creatures the loop of [main] runs one round, whatever the number of
    chronons left: it writes the
    population line with 0 fish and 0 sharks, a picture that shows no
    creature, and the line "All life extinct!", and stops. *)
Theorem simulate_stops_when_extinct n chronon w W params m out :
  WellFormed m w W -> ptrsOf (Grid W) = [] ->
  exists pic m',
    simulate (Datatypes.S n) chronon w params out m
    = Some (out ++ populationLine chronon 0 0 ++ pic
                ++ text "All life extinct!" ++ [newline], m') /\
    occurrences "F" pic = 0%nat /\ occurrences "S" pic = 0%nat.
Proof.
  intros Hwf Hnone.
  assert (forall sp, countSpecies (creatures m) (Grid W) sp = 0%nat) as Hzero
    by (intros sp; unfold countSpecies; rewrite Hnone; reflexivity).
  destruct (chronon_result m w W params Hwf) as (m1 & nw & Hrun & _ & Hres).
  pose proof (chronon_WellFormed m w W m1 nw Hwf Hres) as Hwf1.
  assert (forall sp, countSpecies (creatures m1) (Grid nw) sp = 0%nat) as Hzero1
    by (intros sp; exact (census_zero m w W m1 nw sp Hres (Hzero sp))).
  rewrite simulate_unfold. step Hrun.
  pose proof (countPopulation_wrapped m1 _ nw (wf_world _ _ _ Hwf1)
                (wf_dims _ _ _ Hwf1) (wf_valid _ _ _ Hwf1)) as Hcount.
  rewrite !Hzero1 in Hcount. step Hcount.
  step (printWorld_run m1 _ nw (wf_world _ _ _ Hwf1) (wf_dims _ _ _ Hwf1)
          (wf_valid _ _ _ Hwf1)).
  cbv zeta. cbn [fst snd]. rewrite decide_True by (split; reflexivity).
  destruct (picture_census (creatures m1) (Grid nw) (Size nw) (wf_dims _ _ _ Hwf1))
    as [HF HS].
  rewrite (Hzero1 Fish) in HF.
  rewrite (Hzero1 Shark), (Hzero1 Empty) in HS.
  eexists _, m1. split; [|split; [exact HF|exact HS]].
  unfold mret, M_ret. rewrite <- !app_assoc. reflexivity.
Qed.

Lemma simulate_stops_when_extinct_witness :
  WellFormed emptyMem 0%nat emptyWorld /\
  exists pic m',
    simulate 5 7 0%nat (mkParams 0 0 3 10 5 2) [] emptyMem
    = Some ([] ++ populationLine 7 0 0 ++ pic
               ++ text "All life extinct!" ++ [newline], m').
Proof.
  split; [exact emptyMem_WellFormed|].
  destruct (simulate_stops_when_extinct 4 7 0%nat emptyWorld (mkParams 0 0 3 10 5 2)
              emptyMem [] emptyMem_WellFormed eq_refl) as (pic & m' & Hrun & _).
  exists pic, m'. exact Hrun.
Defined.

(** ** What a chronon keeps *)

(** X21. A chronon can follow a chronon: on a well-formed world
    [processChronon] returns a world that is well-formed in the memory it
    leaves, with the size and the three thresholds of the old world. *)
Theorem chronon_keeps_world m o ow params :
  WellFormed m o ow ->
  exists m' nw,
    processChronon o params m = Some (length (worlds m), m') /\
    WellFormed m' (length (worlds m)) nw /\
    Size nw = Size ow /\ FishBreed nw = FishBreed ow /\
    SharkBreed nw = SharkBreed ow /\ Starve nw = Starve ow.
Proof.
  intros Hwf.
  destruct (chronon_result m o ow params Hwf) as (m' & nw & Hrun & _ & Hres).
  exists m', nw. split; [exact Hrun|].
  split; [exact (chronon_WellFormed m o ow m' nw Hwf Hres)|].
  split; [exact (cr_size _ _ _ _ _ Hres)|].
  split; [exact (cr_fish _ _ _ _ _ Hres)|].
  split; [exact (cr_shark _ _ _ _ _ Hres)|exact (cr_starve _ _ _ _ _ Hres)].
Qed.

Lemma chronon_keeps_world_witness :
  WellFormed sampleMem 0%nat sampleWorld /\
  exists m' nw,
    processChronon 0%nat (mkParams 0 0 3 10 5 2) sampleMem = Some (1%nat, m') /\
    WellFormed m' 1%nat nw /\ Size nw = 2 /\ Starve nw = 5.
Proof.
  split; [exact sample_WellFormed|].
  destruct (chronon_keeps_world sampleMem 0%nat sampleWorld
              (mkParams 0 0 3 10 5 2) sample_WellFormed)
    as (m' & nw & Hrun & Hwf & HS & _ & _ & HV).
  exists m', nw. split; [exact Hrun|]. split; [exact Hwf|].
  split; [exact HS|exact HV].
Defined.

(** X22. The energy of the sharks stays between 1 and the starvation
    threshold: when every shark of the old grid has an energy from 1 to
    [Starve], so has every shark of the new grid, those made in the
    chronon included. *)
Theorem shark_energy_bounded m o ow params :
  WellFormed m o ow -> Starve ow <= GoInt.max_int ->
  (forall p c0, p ∈ ptrsOf (Grid ow) -> creatures m !! p = Some c0 ->
     species c0 = Shark -> 1 <= Energy c0 <= Starve ow) ->
  exists m' nw,
    processChronon o params m = Some (length (worlds m), m') /\
    worlds m' !! length (worlds m) = Some nw /\
    Starve nw = Starve ow /\
    forall p c, p ∈ ptrsOf (Grid nw) -> creatures m' !! p = Some c ->
      species c = Shark -> 1 <= Energy c <= Starve ow.
Proof.
  intros Hwf Hmax Hold.
  destruct (chronon_result m o ow params Hwf) as (m' & nw & Hrun & _ & Hres).
  exists m', nw. split; [exact Hrun|]. split; [exact (cr_new _ _ _ _ _ Hres)|].
  split; [exact (cr_starve _ _ _ _ _ Hres)|].
  intros p c (x & y & Hp)%elem_of_ptrsOf Hc Hshark.
  destruct (inv_placed _ _ _ _ _ _ _ _ _ (cr_inv _ _ _ _ _ Hres) (x, y) p Hp)
    as [src c0 c1 Hsrc _ Hc0 Hc1 (Hsp & _ & Hen) _
       |q cq0 cq dq Hl _ Hq Hcq0 _ _ _ _ Hchild _ _ _].
  - assert (c1 = c) as -> by congruence.
    assert (species c0 = Shark) as Hs0 by congruence.
    pose proof (Hold p c0 ltac:(apply elem_of_ptrsOf; eauto) Hc0 Hs0) as He0.
    destruct Hen as [[Hf _]|(_ & Hpos & Hcases)]; [congruence|].
    assert (GoInt.sub (Energy c0) 1 = Energy c0 - 1) as Hsub
      by (unfold GoInt.sub; apply wrap_small; int_range).
    rewrite Hsub in Hpos, Hcases. destruct Hcases as [-> | ->]; lia.
  - assert (c = childOf (Starve ow) (species cq0)) as -> by congruence.
    destruct (species cq0) eqn:Hs0; simpl in Hshark; try discriminate.
    pose proof (Hold q cq0 ltac:(apply elem_of_ptrsOf; eauto) Hcq0 Hs0) as He0.
    simpl. lia.
Qed.

Lemma shark_energy_bounded_witness :
  WellFormed sampleMem 0%nat sampleWorld /\ Starve sampleWorld <= GoInt.max_int /\
  exists m' nw,
    processChronon 0%nat (mkParams 0 0 3 10 5 2) sampleMem = Some (1%nat, m') /\
    worlds m' !! 1%nat = Some nw /\ Starve nw = 5.
Proof.
  split; [exact sample_WellFormed|].
  assert (Starve sampleWorld <= GoInt.max_int) as Hmax
    by (vm_compute; discriminate).
  split; [exact Hmax|].
  destruct (shark_energy_bounded sampleMem 0%nat sampleWorld
              (mkParams 0 0 3 10 5 2) sample_WellFormed Hmax)
    as (m' & nw & Hrun & Hnw & HV & _).
  - intros p c0 Hp Hc0 Hs. vm_compute in Hp.
    apply elem_of_cons in Hp as [->|Hp].
    + inversion Hc0; subst c0. simpl. lia.
    + apply list_elem_of_singleton in Hp. subst p.
      inversion Hc0; subst c0. discriminate.
  - exists m', nw. split; [exact Hrun|]. split; [exact Hnw|exact HV].
Defined.

(** X23. Nothing is allocated in vain and nothing is freed: the creatures
    that exist when the chronon starts keep their places on the heap, and
    every creature allocated during the chronon is in a cell of the new
    grid, with age and breed timer 0. *)
Theorem births_are_placed m o ow params :
  WellFormed m o ow ->
  exists m' nw,
    processChronon o params m = Some (length (worlds m), m') /\
    worlds m' !! length (worlds m) = Some nw /\
    (length (creatures m) <= length (creatures m'))%nat /\
    forall k, (length (creatures m) <= k < length (creatures m'))%nat ->
      exists x y c,
        gridGet (Grid nw) x y = Some (Some k) /\
        creatures m' !! k = Some c /\ Age c = 0 /\ LastBreed c = 0.
Proof.
  intros Hwf.
  destruct (chronon_fate m o ow params Hwf)
    as (m' & nw & Hrun & Hres & _ & _ & Hbirths).
  exists m', nw. split; [exact Hrun|]. split; [exact (cr_new _ _ _ _ _ Hres)|].
  split; [exact (inv_len _ _ _ _ _ _ _ _ _ (cr_inv _ _ _ _ _ Hres))|].
  intros k Hk.
  destruct (proj1 (elem_of_ptrsOf _ _) (Hbirths k Hk)) as (x & y & Hxy).
  destruct (children_after_chronon m o ow m' nw Hres x y k Hxy ltac:(lia))
    as (q & dq & cp & cq & _ & _ & _ & Hcp & _ & Hlb & _ & Hage & _).
  exists x, y, cp. auto.
Qed.

Lemma births_are_placed_witness :
  WellFormed timerMem 0%nat timerWorld /\
  exists m' nw,
    processChronon 0%nat (mkParams 0 1 3 10 5 3) timerMem = Some (1%nat, m') /\
    worlds m' !! 1%nat = Some nw /\
    (length (creatures timerMem) <= length (creatures m'))%nat.
Proof.
  assert (WellFormed timerMem 0%nat timerWorld) as Hwf.
  { constructor.
    - reflexivity.
    - unfold max_size. simpl. lia.
    - split; [reflexivity|]. repeat constructor.
    - vm_compute. apply NoDup_singleton.
    - intros q Hq. vm_compute in Hq.
      apply list_elem_of_singleton in Hq. subst q. simpl. lia. }
  split; [exact Hwf|].
  destruct (births_are_placed timerMem 0%nat timerWorld (mkParams 0 1 3 10 5 3) Hwf)
    as (m' & nw & Hrun & Hnw & Hlen & _).
  exists m', nw. split; [exact Hrun|]. split; [exact Hnw|exact Hlen].
Defined.
